(** * kbcreator: the ingestion pipeline of [src/pipeline.ts]

    A shallow embedding of the knowledge-base ingestion pipeline: Markdown
    documents are split into sections and chunks, every chunk receives a
    positional identifier, chunk texts are embedded in batches and the
    resulting points are upserted in batches, every network call being
    wrapped in a bounded retry loop.

    JavaScript strings are modelled by [string] (8-bit characters), the
    counters [sectionIndex] and [chunkIndex] by [nat], the batch size and the
    loop index of [chunkArray] by [Z], the [Map] of the section loop by a
    [gmap].  The libraries the program calls but does not define (the UUID
    hash, the Markdown parser, the sentence splitter, the embedding provider
    and the vector store) are variables of the sections below. *)

From Stdlib Require Import ZArith Lia Ascii DecimalString DecimalNat.
From stdpp Require Import base strings list gmap finite.

Local Open Scope Z_scope.

(** ** Strings *)

Module Str.

(** [String.prototype.trim] strips the ECMAScript white space and line
    terminator characters; these are the ones below 256. *)
Definition is_ws (c : ascii) : bool :=
  let n := Ascii.nat_of_ascii c in
  ((9 <=? n) && (n <=? 13) || (n =? 32) || (n =? 160))%nat.

Fixpoint trimStart (s : string) : string :=
  match s with
  | EmptyString => EmptyString
  | String c r => if is_ws c then trimStart r else s
  end.

Fixpoint trimEnd (s : string) : string :=
  match s with
  | EmptyString => EmptyString
  | String c r =>
      match trimEnd r with
      | EmptyString => if is_ws c then EmptyString else String c EmptyString
      | r' => String c r'
      end
  end.

Definition trim (s : string) : string := trimEnd (trimStart s).

(** Every character of the string is white space (true of the empty
    string). *)
Fixpoint all_ws (s : string) : bool :=
  match s with
  | EmptyString => true
  | String c r => is_ws c && all_ws r
  end.

Definition first (s : string) : option ascii :=
  match s with EmptyString => None | String c _ => Some c end.

Fixpoint last (s : string) : option ascii :=
  match s with
  | EmptyString => None
  | String c EmptyString => Some c
  | String _ r => last r
  end.

(** The string neither starts nor ends with a white space character. *)
Definition stripped (s : string) : Prop :=
  (forall c, first s = Some c -> is_ws c = false) /\
  (forall c, last s = Some c -> is_ws c = false).

Fixpoint occurs (x : ascii) (s : string) : bool :=
  match s with
  | EmptyString => false
  | String c r => if decide (c = x) then true else occurs x r
  end.

(** The template literal [`${n}`] of a counter: its decimal digits. *)
Definition of_nat (n : nat) : string :=
  NilEmpty.string_of_uint (Nat.to_uint n).

Definition of_Z (z : Z) : string :=
  match z with
  | Zneg p => String "-" (of_nat (Pos.to_nat p))
  | _ => of_nat (Z.to_nat z)
  end.

End Str.

(** ** Paths: [path.extname] and [path.parse(p).name] *)

Module Path.

(** The part of [s] after its last ["/"] (POSIX separators; paths that do
    not end in a separator, as the entry names of a directory). *)
Fixpoint basename (s : string) : string :=
  match s with
  | EmptyString => EmptyString
  | String c r =>
      if Str.occurs "/" r then basename r
      else if decide (c = "/"%char) then r else s
  end.

(** Splits a base name at its last dot: [(before, from the dot on)], when
    there is a dot. *)
Fixpoint split_ext (s : string) : option (string * string) :=
  match s with
  | EmptyString => None
  | String c r =>
      match split_ext r with
      | Some (n, e) => Some (String c n, e)
      | None => if decide (c = "."%char) then Some (EmptyString, s) else None
      end
  end.

(** Node reports no extension when the base name has no dot, when its only
    dot is its first character, and for [".."]. *)
Definition parse (p : string) : string * string :=
  let b := basename p in
  match split_ext b with
  | Some (EmptyString, _) => (b, EmptyString)
  | Some (n, e) =>
      if decide (b = "..") then (b, EmptyString) else (n, e)
  | None => (b, EmptyString)
  end.

Definition name (p : string) : string := fst (parse p).
Definition extname (p : string) : string := snd (parse p).

End Path.

(** ** Configuration knobs *)

Definition COLLECTION : string := "kb_docs_v1".
Definition CHUNK_SIZE : Z := 512.
Definition CHUNK_OVERLAP : Z := 64.
Definition EMBED_BATCH : Z := 128.
Definition UPSERT_BATCH : Z := 2000.

(** ** Data *)

(** An entry of the input directory together with the text read from it. *)
Record DirEntry := {
  isFile : bool;
  name : string;
  content : string }.

Record Document := {
  doc_text : string;
  doc_path : string;
  doc_fileName : string;
  doc_ext : string }.

(** A node of the parser or of the splitter: its text and the metadata keys
    the pipeline reads back ([path], [ext]); a key may be absent. *)
Record TextNode := {
  node_text : string;
  node_path : option string;
  node_ext : option string }.

(** A chunk after the section loop: the node text and its flat metadata,
    which together are the payload of its point. *)
Record Chunk := {
  text : string;
  path : string;
  fileName : string;
  sectionTitle : string;
  sectionAnchor : string;
  sectionIndex : nat;
  chunkIndex : nat;
  source : string;
  ext : option string }.

(** What a rejected promise carries: [undefined] (the initial [lastErr]),
    whatever a provider threw, or an [Error] the pipeline builds itself. *)
Inductive Exn :=
| Undefined
| Fault (msg : string)
| Error (msg : string).

(** The outcome of a computation; [Spin] is a loop that never exits. *)
Inductive res (A : Type) :=
| Ok (a : A)
| Throw (e : Exn)
| Spin.
Arguments Ok {A} a.
Arguments Throw {A} e.
Arguments Spin {A}.

Inductive Exit :=
| ExitCode (code : Z)
| NoExit.

(** ** Helpers of the pipeline *)

(** [arr.slice(start, end)] with integer arguments. *)
Definition slice {T} (arr : list T) (start end_ : Z) : list T :=
  let len := Z.of_nat (length arr) in
  let k := if start <? 0 then Z.max (len + start) 0 else Z.min start len in
  let fin := if end_ <? 0 then Z.max (len + end_) 0 else Z.min end_ len in
  take (Z.to_nat (fin - k)) (drop (Z.to_nat k) arr).

(** The [for] loop of [chunkArray]; [None] when the fuel runs out before the
    loop condition fails. *)
Fixpoint chunkArray_loop {T} (fuel : nat) (arr : list T) (size i : Z)
    (out : list (list T)) : option (list (list T)) :=
  match fuel with
  | O => None
  | S fuel' =>
      if i <? Z.of_nat (length arr)
      then chunkArray_loop fuel' arr size (i + size) (out ++ [slice arr i (i + size)])
      else Some out
  end.

Definition chunkArray_fuel {T} (fuel : nat) (arr : list T) (size : Z) :
    option (list (list T)) :=
  chunkArray_loop fuel arr size 0 [].

(** One iteration per element is the most a positive step needs. *)
Definition chunkArray {T} (arr : list T) (size : Z) : option (list (list T)) :=
  chunkArray_fuel (S (length arr)) arr size.

Fixpoint loadMarkdownDocs (entries : list DirEntry) : list Document :=
  match entries with
  | [] => []
  | entry :: rest =>
      if negb (isFile entry) then loadMarkdownDocs rest
      else if negb (String.eqb (Path.extname (name entry)) ".md")
      then loadMarkdownDocs rest
      else {| doc_text := content entry; doc_path := name entry;
              doc_fileName := name entry; doc_ext := ".md" |}
           :: loadMarkdownDocs rest
  end.

(** [s.replace(/p+/g, '-')]: every maximal run of characters satisfying [p]
    becomes one hyphen. *)
Fixpoint replace_runs (p : ascii -> bool) (s : string) : string :=
  match s with
  | EmptyString => EmptyString
  | String c r =>
      if p c then
        match r with
        | String d _ => if p d then replace_runs p r else String "-" (replace_runs p r)
        | EmptyString => String "-" EmptyString
        end
      else String c (replace_runs p r)
  end.

(** [Math.min(2000 * 2 ** attempt, 15000)] *)
Definition backoff (attempt : Z) : Z := Z.min (2000 * 2 ^ attempt) 15000.

(** The object literal [stableId] receives. *)
Record IdPayload := {
  id_path : string;
  id_sectionIndex : nat;
  id_chunkIndex : nat;
  id_text : string }.

Section Identifier.

(** [v5(name, namespace)] of the [uuid] package. *)
Variable v5 : string -> string -> string.

Definition BASE_NS : string := "6f1a73a1-8d1b-4c31-9b00-1c4c2e0f9b12".

Definition stableId (payload : IdPayload) : string :=
  let name := payload.(id_path) +:+ "|s" +:+ Str.of_nat payload.(id_sectionIndex)
              +:+ "|c" +:+ Str.of_nat payload.(id_chunkIndex) in
  v5 name BASE_NS.

End Identifier.

(** ** The pipeline *)

Declare Scope pipe_scope.
Delimit Scope pipe_scope with pipe.

Section Pipeline.

(** The collaborators: the state [W] of the outside world, the embedding
    provider and the vector store as transitions of that state, the
    Markdown parser, the sentence splitter, the UUID hash, and the
    Unicode-aware string operations of [inferSectionTitle] and [slugify]. *)
Variable vector : Type.
Variable W : Type.

(** [res.data] may be missing; each datum carries its [embedding]. *)
Record EmbedResponse := { data : option (list vector) }.

(** [vectors[i]] is [undefined] beyond the end of [vectors]. *)
Record Point := {
  id : string;
  point_vector : option vector;
  payload : Chunk }.

Variable embeddings_create :
  string -> list string -> W -> (Exn + EmbedResponse) * W.
Variable vectorDB_upsert :
  string -> list Point -> W -> (Exn + unit) * W.
Variable markdownSections : list Document -> list TextNode.
Variable sentenceSplit : Z -> Z -> string -> list string.
Variable v5 : string -> string -> string.
Variable headingMatch : string -> option string.
Variable toLowerCase : string -> string.
Variable removeNonWord : string -> string.

(** What the run does to the outside, in order. *)
Inductive Event :=
| EvWarn (msg : string)
| EvSleep (ms : Z)
| EvEmbed (input : list string) (reply : Exn + EmbedResponse)
| EvUpsert (collection : string) (points : list Point) (reply : Exn + unit)
| EvLog (msg : string)
| EvError (e : Exn).

Record St := { world : W; log : list Event }.

Definition M (A : Type) : Type := St -> res A * St.

Definition ret {A} (a : A) : M A := fun st => (Ok a, st).
Definition throw {A} (e : Exn) : M A := fun st => (Throw e, st).
Definition spin {A} : M A := fun st => (Spin, st).

Definition bind {A B} (m : M A) (k : A -> M B) : M B :=
  fun st =>
    match m st with
    | (Ok a, st') => k a st'
    | (Throw e, st') => (Throw e, st')
    | (Spin, st') => (Spin, st')
    end.

Definition try_catch {A} (m : M A) (handler : Exn -> M A) : M A :=
  fun st =>
    match m st with
    | (Throw e, st') => handler e st'
    | r => r
    end.

Definition emit (ev : Event) : M unit :=
  fun st => (Ok tt, {| world := world st; log := log st ++ [ev] |}).

Notation "x <- m ;; k" := (bind m (fun x => k))
  (at level 100, m at next level, right associativity) : pipe_scope.
Notation "m ;;; k" := (bind m (fun _ => k))
  (at level 100, right associativity) : pipe_scope.
Local Open Scope pipe_scope.

(** The two network calls. *)
Definition call_embed (model : string) (input : list string) : M EmbedResponse :=
  fun st =>
    let '(reply, w) := embeddings_create model input (world st) in
    let st' := {| world := w; log := log st ++ [EvEmbed input reply] |} in
    match reply with
    | inl e => (Throw e, st')
    | inr r => (Ok r, st')
    end.

Definition call_upsert (collection : string) (points : list Point) : M unit :=
  fun st =>
    let '(reply, w) := vectorDB_upsert collection points (world st) in
    let st' := {| world := w; log := log st ++ [EvUpsert collection points reply] |} in
    match reply with
    | inl e => (Throw e, st')
    | inr r => (Ok r, st')
    end.

Definition slugify (s : string) : string :=
  replace_runs (fun c => bool_decide (c = "-"%char))
    (replace_runs Str.is_ws (removeNonWord (Str.trim (toLowerCase s)))).

Definition inferSectionTitle (nodeText filePath : string) : string :=
  Str.trim (default (Path.name filePath) (headingMatch nodeText)).

Definition splitSection (chunkSize chunkOverlap : Z) (sectionNode : TextNode) :
    list TextNode :=
  let chunkNodes :=
    map (fun t => {| node_text := t;
                     node_path := node_path sectionNode;
                     node_ext := node_ext sectionNode |})
        (sentenceSplit chunkSize chunkOverlap (node_text sectionNode)) in
  let chunkNodes :=
    map (fun n => {| node_text := Str.trim (node_text n);
                     node_path := node_path n;
                     node_ext := node_ext n |}) chunkNodes in
  filter (fun n => (0 < String.length (node_text n))%nat) chunkNodes.

Definition warn_msg (label : string) (attempt wait : Z) : string :=
  "[" +:+ label +:+ "] attempt " +:+ Str.of_Z (attempt + 1)
      +:+ " failed; retrying in " +:+ Str.of_Z wait +:+ "ms".

(** The [while] loop of [withRetry]. *)
Fixpoint withRetry_loop {A} (fuel : nat) (fn : M A) (label : string)
    (tries attempt : Z) (lastErr : Exn) : M A :=
  match fuel with
  | O => spin
  | S fuel' =>
      if attempt <? tries then
        try_catch fn (fun e =>
          let wait := backoff attempt in
          emit (EvWarn (warn_msg label attempt wait)) ;;;
          emit (EvSleep wait) ;;;
          withRetry_loop fuel' fn label tries (attempt + 1) e)
      else throw lastErr
  end.

Definition withRetry_tries {A} (fn : M A) (label : string) (tries : Z) : M A :=
  withRetry_loop (S (Z.to_nat tries)) fn label tries 0 Undefined.

(** [tries = 4] is the default both call sites rely on. *)
Definition withRetry {A} (fn : M A) (label : string) : M A :=
  withRetry_tries fn label 4.

(** The inner loop of [main]: the chunks of one section. *)
Fixpoint partsLoop (parts : list TextNode)
    (filePath fileName sectionTitle sectionAnchor : string) (sectionIndex : nat)
    (chunkIndex : nat) (chunks : list Chunk) : list Chunk :=
  match parts with
  | [] => chunks
  | c :: rest =>
      let chunkIndex := (chunkIndex + 1)%nat in
      let raw := Str.trim (node_text c) in
      let c_text := fileName +:+ "||" +:+ raw in
      let c_text := Str.trim c_text in
      let c' := {| text := c_text;
                   path := filePath;
                   fileName := fileName;
                   sectionTitle := sectionTitle;
                   sectionAnchor := sectionAnchor;
                   sectionIndex := sectionIndex;
                   chunkIndex := chunkIndex;
                   source := "kb";
                   ext := node_ext c |} in
      partsLoop rest filePath fileName sectionTitle sectionAnchor sectionIndex
        chunkIndex
        (if (0 <? String.length c_text)%nat then chunks ++ [c'] else chunks)
  end.

(** The outer loop of [main] over the sections, with its [Map]. *)
Fixpoint sectionsLoop (sections : list TextNode)
    (perFileSection : gmap string nat) (chunks : list Chunk) : list Chunk :=
  match sections with
  | [] => chunks
  | sec :: rest =>
      let filePath := default "unknown.md" (node_path sec) in
      let fileName := Path.name filePath in
      let sectionTitle := inferSectionTitle (node_text sec) filePath in
      let sectionAnchor := slugify sectionTitle in
      let sectionIndex := (default 0 (perFileSection !! filePath) + 1)%nat in
      let perFileSection := <[filePath := sectionIndex]> perFileSection in
      let parts := splitSection CHUNK_SIZE CHUNK_OVERLAP sec in
      sectionsLoop rest perFileSection
        (partsLoop parts filePath fileName sectionTitle sectionAnchor
           sectionIndex 0 chunks)
  end.

Definition data_length (r : EmbedResponse) : nat :=
  match data r with Some d => length d | None => 0 end.

Definition size_mismatch (r : EmbedResponse) (slice : list string) : string :=
  "Embedding size mismatch: got " +:+ Str.of_nat (data_length r)
    +:+ ", expected " +:+ Str.of_nat (length slice).

(** The embedding loop from batch [b] on; [batches] are the batches not yet
    embedded and [total] is [textBatches.length]. *)
Fixpoint embedLoop (batches : list (list string)) (b total : nat)
    (vectors : list vector) : M (list vector) :=
  match batches with
  | [] => ret vectors
  | slice :: rest =>
      res <- withRetry (call_embed "text-embedding-3-small" slice)
               ("embed-batch-" +:+ Str.of_nat (b + 1) +:+ "/" +:+ Str.of_nat total) ;;
      match data res with
      | Some d =>
          if negb (length d =? length slice)%nat
          then throw (Error (size_mismatch res slice))
          else embedLoop rest (b + 1) total (vectors ++ d)
      | None => throw (Error (size_mismatch res slice))
      end
  end.

Definition allPoints (chunks : list Chunk) (vectors : list vector) : list Point :=
  imap (fun i c =>
    {| id := stableId v5 {| id_path := path c;
                            id_sectionIndex := sectionIndex c;
                            id_chunkIndex := chunkIndex c;
                            id_text := text c |};
       point_vector := vectors !! i;
       payload := c |}) chunks.

(** The upsert loop from batch [i] on. *)
Fixpoint upsertLoop (batches : list (list Point)) (i total : nat)
    (upserted : nat) : M nat :=
  match batches with
  | [] => ret upserted
  | points :: rest =>
      withRetry (call_upsert COLLECTION points)
        ("upsert-" +:+ Str.of_nat (i + 1) +:+ "/" +:+ Str.of_nat total) ;;;
      upsertLoop rest (i + 1) total (upserted + length points)
  end.

Definition misalignment (vectors chunks : nat) : string :=
  "Vector/chunk misalignment: vectors=" +:+ Str.of_nat vectors
    +:+ ", chunks=" +:+ Str.of_nat chunks.

(** The chunks [main] holds after its section loop. *)
Definition chunksOf (docs : list Document) : list Chunk :=
  sectionsLoop (markdownSections docs) ∅ [].

Definition main (entries : list DirEntry) : M unit :=
  let docs := loadMarkdownDocs entries in
  if (length docs =? 0)%nat then emit (EvWarn "No .md files in ./assets") else
  let chunks := chunksOf docs in
  if (length chunks =? 0)%nat then
    emit (EvWarn "No non-empty chunks produced. Check your Markdown and splitter settings.")
  else
  let texts := map text chunks in
  match chunkArray texts EMBED_BATCH with
  | None => spin
  | Some textBatches =>
      vectors <- embedLoop textBatches 0 (length textBatches) [] ;;
      if negb (length vectors =? length chunks)%nat
      then throw (Error (misalignment (length vectors) (length chunks)))
      else
      match chunkArray (allPoints chunks vectors) UPSERT_BATCH with
      | None => spin
      | Some pointBatches =>
          upserted <- upsertLoop pointBatches 0 (length pointBatches) 0 ;;
          emit (EvLog ("✅ Upserted " +:+ Str.of_nat upserted +:+ " chunks into "
                         +:+ COLLECTION +:+ " (flat payloads, deterministic ids)."))
      end
  end.

(** [main().catch(e => { console.error(e); process.exit(1) })]; a run that
    settles without an error leaves the process to exit with status 0. *)
Definition run (entries : list DirEntry) (st : St) : Exit * St :=
  match main entries st with
  | (Ok _, st') => (ExitCode 0, st')
  | (Throw e, st') => (ExitCode 1, snd (emit (EvError e) st'))
  | (Spin, st') => (NoExit, st')
  end.

End Pipeline.

Arguments data {vector} _.
Arguments id {vector} _.
Arguments point_vector {vector} _.
Arguments payload {vector} _.
Arguments world {vector W} _.
Arguments log {vector W} _.
Arguments EvWarn {vector} msg.
Arguments EvSleep {vector} ms.
Arguments EvEmbed {vector} input reply.
Arguments EvUpsert {vector} collection points reply.
Arguments EvLog {vector} msg.
Arguments EvError {vector} e.

(** ** Vocabulary of the properties

    Predicates over the chunks of a section and over the log of a run, in
    which the properties below are stated. *)

Section SectionVocabulary.

Variable sentenceSplit : Z -> Z -> string -> list string.

(** The chunks a section contributes when the loop numbers it [si]: one per
    part, in order, indexed from 1. *)
Definition section_group (sec : TextNode) (si : nat) (g : list Chunk) : Prop :=
  map chunkIndex g = seq 1 (length (splitSection sentenceSplit CHUNK_SIZE CHUNK_OVERLAP sec)) /\
  Forall2 (fun part c =>
    text c = Str.trim (Path.name (default "unknown.md" (node_path sec)) +:+ "||" +:+ Str.trim (node_text part)) /\
    path c = default "unknown.md" (node_path sec) /\
    fileName c = Path.name (default "unknown.md" (node_path sec)) /\
    sectionIndex c = si /\
    source c = "kb" /\
    ext c = node_ext part) (splitSection sentenceSplit CHUNK_SIZE CHUNK_OVERLAP sec) g.

(** How many sections of the list carry the path of [sec]. *)
Definition same_file_count (sec : TextNode) (secs : list TextNode) : nat :=
  length (filter (fun s => default "unknown.md" (node_path s) = default "unknown.md" (node_path sec)) secs).

End SectionVocabulary.

Section LogVocabulary.

Variable vector : Type.
Variable W : Type.

Local Abbreviation Event := (Event vector).
Local Abbreviation St := (St vector W).
Local Abbreviation M := (M vector W).

(** A computation that is one call to the outside: it logs the reply it got
    and throws exactly when the reply is an error. *)
Definition performs {A} (fn : M A) (ev : Exn + A -> Event) : Prop :=
  forall st, exists reply w,
    fn st = (match reply with inl e => Throw e | inr a => Ok a end,
             {| world := w; log := log st ++ [ev reply] |}).

(** What [withRetry] logs for attempts that failed with [errs], the first of
    them being attempt number [attempt] (from 0). *)
Fixpoint attempts_log (fail : Exn -> Event) (label : string) (attempt : Z)
    (errs : list Exn) : list Event :=
  match errs with
  | [] => []
  | e :: errs' =>
      [fail e; EvWarn (warn_msg label attempt (backoff attempt));
       EvSleep (backoff attempt)]
      ++ attempts_log fail label (attempt + 1) errs'
  end.

(** The embedding calls that returned, with what they returned. *)
Definition embed_successes (L : list Event) :
    list (list string * EmbedResponse vector) :=
  flat_map (fun ev => match ev with
                      | EvEmbed input (inr r) => [(input, r)]
                      | _ => []
                      end) L.

(** The batches of points handed to the vector store, whatever it replied. *)
Definition upsert_calls (L : list Event) : list (list (Point vector)) :=
  flat_map (fun ev => match ev with
                      | EvUpsert _ points _ => [points]
                      | _ => []
                      end) L.

(** A reply with as many vectors as the batch had texts. *)
Definition aligned (p : list string * EmbedResponse vector) : Prop :=
  exists d, data p.2 = Some d /\ length d = length p.1.

(** The sleep that follows a fourth failed attempt is in the log. *)
Definition exhausted (L : list Event) : Prop := EvSleep (backoff 3) ∈ L.

Inductive CallSite :=
| AtEmbed (input : list string)
| AtUpsert (collection : string) (points : list (Point vector)).

Definition failure (c : CallSite) (e : Exn) : Event :=
  match c with
  | AtEmbed input => EvEmbed input (inl e)
  | AtUpsert collection points => EvUpsert collection points (inl e)
  end.

(** The log ends with the fourth failed attempt of a call, which failed
    with [e], and holds no other fourth failure. *)
Definition exhausted_by (e : Exn) (L : list Event) : Prop :=
  exists L0 c label,
    L = L0 ++ [failure c e; EvWarn (warn_msg label 3 (backoff 3)); EvSleep (backoff 3)] /\
    ~ exhausted L0.

(** The vectors a log's successful embedding calls returned, in order. *)
Definition embedded (L : list Event) : list vector :=
  flat_map (fun p => default [] (data p.2)) (embed_successes L).

End LogVocabulary.

Arguments performs {vector W A} fn ev.
Arguments attempts_log {vector} fail label attempt errs.
Arguments embed_successes {vector} L.
Arguments upsert_calls {vector} L.
Arguments aligned {vector} p.
Arguments exhausted {vector} L.
Arguments AtEmbed {vector} input.
Arguments AtUpsert {vector} collection points.
Arguments failure {vector} c e.
Arguments exhausted_by {vector} e L.
Arguments embedded {vector} L.

Section RunVocabulary.

Variable vector : Type.
Variable markdownSections : list Document -> list TextNode.
Variable sentenceSplit : Z -> Z -> string -> list string.
Variable v5 : string -> string -> string.
Variable headingMatch : string -> option string.
Variable toLowerCase : string -> string.
Variable removeNonWord : string -> string.

Local Abbreviation Event := (Event vector).
Local Abbreviation chunksOf :=
  (chunksOf markdownSections sentenceSplit headingMatch toLowerCase removeNonWord).

(** The runs of [main], by what was logged and how the run ended. *)
Inductive MainTrace (entries : list DirEntry) : res unit -> list Event -> Prop :=
| Run_no_docs :
    loadMarkdownDocs entries = [] ->
    MainTrace entries (Ok tt) [EvWarn "No .md files in ./assets"]
| Run_no_chunks :
    loadMarkdownDocs entries <> [] ->
    chunksOf (loadMarkdownDocs entries) = [] ->
    MainTrace entries (Ok tt)
      [EvWarn "No non-empty chunks produced. Check your Markdown and splitter settings."]
| Run_embed_exhausted e Le :
    chunksOf (loadMarkdownDocs entries) <> [] ->
    upsert_calls Le = [] ->
    Forall aligned (embed_successes Le) ->
    exhausted_by e Le ->
    MainTrace entries (Throw e) Le
| Run_mismatch L0 slice res :
    chunksOf (loadMarkdownDocs entries) <> [] ->
    upsert_calls L0 = [] ->
    Forall aligned (embed_successes L0) ->
    ~ exhausted (L0 ++ [EvEmbed slice (inr res)]) ->
    ~ aligned (slice, res) ->
    MainTrace entries (Throw (Error (size_mismatch vector res slice)))
      (L0 ++ [EvEmbed slice (inr res)])
| Run_upsert_exhausted e Le Lu textBatches pointBatches :
    let chunks := chunksOf (loadMarkdownDocs entries) in
    chunks <> [] ->
    chunkArray (map text chunks) EMBED_BATCH = Some textBatches ->
    upsert_calls Le = [] ->
    ~ exhausted Le ->
    map fst (embed_successes Le) = textBatches ->
    Forall aligned (embed_successes Le) ->
    chunkArray (allPoints vector v5 chunks (embedded Le)) UPSERT_BATCH = Some pointBatches ->
    embed_successes Lu = [] ->
    Forall (fun pts => pts ∈ pointBatches) (upsert_calls Lu) ->
    exhausted_by e Lu ->
    MainTrace entries (Throw e) (Le ++ Lu)
| Run_done Le Lu textBatches pointBatches :
    let chunks := chunksOf (loadMarkdownDocs entries) in
    chunks <> [] ->
    chunkArray (map text chunks) EMBED_BATCH = Some textBatches ->
    upsert_calls Le = [] ->
    ~ exhausted Le ->
    map fst (embed_successes Le) = textBatches ->
    Forall aligned (embed_successes Le) ->
    chunkArray (allPoints vector v5 chunks (embedded Le)) UPSERT_BATCH = Some pointBatches ->
    embed_successes Lu = [] ->
    Forall (fun pts => pts ∈ pointBatches) (upsert_calls Lu) ->
    ~ exhausted Lu ->
    MainTrace entries (Ok tt)
      (Le ++ Lu ++
       [EvLog ("✅ Upserted " +:+ Str.of_nat (length (concat pointBatches))
                 +:+ " chunks into " +:+ COLLECTION
                 +:+ " (flat payloads, deterministic ids).")]).

End RunVocabulary.

(** ** Further vocabulary *)

(** Some character of the string is white space. *)
Fixpoint has_ws (s : string) : bool :=
  match s with
  | EmptyString => false
  | String c r => Str.is_ws c || has_ws r
  end.

Definition is_hyphen (c : ascii) : bool := bool_decide (c = "-"%char).

(** Two hyphens in a row somewhere in the string. *)
Fixpoint double_hyphen (s : string) : bool :=
  match s with
  | EmptyString => false
  | String c r =>
      (is_hyphen c && match r with String d _ => is_hyphen d | EmptyString => false end)
      || double_hyphen r
  end.

(** The structural position an identifier is derived from. *)
Definition position (c : Chunk) : string * nat * nat :=
  (path c, sectionIndex c, chunkIndex c).

(** The name [stableId] hands to [v5]: the template literal of line 25. *)
Definition hashed_name (payload : IdPayload) : string :=
  id_path payload +:+ "|s" +:+ Str.of_nat (id_sectionIndex payload)
    +:+ "|c" +:+ Str.of_nat (id_chunkIndex payload).

(** The triple of an identifier payload. *)
Definition triple (payload : IdPayload) : string * nat * nat :=
  (id_path payload, id_sectionIndex payload, id_chunkIndex payload).

(** A UUID is printed as 36 characters: 32 hexadecimal digits and 4
    hyphens. *)
Definition uuid_valued (v5 : string -> string -> string) : Prop :=
  forall name namespace, String.length (v5 name namespace) = 36%nat.

(** The 256 characters, and the strings of a given length. *)
Definition all_chars : list ascii := map ascii_of_nat (seq 0 256).

Fixpoint strings_of_length (n : nat) : list string :=
  match n with
  | O => [EmptyString]
  | S n' => flat_map (fun c => map (String c) (strings_of_length n')) all_chars
  end.

(** The payload of the first chunk of the file [<n>.md]. *)
Definition numbered_file (txt : string) (n : nat) : IdPayload :=
  {| id_path := Str.of_nat n +:+ ".md";
     id_sectionIndex := 1;
     id_chunkIndex := 1;
     id_text := txt |}.

Section CallVocabulary.

Variable vector : Type.

(** The batches of texts sent to the embedding provider, whatever it
    replied. *)
Definition embed_calls (L : list (Event vector)) : list (list string) :=
  flat_map (fun ev => match ev with
                      | EvEmbed input _ => [input]
                      | _ => []
                      end) L.

(** The batches of points the vector store accepted. *)
Definition upsert_successes (L : list (Event vector)) : list (list (Point vector)) :=
  flat_map (fun ev => match ev with
                      | EvUpsert _ points (inr _) => [points]
                      | _ => []
                      end) L.

(** The collections named in the calls to the vector store. *)
Definition upsert_targets (L : list (Event vector)) : list string :=
  flat_map (fun ev => match ev with
                      | EvUpsert collection _ _ => [collection]
                      | _ => []
                      end) L.

(** The milliseconds slept in a log. *)
Definition slept (L : list (Event vector)) : Z :=
  foldr (fun ev acc => match ev with EvSleep ms => ms + acc | _ => acc end) 0 L.

End CallVocabulary.

Arguments embed_calls {vector} L.
Arguments upsert_successes {vector} L.
Arguments slept {vector} L.
Arguments upsert_targets {vector} L.

Section RetryVocabulary.

Variable vector : Type.

(** The event is the answer, not an error, of the call made at [site]. *)
Definition answers (site : CallSite vector) (ev : Event vector) : Prop :=
  match site with
  | AtEmbed input => exists res, ev = EvEmbed input (inr res)
  | AtUpsert collection points => ev = EvUpsert collection points (inr tt)
  end.

(** [Retried calls L]: [L] is the log of the calls [calls], made one after
    the other, each attempted again after every failure and answered after
    fewer than four of them.  The failed attempts of a call are logged as
    [attempts_log] has them: the failure, the warning with the label of the
    call, the sleep of [backoff k]. *)
Inductive Retried : list (CallSite vector * string) -> list (Event vector) -> Prop :=
| Retried_nil : Retried [] []
| Retried_call site label errs ok calls L :
    (length errs < 4)%nat ->
    answers site ok ->
    Retried calls L ->
    Retried ((site, label) :: calls)
      (attempts_log (failure site) label 0 errs ++ ok :: L).

(** The embedding calls [main] has to make from batch [b] on, with the
    labels it gives them. *)
Fixpoint embed_schedule (b total : nat) (batches : list (list string)) :
    list (CallSite vector * string) :=
  match batches with
  | [] => []
  | slice :: rest =>
      (AtEmbed slice,
       "embed-batch-" +:+ Str.of_nat (b + 1) +:+ "/" +:+ Str.of_nat total)
      :: embed_schedule (b + 1) total rest
  end.

(** The upsert calls [main] has to make from batch [i] on. *)
Fixpoint upsert_schedule (i total : nat) (batches : list (list (Point vector))) :
    list (CallSite vector * string) :=
  match batches with
  | [] => []
  | points :: rest =>
      (AtUpsert COLLECTION points,
       "upsert-" +:+ Str.of_nat (i + 1) +:+ "/" +:+ Str.of_nat total)
      :: upsert_schedule (i + 1) total rest
  end.

(** The network calls of a run in program order: one per batch of texts,
    then one per batch of points. *)
Definition scheduled (textBatches : list (list string))
    (pointBatches : list (list (Point vector))) : list (CallSite vector * string) :=
  embed_schedule 0 (length textBatches) textBatches
    ++ upsert_schedule 0 (length pointBatches) pointBatches.

End RetryVocabulary.

Arguments answers {vector} site ev.
Arguments Retried {vector} calls L.
Arguments embed_schedule {vector} b total batches.
Arguments upsert_schedule {vector} i total batches.
Arguments scheduled {vector} textBatches pointBatches.


(** ** Test doubles

    Stand-ins for the collaborators, used to run the pipeline on concrete
    inputs: a world that replays a script of replies, a hash that keeps the
    name, a parser that cuts a document at every ["#"] and a splitter that
    cuts a section at every ["."]. *)

Module Demo.

Definition vector : Type := nat.

Inductive Reply :=
| Fail (msg : string)
| Short
| Good.

Definition W : Type := list Reply.

Definition embeddings_create (model : string) (input : list string) (w : W) :
    (Exn + EmbedResponse vector) * W :=
  match w with
  | Fail msg :: w' => (inl (Fault msg), w')
  | Short :: w' => (inr {| data := Some (map String.length (tail input)) |}, w')
  | Good :: w' => (inr {| data := Some (map String.length input) |}, w')
  | [] => (inr {| data := Some (map String.length input) |}, [])
  end.

Definition vectorDB_upsert (collection : string) (points : list (Point vector))
    (w : W) : (Exn + unit) * W :=
  match w with
  | Fail msg :: w' => (inl (Fault msg), w')
  | _ :: w' => (inr tt, w')
  | [] => (inr tt, [])
  end.

Definition v5 (name namespace : string) : string := namespace +:+ name.

(** A hash with values of 36 characters, as a UUID has: the first 36
    characters of the name, padded with zeros. *)
Definition v5_short (name namespace : string) : string :=
  String.substring 0 36 (name +:+ "000000000000000000000000000000000000").

Fixpoint split_on (sep : ascii) (s : string) : list string :=
  match s with
  | EmptyString => [EmptyString]
  | String c r =>
      if decide (c = sep) then EmptyString :: split_on sep r
      else match split_on sep r with
           | p :: ps => String c p :: ps
           | [] => [String c EmptyString]
           end
  end.

Definition markdownSections (docs : list Document) : list TextNode :=
  flat_map (fun d =>
    map (fun t => {| node_text := t;
                     node_path := Some (doc_path d);
                     node_ext := Some (doc_ext d) |})
        (tail (split_on "#" (doc_text d)))) docs.

Definition sentenceSplit (chunkSize chunkOverlap : Z) (t : string) : list string :=
  split_on "." t.

Definition headingMatch (t : string) : option string := None.
Definition toLowerCase (s : string) : string := s.
Definition removeNonWord (s : string) : string := s.

Definition chunksOf :=
  chunksOf markdownSections sentenceSplit headingMatch toLowerCase removeNonWord.

Definition main :=
  main vector W embeddings_create vectorDB_upsert markdownSections sentenceSplit
    v5 headingMatch toLowerCase removeNonWord.

Definition run :=
  run vector W embeddings_create vectorDB_upsert markdownSections sentenceSplit
    v5 headingMatch toLowerCase removeNonWord.

Definition start (w : W) : St vector W := {| world := w; log := [] |}.

Definition file (n t : string) : DirEntry :=
  {| isFile := true; name := n; content := t |}.

(** Two files: one with two headings, one whose name starts with a space. *)
Definition entries : list DirEntry :=
  [file "a.md" "intro #One. two.  #Three"; file " b.md" "#x"].

Definition texts : list string := ["a||One"; "a||two"; "a||Three"; "b||x"].

Definition four_failures : W := [Fail "e1"; Fail "e2"; Fail "e3"; Fail "e4"].

(** The provider fails once and then answers; so does the vector store. *)
Definition flaky : W := [Fail "e1"; Good; Fail "u1"].

End Demo.

(** * Properties *)

(** ** [chunkArray] *)

Section ChunkArray.

Context {T : Type}.
Implicit Types (arr : list T) (out : list (list T)) (size i : Z).

(** A slice that starts inside the array and steps forward is a prefix of
    what is left of the array. *)
Lemma slice_step arr size i :
  0 <= i -> 1 <= size ->
  slice arr i (i + size) = take (Z.to_nat size) (drop (Z.to_nat i) arr).
Proof.
  intros Hi Hs. unfold slice.
  destruct (Z.ltb_spec i 0); [lia|].
  destruct (Z.ltb_spec (i + size) 0); [lia|].
  destruct (Z.le_gt_cases (Z.of_nat (length arr)) i) as [Hge|Hlt].
  - rewrite (drop_ge arr (Z.to_nat i)) by lia.
    rewrite (drop_ge arr (Z.to_nat (Z.min i _))) by lia.
    by rewrite !take_nil.
  - rewrite (Z.min_l i) by lia.
    destruct (Z.le_gt_cases (i + size) (Z.of_nat (length arr))).
    + rewrite Z.min_l by lia. f_equal. lia.
    + rewrite Z.min_r by lia.
      rewrite !take_ge; [done| |]; rewrite length_drop; lia.
Qed.

Lemma chunkArray_loop_more fuel arr size i out r :
  chunkArray_loop fuel arr size i out = Some r ->
  chunkArray_loop (S fuel) arr size i out = Some r.
Proof.
  revert i out. induction fuel as [|fuel IH]; intros i out; [done|].
  intros H. cbn [chunkArray_loop] in H.
  change (chunkArray_loop (S (S fuel)) arr size i out) with
    (if i <? Z.of_nat (length arr)
     then chunkArray_loop (S fuel) arr size (i + size)
            (out ++ [slice arr i (i + size)])
     else Some out).
  destruct (i <? Z.of_nat (length arr)); [by apply IH | done].
Qed.

Lemma chunkArray_loop_mono fuel fuel' arr size i out r :
  (fuel <= fuel')%nat ->
  chunkArray_loop fuel arr size i out = Some r ->
  chunkArray_loop fuel' arr size i out = Some r.
Proof.
  induction 1 as [|m _ IH]; [done|].
  intros H. by apply chunkArray_loop_more, IH.
Qed.

(** For a positive step the loop exits, and what it has pushed is the rest
    of the array cut into consecutive non-empty pieces of at most [size]
    elements. *)
Lemma chunkArray_loop_partition fuel arr size i out :
  0 <= i -> 1 <= size ->
  (Z.to_nat (Z.of_nat (length arr) - i) < fuel)%nat ->
  exists bs,
    chunkArray_loop fuel arr size i out = Some (out ++ bs) /\
    concat bs = drop (Z.to_nat i) arr /\
    Forall (fun b => (1 <= length b)%nat /\ Z.of_nat (length b) <= size) bs.
Proof.
  revert i out. induction fuel as [|fuel IH]; intros i out Hi Hs Hf; [lia|].
  cbn [chunkArray_loop].
  destruct (Z.ltb_spec i (Z.of_nat (length arr))) as [Hlt|Hge].
  - destruct (IH (i + size) (out ++ [slice arr i (i + size)]))
      as (bs & Hrun & Hcat & Hall); [lia..|].
    exists (slice arr i (i + size) :: bs). split; [|split].
    + by rewrite Hrun, <- app_assoc.
    + cbn [concat]. rewrite Hcat, slice_step by lia.
      replace (Z.to_nat (i + size)) with (Z.to_nat i + Z.to_nat size)%nat by lia.
      rewrite <- drop_drop. apply take_drop.
    + constructor; [|done]. rewrite slice_step by lia.
      rewrite length_take, length_drop. lia.
  - exists []. rewrite app_nil_r, drop_ge by lia. by repeat split.
Qed.

Lemma chunkArray_partition arr size :
  1 <= size ->
  exists out,
    chunkArray arr size = Some out /\
    concat out = arr /\
    Forall (fun b => (1 <= length b)%nat /\ Z.of_nat (length b) <= size) out.
Proof.
  intros Hs.
  destruct (chunkArray_loop_partition (S (length arr)) arr size 0 [])
    as (bs & Hrun & Hcat & Hall); [lia..|].
  exists bs. by repeat split.
Qed.

(** With a step that is not positive the index never passes the end of a
    non-empty array. *)
Lemma chunkArray_loop_stuck fuel arr size i out :
  size <= 0 -> i <= 0 -> arr <> [] ->
  chunkArray_loop fuel arr size i out = None.
Proof.
  intros Hs Hi Harr. revert i out Hi.
  induction fuel as [|fuel IH]; intros i out Hi; [done|].
  cbn [chunkArray_loop].
  destruct (Z.ltb_spec i (Z.of_nat (length arr))) as [_|Hge].
  - apply IH. lia.
  - destruct arr; [done|]. cbn [length] in Hge. lia.
Qed.

End ChunkArray.

(** C10. For a batch size of at least 1, [chunkArray] terminates (any fuel
    beyond the length of the array gives the same result) and returns a
    partition of its input into consecutive non-empty batches of at most
    [size] elements, as for [EMBED_BATCH = 128] and [UPSERT_BATCH = 2000];
    for a batch size of 0 or below and a non-empty array the loop never
    exits, whatever the fuel. *)
Theorem chunkArray_terminates_iff_positive :
  (forall (T : Type) (arr : list T) (size : Z),
      1 <= size ->
      exists out,
        (forall fuel, (length arr < fuel)%nat ->
                      chunkArray_fuel fuel arr size = Some out) /\
        chunkArray arr size = Some out /\
        concat out = arr /\
        Forall (fun b => (1 <= length b)%nat /\ Z.of_nat (length b) <= size) out) /\
  1 <= EMBED_BATCH /\ 1 <= UPSERT_BATCH /\
  (forall (T : Type) (arr : list T) (size : Z) (fuel : nat),
      size <= 0 -> arr <> [] -> chunkArray_fuel fuel arr size = None).
Proof.
  split; [|split; [done|split; [done|]]].
  - intros T arr size Hs.
    destruct (chunkArray_partition arr size Hs) as (out & Hrun & Hcat & Hall).
    exists out. repeat split; try done.
    intros fuel Hf. unfold chunkArray_fuel.
    apply (chunkArray_loop_mono (S (length arr))); [lia | exact Hrun].
  - intros T arr size fuel Hs Harr. by apply chunkArray_loop_stuck.
Qed.

(** C10 at concrete inputs: five items in batches of two, and a step of
    zero. *)
Lemma chunkArray_terminates_iff_positive_witness :
  chunkArray [1; 2; 3; 4; 5]%nat 2 = Some [[1; 2]; [3; 4]; [5]]%nat /\
  chunkArray_fuel 1000 [1; 2; 3]%nat 0 = None.
Proof.
  destruct chunkArray_terminates_iff_positive as (Hpos & _ & _ & Hneg).
  split.
  - destruct (Hpos nat [1; 2; 3; 4; 5]%nat 2 ltac:(lia)) as (out & _ & Hrun & _).
    rewrite Hrun. f_equal.
    assert (Some out = Some [[1; 2]; [3; 4]; [5]]%nat) as [= ->]; [|done].
    rewrite <- Hrun. reflexivity.
  - apply (Hneg nat [1; 2; 3]%nat 0 1000%nat); [lia | done].
Defined.

(** ** Strings: trimming, separators and decimal digits *)

Section StringFacts.

Implicit Types (s a b : string) (c x : ascii).

Lemma app_cons c a b : String c a +:+ b = String c (a +:+ b).
Proof. reflexivity. Qed.

Lemma app_empty_l b : "" +:+ b = b.
Proof. reflexivity. Qed.

Lemma app_assoc_str a b s : (a +:+ b) +:+ s = a +:+ (b +:+ s).
Proof. induction a as [|c a IH]; [done|]. by rewrite !app_cons, IH. Qed.

Lemma app_nonempty a c b : a +:+ String c b <> "".
Proof. by destruct a. Qed.

Lemma trimStart_app a c b :
  Str.is_ws c = false -> Str.trimStart (a +:+ String c b) = Str.trimStart a +:+ String c b.
Proof.
  intros Hc. induction a as [|x a IH].
  - rewrite !app_empty_l. cbn [Str.trimStart]. by rewrite Hc.
  - rewrite app_cons. cbn [Str.trimStart].
    destruct (Str.is_ws x); [done|]. by rewrite app_cons.
Qed.

Lemma trimEnd_app a b :
  Str.trimEnd b <> "" -> Str.trimEnd (a +:+ b) = a +:+ Str.trimEnd b.
Proof.
  intros Hb. induction a as [|x a IH]; [done|].
  rewrite !app_cons. cbn [Str.trimEnd]. rewrite IH.
  destruct (a +:+ Str.trimEnd b) eqn:E; [|done].
  destruct a; [|done]. by rewrite app_empty_l in E.
Qed.

Lemma trimEnd_cons_nonws c b :
  Str.is_ws c = false -> Str.trimEnd (String c b) = String c (Str.trimEnd b).
Proof. intros Hc. cbn [Str.trimEnd]. destruct (Str.trimEnd b); by rewrite ?Hc. Qed.

Lemma trimEnd_idem s : Str.trimEnd (Str.trimEnd s) = Str.trimEnd s.
Proof.
  induction s as [|c s IH]; [done|].
  cbn [Str.trimEnd]. destruct (Str.trimEnd s) as [|d r] eqn:E.
  - destruct (Str.is_ws c) eqn:Hc; [done|]. cbn [Str.trimEnd]. by rewrite Hc.
  - change (Str.trimEnd (String c (String d r))) with
      (match Str.trimEnd (String d r) with
       | "" => if Str.is_ws c then "" else String c ""
       | r' => String c r'
       end).
    by rewrite IH.
Qed.

Lemma trimEnd_last s c : Str.last (Str.trimEnd s) = Some c -> Str.is_ws c = false.
Proof.
  induction s as [|x s IH]; [done|].
  cbn [Str.trimEnd]. destruct (Str.trimEnd s) as [|d r] eqn:E.
  - destruct (Str.is_ws x) eqn:Hx; [done|]. cbn. by intros [= <-].
  - intros H. apply IH. exact H.
Qed.

Lemma trimEnd_first s c :
  Str.first (Str.trimEnd s) = Some c -> Str.first s = Some c.
Proof.
  destruct s as [|x s]; [done|].
  cbn [Str.trimEnd]. destruct (Str.trimEnd s); [|done].
  by destruct (Str.is_ws x).
Qed.

Lemma trimStart_first s c :
  Str.first (Str.trimStart s) = Some c -> Str.is_ws c = false.
Proof.
  induction s as [|x s IH]; [done|].
  cbn [Str.trimStart]. destruct (Str.is_ws x) eqn:Hx; [done|].
  cbn. by intros [= <-].
Qed.

Lemma trimStart_id s :
  (forall c, Str.first s = Some c -> Str.is_ws c = false) -> Str.trimStart s = s.
Proof.
  destruct s as [|x s]; [done|]. intros H. cbn [Str.trimStart].
  by rewrite (H x).
Qed.

Lemma trim_stripped s : Str.stripped (Str.trim s).
Proof.
  split; intros c H.
  - by apply (trimStart_first s), trimEnd_first.
  - by apply (trimEnd_last (Str.trimStart s)).
Qed.

Lemma trim_idem s : Str.trim (Str.trim s) = Str.trim s.
Proof.
  unfold Str.trim at 1. rewrite trimStart_id by apply trim_stripped.
  apply trimEnd_idem.
Qed.

(** A stripped, non-empty string has a character that is not white space. *)
Lemma stripped_not_all_ws s : s <> "" -> Str.stripped s -> Str.all_ws s = false.
Proof.
  destruct s as [|c s]; [done|]. intros _ [H _]. cbn.
  by rewrite (H c).
Qed.

(** Trimming around a separator that is not white space. *)
Lemma trim_around a c b :
  Str.is_ws c = false ->
  Str.trim (a +:+ String c b) = Str.trimStart a +:+ Str.trimEnd (String c b).
Proof.
  intros Hc. unfold Str.trim. rewrite trimStart_app by done.
  apply trimEnd_app. by rewrite trimEnd_cons_nonws.
Qed.

(** The part after the last occurrence of a separator is determined. *)
Lemma app_sep_inj x a1 b1 a2 b2 :
  Str.occurs x b1 = false -> Str.occurs x b2 = false ->
  a1 +:+ String x b1 = a2 +:+ String x b2 -> a1 = a2 /\ b1 = b2.
Proof.
  intros H1 H2. revert a2.
  assert (Hocc : forall a b, Str.occurs x (a +:+ String x b) = true).
  { intros a b. induction a as [|c a IH].
    - rewrite app_empty_l. cbn [Str.occurs]. by destruct (decide (x = x)).
    - rewrite app_cons. cbn [Str.occurs]. by destruct (decide (c = x)). }
  induction a1 as [|c a1 IH]; intros [|d a2]; rewrite ?app_cons, ?app_empty_l.
  - by intros [= ->].
  - intros [= <- ->]. by rewrite Hocc in H1.
  - intros [= -> <-]. by rewrite Hocc in H2.
  - intros [= -> E]. destruct (IH _ E) as [-> ->]. done.
Qed.

Lemma occurs_app x a b :
  Str.occurs x (a +:+ b) = Str.occurs x a || Str.occurs x b.
Proof.
  induction a as [|c a IH]; [done|].
  rewrite app_cons. cbn [Str.occurs]. by destruct (decide (c = x)).
Qed.

(** Decimal digits hold neither a bar nor a letter. *)
Lemma of_nat_no_bar n : Str.occurs "|" (Str.of_nat n) = false.
Proof.
  unfold Str.of_nat. generalize (Nat.to_uint n). intros d.
  induction d; cbn; by rewrite ?IHd.
Qed.

Lemma of_nat_inj n m : Str.of_nat n = Str.of_nat m -> n = m.
Proof.
  unfold Str.of_nat. intros H.
  apply Unsigned.to_uint_inj.
  assert (Some (Nat.to_uint n) = Some (Nat.to_uint m)) as [= E]; [|done].
  by rewrite <- !NilEmpty.usu, H.
Qed.

End StringFacts.

(** ** Identifiers *)

Section IdentifierFacts.

Variable v5 : string -> string -> string.

(** The canonical name determines the position it was built from. *)
Lemma canonical_name_inj p1 s1 c1 p2 s2 c2 :
  p1 +:+ "|s" +:+ Str.of_nat s1 +:+ "|c" +:+ Str.of_nat c1 =
  p2 +:+ "|s" +:+ Str.of_nat s2 +:+ "|c" +:+ Str.of_nat c2 ->
  p1 = p2 /\ s1 = s2 /\ c1 = c2.
Proof.
  assert (Hshape : forall p s c,
    p +:+ "|s" +:+ Str.of_nat s +:+ "|c" +:+ Str.of_nat c =
    (p +:+ String "|" (String "s" (Str.of_nat s)))
      +:+ String "|" (String "c" (Str.of_nat c))).
  { intros p s c. rewrite app_assoc_str.
    change (String "|" (String "s" (Str.of_nat s)) +:+
            String "|" (String "c" (Str.of_nat c)))
      with ("|s" +:+ Str.of_nat s +:+ "|c" +:+ Str.of_nat c).
    done. }
  rewrite !Hshape. intros E.
  apply app_sep_inj in E as [E1 E2];
    [|cbn [Str.occurs]; rewrite decide_False by done; apply of_nat_no_bar..].
  apply app_sep_inj in E1 as [-> E1];
    [|cbn [Str.occurs]; rewrite decide_False by done; apply of_nat_no_bar..].
  injection E1 as E1. injection E2 as E2.
  by rewrite (of_nat_inj _ _ E1), (of_nat_inj _ _ E2).
Qed.

Lemma stableId_same_position p q :
  id_path p = id_path q ->
  id_sectionIndex p = id_sectionIndex q ->
  id_chunkIndex p = id_chunkIndex q ->
  stableId v5 p = stableId v5 q.
Proof. unfold stableId. by intros -> -> ->. Qed.

End IdentifierFacts.

(** *** Identifiers of 36 characters *)

Lemma all_chars_complete (c : ascii) : c ∈ all_chars.
Proof.
  unfold all_chars. apply list_elem_of_fmap. exists (nat_of_ascii c).
  split; [by rewrite ascii_nat_embedding|].
  apply elem_of_seq. pose proof (nat_ascii_bounded c). lia.
Qed.

Lemma strings_of_length_complete s : s ∈ strings_of_length (String.length s).
Proof.
  induction s as [|c s IH]; [by left|].
  cbn [String.length strings_of_length].
  apply list_elem_of_In, in_flat_map. exists c.
  split; [apply list_elem_of_In, all_chars_complete|].
  apply list_elem_of_In, list_elem_of_fmap. by exists s.
Qed.

(** A sequence of values taken from a finite list repeats itself. *)
Lemma sequence_repeats {A} (f : nat -> A) (l : list A) :
  (forall n, f n ∈ l) ->
  exists i j, (i < j)%nat /\ f i = f j.
Proof.
  intros Hin.
  destruct (list_pigeonhole (map f (seq 0 (S (length l)))) l) as (i & j & x & Hij & Hi & Hj).
  - intros x (n & -> & _)%list_elem_of_fmap. apply Hin.
  - rewrite length_map, length_seq. lia.
  - rewrite list_lookup_fmap in Hi, Hj.
    destruct (seq 0 (S (length l)) !! i) as [i'|] eqn:Ei; [|done].
    destruct (seq 0 (S (length l)) !! j) as [j'|] eqn:Ej; [|done].
    apply lookup_seq in Ei as [-> _]. apply lookup_seq in Ej as [-> _].
    cbn in Hi, Hj. exists i, j. split; [done|]. congruence.
Qed.

Lemma numbered_file_triple txt n m :
  triple (numbered_file txt n) = triple (numbered_file txt m) -> n = m.
Proof.
  unfold triple, numbered_file. cbn. intros [= E].
  apply (app_sep_inj "." _ "md" _ "md") in E as [E _]; [|done..].
  by apply of_nat_inj.
Qed.

(** Whatever function with values of 36 characters stands for [v5], the
    first chunks of two differently numbered files get the same id. *)
Lemma stableId_collides v5 txt :
  uuid_valued v5 ->
  exists n m,
    triple (numbered_file txt n) <> triple (numbered_file txt m) /\
    stableId v5 (numbered_file txt n) = stableId v5 (numbered_file txt m).
Proof.
  intros Hlen.
  destruct (sequence_repeats (fun n => stableId v5 (numbered_file txt n))
              (strings_of_length 36)) as (n & m & Hnm & E).
  - intros n. unfold stableId. rewrite <- (Hlen (hashed_name (numbered_file txt n)) BASE_NS).
    apply strings_of_length_complete.
  - exists n, m. split; [|done]. intros Ht%numbered_file_triple. lia.
Qed.

(** C1 (amended). The identifier is the hash, under the fixed namespace, of
    the name [path|sN|cM] built from [(path, sectionIndex, chunkIndex)]
    alone: payloads with the same triple get the same id whatever their
    text.  The name determines the triple, so payloads with different
    triples are hashed from different names, also when their text is the
    same: they get different ids unless [v5] maps these two names to the
    same UUID, and two different triples with the same id are a collision
    of [v5] in the namespace.  Every point of [allPoints] takes its id from
    the triple of its own payload. *)
Theorem stableId_determined_by_position (v5 : string -> string -> string) :
  (forall p q, triple p = triple q -> stableId v5 p = stableId v5 q) /\
  (forall p, stableId v5 p = v5 (hashed_name p) BASE_NS) /\
  (forall p q, hashed_name p = hashed_name q <-> triple p = triple q) /\
  (forall p q,
      id_text p = id_text q ->
      triple p <> triple q ->
      hashed_name p <> hashed_name q /\
      (v5 (hashed_name p) BASE_NS <> v5 (hashed_name q) BASE_NS ->
       stableId v5 p <> stableId v5 q) /\
      (stableId v5 p = stableId v5 q ->
       exists a b, a <> b /\ v5 a BASE_NS = v5 b BASE_NS)) /\
  (forall (vector : Type) chunks (vectors : list vector) pt,
      pt ∈ allPoints vector v5 chunks vectors ->
      forall txt,
        id pt = stableId v5 {| id_path := path (payload pt);
                               id_sectionIndex := sectionIndex (payload pt);
                               id_chunkIndex := chunkIndex (payload pt);
                               id_text := txt |}).
Proof.
  assert (Hname : forall p q, hashed_name p = hashed_name q -> triple p = triple q).
  { intros p q E. unfold triple.
    by apply canonical_name_inj in E as (-> & -> & ->). }
  split; [|split; [|split; [|split]]].
  - intros p q [= E1 E2 E3]. by apply stableId_same_position.
  - done.
  - intros p q. split; [apply Hname|].
    unfold hashed_name. by intros [= -> -> ->].
  - intros p q _ Hne.
    assert (Hn : hashed_name p <> hashed_name q) by (by intros E%Hname).
    split; [done|]. split; [done|].
    intros E. by exists (hashed_name p), (hashed_name q).
  - intros vector chunks vectors pt Hin txt.
    apply list_elem_of_lookup in Hin as [i Hi].
    unfold allPoints in Hi. rewrite list_lookup_imap in Hi.
    destruct (chunks !! i) as [c|]; [|done].
    by injection Hi as <-.
Qed.

(** C1 (amended) at concrete inputs, with a hash of 36 characters: the
    same text at position 1.1 of two files, and two wordings at one
    position. *)
Lemma stableId_determined_by_position_witness :
  stableId Demo.v5_short {| id_path := "a.md"; id_sectionIndex := 1; id_chunkIndex := 1;
                            id_text := "same" |} <>
  stableId Demo.v5_short {| id_path := "b.md"; id_sectionIndex := 1; id_chunkIndex := 1;
                            id_text := "same" |} /\
  stableId Demo.v5_short {| id_path := "a.md"; id_sectionIndex := 1; id_chunkIndex := 1;
                            id_text := "old wording" |} =
  stableId Demo.v5_short {| id_path := "a.md"; id_sectionIndex := 1; id_chunkIndex := 1;
                            id_text := "new wording" |}.
Proof.
  destruct (stableId_determined_by_position Demo.v5_short) as (Hsame & _ & _ & Hdiff & _).
  split.
  - apply Hdiff; [reflexivity|discriminate|].
    vm_compute. discriminate.
  - apply Hsame. reflexivity.
Defined.

(** C1 as stated fails: an id is a UUID of 36 characters and there are more
    triples than that, so no [v5] gives different ids to all chunks with
    the same text and different triples.  Among the first chunks of the
    files [0.md], [1.md], [2.md], ... two get the same id. *)
Lemma stableId_distinct_ids_counterexample :
  ~ exists v5 : string -> string -> string,
      uuid_valued v5 /\
      forall p q,
        id_text p = id_text q ->
        triple p <> triple q ->
        stableId v5 p <> stableId v5 q.
Proof.
  intros (v5 & Hlen & Hclaim).
  destruct (stableId_collides v5 "same" Hlen) as (n & m & Hne & E).
  by apply (Hclaim (numbered_file "same" n) (numbered_file "same" m)).
Qed.


(** ** The section loop *)

Section Chunking.

Variable markdownSections : list Document -> list TextNode.
Variable sentenceSplit : Z -> Z -> string -> list string.
Variable headingMatch : string -> option string.
Variable toLowerCase : string -> string.
Variable removeNonWord : string -> string.

Local Abbreviation splitSection :=
  (splitSection sentenceSplit CHUNK_SIZE CHUNK_OVERLAP).
Local Abbreviation sectionsLoop :=
  (sectionsLoop sentenceSplit headingMatch toLowerCase removeNonWord).
Local Abbreviation chunksOf :=
  (chunksOf markdownSections sentenceSplit headingMatch toLowerCase removeNonWord).
Local Abbreviation filePathOf sec := (default "unknown.md" (node_path sec)).
Local Abbreviation section_group := (section_group sentenceSplit).
Local Abbreviation kept sec :=
  (length (filter (fun t => Str.all_ws t = false)
             (sentenceSplit CHUNK_SIZE CHUNK_OVERLAP (node_text sec)))).

Lemma length_app_pos a c b : (0 <? String.length (a +:+ String c b))%nat = true.
Proof.
  apply Nat.ltb_lt. destruct a; rewrite ?app_empty_l, ?app_cons; cbn; lia.
Qed.

(** What line 114 to 126 leave in [c.text]: the separator survives the
    trimming, which can only eat white space of the file name and of the
    raw text. *)
Lemma chunk_text_shape fileName raw :
  Str.trim (fileName +:+ "||" +:+ raw) =
  Str.trimStart fileName +:+ "||" +:+ Str.trimEnd raw.
Proof.
  change (fileName +:+ "||" +:+ raw) with (fileName +:+ String "|" (String "|" raw)).
  rewrite trim_around by done. by rewrite !trimEnd_cons_nonws.
Qed.

Lemma chunk_text_pushed fileName raw :
  (0 <? String.length (Str.trim (fileName +:+ "||" +:+ raw)))%nat = true.
Proof.
  rewrite chunk_text_shape.
  change ("||" +:+ Str.trimEnd raw) with (String "|" (String "|" (Str.trimEnd raw))).
  apply length_app_pos.
Qed.

(** The inner loop appends one chunk per part, numbered from the counter
    on, and drops none. *)
Lemma partsLoop_spec parts fp fn st sa si k chunks :
  exists new,
    partsLoop parts fp fn st sa si k chunks = chunks ++ new /\
    map chunkIndex new = seq (S k) (length parts) /\
    Forall2 (fun part c =>
      text c = Str.trim (fn +:+ "||" +:+ Str.trim (node_text part)) /\
      path c = fp /\ fileName c = fn /\ sectionTitle c = st /\
      sectionAnchor c = sa /\ sectionIndex c = si /\ source c = "kb" /\
      ext c = node_ext part) parts new.
Proof.
  revert k chunks. induction parts as [|c rest IH]; intros k chunks.
  - exists []. by rewrite app_nil_r.
  - cbn [partsLoop]. rewrite chunk_text_pushed.
    destruct (IH (k + 1)%nat (chunks ++ [
      {| text := Str.trim (fn +:+ "||" +:+ Str.trim (node_text c));
         path := fp; fileName := fn; sectionTitle := st; sectionAnchor := sa;
         sectionIndex := si; chunkIndex := (k + 1)%nat; source := "kb";
         ext := node_ext c |}])) as (new & Hrun & Hidx & Hall).
    eexists (_ :: new). split; [|split].
    + rewrite Hrun, <- app_assoc. reflexivity.
    + cbn. rewrite Hidx. f_equal; [lia|]. f_equal. lia.
    + constructor; [|done]. by repeat split.
Qed.

(** The parts of a section are the trimmed outputs of the splitter that are
    not empty, in split order. *)
Lemma splitSection_texts sec :
  map node_text (splitSection sec) =
  filter (fun t => (0 < String.length t)%nat)
    (map Str.trim (sentenceSplit CHUNK_SIZE CHUNK_OVERLAP (node_text sec))).
Proof.
  unfold splitSection.
  induction (sentenceSplit CHUNK_SIZE CHUNK_OVERLAP (node_text sec)) as [|t ts IH];
    [done|].
  cbn [map]. rewrite !filter_cons. cbn [node_text].
  destruct (decide (0 < String.length (Str.trim t))%nat); [|done].
  cbn [map node_text]. by rewrite IH.
Qed.

Lemma splitSection_part sec part :
  part ∈ splitSection sec ->
  (0 < String.length (node_text part))%nat /\
  Str.trim (node_text part) = node_text part /\
  node_ext part = node_ext sec.
Proof.
  unfold splitSection. intros [Hlen Hin]%list_elem_of_filter.
  split; [done|].
  apply list_elem_of_fmap in Hin as (n & -> & Hin).
  apply list_elem_of_fmap in Hin as (t & -> & Hin).
  cbn. split; [apply trim_idem | done].
Qed.

Lemma sectionsLoop_spec secs (m : gmap string nat) chunks :
  exists groups,
    sectionsLoop secs m chunks = chunks ++ concat groups /\
    length groups = length secs /\
    forall k sec g,
      secs !! k = Some sec -> groups !! k = Some g ->
      section_group sec
        (default 0 (m !! filePathOf sec) + S (same_file_count sec (take k secs)))%nat g.
Proof.
  revert m chunks. induction secs as [|sec rest IH]; intros m chunks.
  - exists []. rewrite app_nil_r. by repeat split.
  - cbn [sectionsLoop].
    set (fp := filePathOf sec).
    set (si := (default 0 (m !! fp) + 1)%nat).
    destruct (partsLoop_spec (splitSection sec) fp (Path.name fp)
                (inferSectionTitle headingMatch (node_text sec) fp)
                (slugify toLowerCase removeNonWord
                   (inferSectionTitle headingMatch (node_text sec) fp))
                si 0 chunks) as (new & -> & Hidx & Hall).
    destruct (IH (<[fp:=si]> m) (chunks ++ new)) as (groups & -> & Hlen & Hgroups).
    exists (new :: groups). split; [|split].
    + by rewrite <- app_assoc.
    + cbn. by rewrite Hlen.
    + intros [|k] sec' g Hsec Hg; cbn in Hsec, Hg.
      * injection Hsec as <-. injection Hg as <-.
        unfold same_file_count. cbn [take filter length].
        replace (default 0 (m !! fp) + 1)%nat with si by done.
        split; [done|].
        eapply Forall2_impl; [exact Hall|].
        intros part c (? & ? & ? & _ & _ & ? & ? & ?). by repeat split.
      * specialize (Hgroups k sec' g Hsec Hg).
        rewrite lookup_insert in Hgroups.
        unfold same_file_count in *. cbn [take]. rewrite filter_cons.
        fold fp. destruct (decide (fp = filePathOf sec')) as [E|NE].
        -- change (default 0%nat (Some si)) with si in Hgroups.
           cbn [length]. unfold si in Hgroups. rewrite E in Hgroups.
           match goal with
           | H : section_group _ ?x _ |- section_group _ ?y _ =>
               replace y with x by lia
           end. done.
        -- done.
Qed.

Lemma trimStart_empty s : Str.trimStart s = "" <-> Str.all_ws s = true.
Proof.
  induction s as [|c s IH]; [done|]. cbn.
  destruct (Str.is_ws c); [done|]. split; discriminate.
Qed.

Lemma trimEnd_empty s : Str.trimEnd s = "" -> Str.all_ws s = true.
Proof.
  induction s as [|c s IH]; [done|]. cbn.
  destruct (Str.trimEnd s); [|discriminate].
  destruct (Str.is_ws c); [auto | discriminate].
Qed.

(** Trimming leaves nothing exactly of the strings made of white space. *)
Lemma trim_empty s : Str.trim s = "" <-> Str.all_ws s = true.
Proof.
  unfold Str.trim. split.
  - intros H%trimEnd_empty. apply trimStart_empty.
    destruct (Str.trimStart s) as [|c r] eqn:E; [done|].
    cbn in H. rewrite (trimStart_first s c) in H; [done|]. by rewrite E.
  - intros H%trimStart_empty. by rewrite H.
Qed.

Lemma length_pos_nonempty s : (0 < String.length s)%nat <-> s <> "".
Proof. destruct s; cbn; split; (done || lia). Qed.

Lemma chunksOf_spec docs :
  exists groups,
    chunksOf docs = concat groups /\
    length groups = length (markdownSections docs) /\
    forall k sec g,
      markdownSections docs !! k = Some sec -> groups !! k = Some g ->
      section_group sec (S (same_file_count sec (take k (markdownSections docs)))) g.
Proof.
  destruct (sectionsLoop_spec (markdownSections docs) ∅ []) as (groups & H & Hlen & Hg).
  exists groups. split; [exact H|]. split; [done|].
  intros k sec g Hsec Hgk. specialize (Hg k sec g Hsec Hgk).
  by rewrite lookup_empty in Hg.
Qed.

Lemma Forall2_map_eq {A B C} (f : A -> C) (h : B -> C) l k :
  Forall2 (fun a b => h b = f a) l k -> map h k = map f l.
Proof. induction 1 as [|a b l k E _ IH]; [done|]. cbn. by rewrite E, IH. Qed.

(** The texts of a section's chunks, from the surviving pieces of the
    splitter. *)
Lemma section_group_texts sec si g :
  section_group sec si g ->
  map text g =
  map (fun t => Str.trimStart (Path.name (filePathOf sec)) +:+ "||" +:+ t)
    (filter (fun t => (0 < String.length t)%nat)
       (map Str.trim (sentenceSplit CHUNK_SIZE CHUNK_OVERLAP (node_text sec)))).
Proof.
  intros [_ Hall]. rewrite <- splitSection_texts, map_map.
  apply Forall2_map_eq.
  apply Forall2_same_length_lookup.
  apply Forall2_same_length_lookup in Hall as [Hlen Hall]. split; [done|].
  intros i part c Hp Hc. destruct (Hall i part c Hp Hc) as (Ht & _).
  assert (Hin : part ∈ splitSection sec) by (by eapply list_elem_of_lookup_2).
  destruct (splitSection_part sec part Hin) as (_ & Htrim & _).
  rewrite Ht, Htrim, chunk_text_shape. do 2 f_equal.
  rewrite <- Htrim. unfold Str.trim. apply trimEnd_idem.
Qed.

(** Pieces survive exactly when they are not made of white space only. *)
Lemma survivors_length (pieces : list string) :
  length (filter (fun t => (0 < String.length t)%nat) (map Str.trim pieces)) =
  length (filter (fun t => Str.all_ws t = false) pieces).
Proof.
  induction pieces as [|t ts IH]; [done|].
  cbn [map]. rewrite !filter_cons.
  destruct (decide (0 < String.length (Str.trim t))%nat) as [H|H];
    destruct (decide (Str.all_ws t = false)) as [H'|H']; cbn [length];
    rewrite ?IH; try done; exfalso.
  - apply length_pos_nonempty in H. apply H, trim_empty.
    by destruct (Str.all_ws t).
  - apply H, length_pos_nonempty. intros E%trim_empty. congruence.
Qed.

(** Every chunk text is non-empty, is not white space only, and neither
    starts nor ends with white space. *)
Lemma chunksOf_text_stripped docs c :
  c ∈ chunksOf docs ->
  text c <> "" /\ Str.all_ws (text c) = false /\ Str.stripped (text c).
Proof.
  destruct (chunksOf_spec docs) as (groups & -> & Hlen & Hg).
  intros (g & Hgin & Hc)%list_elem_of_In%in_concat.
  apply list_elem_of_In, list_elem_of_lookup in Hgin as [k Hk].
  apply list_elem_of_In in Hc.
  destruct (lookup_lt_is_Some_2 (markdownSections docs) k) as [sec Hsec].
  { rewrite <- Hlen. by eapply lookup_lt_Some. }
  destruct (Hg k sec g Hsec Hk) as [_ Hall].
  apply list_elem_of_lookup in Hc as [j Hj].
  destruct (Forall2_lookup_r _ _ _ _ _ Hall Hj) as (part & _ & Ht & _).
  assert (Hne : text c <> "").
  { rewrite Ht. apply length_pos_nonempty, Nat.ltb_lt, chunk_text_pushed. }
  assert (Hst : Str.stripped (text c)) by (rewrite Ht; apply trim_stripped).
  split; [done|]. split; [|done]. by apply stripped_not_all_ws.
Qed.

Lemma section_group_position sec si g :
  section_group sec si g ->
  Forall (fun c => path c = filePathOf sec /\ sectionIndex c = si) g /\
  map chunkIndex g = seq 1 (length g).
Proof.
  intros [Hidx Hall]. split.
  - apply Forall_forall. intros c [j Hj]%list_elem_of_lookup.
    destruct (Forall2_lookup_r _ _ _ _ _ Hall Hj) as (part & _ & _ & ? & _ & ? & _).
    done.
  - by rewrite Hidx, (Forall2_length _ _ _ Hall).
Qed.

Lemma section_group_file sec si g :
  section_group sec si g -> Forall (fun c => fileName c = Path.name (filePathOf sec)) g.
Proof.
  intros [_ Hall]. apply Forall_forall. intros c [j Hj]%list_elem_of_lookup.
  by destruct (Forall2_lookup_r _ _ _ _ _ Hall Hj) as (part & _ & _ & _ & ? & _).
Qed.

(** C3. The chunks of the run come section by section; within a section the
    [chunkIndex] values are exactly 1..N in split order, N being the number
    of pieces of the splitter that are not empty or white space only, and
    the chunks are built from exactly those pieces, trimmed: the others are
    dropped before the counter runs. *)
Theorem chunkIndex_contiguous_per_section docs :
  exists groups,
    chunksOf docs = concat groups /\
    Forall2 (fun sec g =>
      let pieces := sentenceSplit CHUNK_SIZE CHUNK_OVERLAP (node_text sec) in
      map chunkIndex g =
        seq 1 (length (filter (fun t => Str.all_ws t = false) pieces)) /\
      map text g =
        map (fun t => Str.trimStart (Path.name (filePathOf sec)) +:+ "||" +:+ t)
          (filter (fun t => (0 < String.length t)%nat) (map Str.trim pieces)) /\
      exists si, Forall (fun c => path c = filePathOf sec /\ sectionIndex c = si) g)
      (markdownSections docs) groups.
Proof.
  destruct (chunksOf_spec docs) as (groups & Hrun & Hlen & Hg).
  exists groups. split; [done|].
  apply Forall2_same_length_lookup_2; [done|].
  intros k sec g Hsec Hgk. specialize (Hg k sec g Hsec Hgk).
  cbn zeta. split; [|split].
  - destruct Hg as [-> _]. f_equal.
    rewrite <- survivors_length, <- splitSection_texts. by rewrite length_map.
  - by eapply section_group_texts.
  - eexists. by eapply section_group_position.
Qed.

Lemma Forall_map_replicate {A B} (f : A -> B) (v : B) (l : list A) :
  Forall (fun a => f a = v) l -> map f l = replicate (length l) v.
Proof. induction 1 as [|a l E _ IH]; [done|]. cbn. by rewrite E, IH. Qed.

(** The chunks of a section, counted: as many as the splitter returned
    pieces that are not white space only, all at the section's path and
    number, indexed from 1. *)
Lemma section_group_indices sec si g :
  section_group sec si g ->
  length g = kept sec /\
  map path g = replicate (kept sec) (filePathOf sec) /\
  map sectionIndex g = replicate (kept sec) si /\
  map chunkIndex g = seq 1 (kept sec).
Proof.
  intros Hg. destruct (section_group_position _ _ _ Hg) as [Hall Hidx].
  assert (Hlen : length g = kept sec).
  { destruct Hg as [_ Hparts]. rewrite <- (Forall2_length _ _ _ Hparts).
    rewrite <- survivors_length, <- splitSection_texts. by rewrite length_map. }
  split; [done|]. rewrite <- Hlen. repeat split; [| |done].
  - apply Forall_map_replicate. eapply Forall_impl; [exact Hall|]. by intros c [? _].
  - apply Forall_map_replicate. eapply Forall_impl; [exact Hall|]. by intros c [_ ?].
Qed.

(** C8. The section loop numbers the sections of each file from 1.  The
    chunks come section by section; the section at position [k] of the
    parser's output yields one chunk per piece of the splitter that is not
    white space only, each at the section's path and carrying one more than
    the number of earlier sections with the same path, with a [chunkIndex]
    sequence of their own from 1.  For two sections of one file the
    [sectionIndex] values of the run are 1 for every chunk of the first and
    2 for every chunk of the second, the [chunkIndex] values are 1..n1
    followed by 1..n2, and when both sections have a piece that is not
    blank, chunks numbered 1.1 and 2.1 are produced. *)
Theorem sectionIndex_restarts_per_file docs :
  exists groups,
    chunksOf docs = concat groups /\
    length groups = length (markdownSections docs) /\
    (forall k sec g,
        markdownSections docs !! k = Some sec -> groups !! k = Some g ->
        map path g = replicate (kept sec) (filePathOf sec) /\
        map sectionIndex g =
          replicate (kept sec) (S (same_file_count sec (take k (markdownSections docs)))) /\
        map chunkIndex g = seq 1 (kept sec)) /\
    (forall s1 s2,
        markdownSections docs = [s1; s2] -> filePathOf s1 = filePathOf s2 ->
        map sectionIndex (chunksOf docs) =
          replicate (kept s1) 1%nat ++ replicate (kept s2) 2%nat /\
        map chunkIndex (chunksOf docs) = seq 1 (kept s1) ++ seq 1 (kept s2) /\
        ((0 < kept s1)%nat -> (0 < kept s2)%nat ->
         exists c1 c2,
           c1 ∈ chunksOf docs /\ c2 ∈ chunksOf docs /\
           (sectionIndex c1, chunkIndex c1) = (1, 1)%nat /\
           (sectionIndex c2, chunkIndex c2) = (2, 1)%nat)).
Proof.
  destruct (chunksOf_spec docs) as (groups & Hrun & Hlen & Hg).
  exists groups. split; [done|]. split; [done|]. split.
  - intros k sec g Hsec Hgk.
    by destruct (section_group_indices _ _ _ (Hg k sec g Hsec Hgk)) as (_ & ? & ? & ?).
  - intros s1 s2 Hsecs Hpath. rewrite Hsecs in Hlen, Hg.
    destruct groups as [|g1 [|g2 [|]]]; try done.
    destruct (section_group_indices _ _ _ (Hg 0%nat s1 g1 eq_refl eq_refl))
      as (L1 & _ & S1 & I1).
    destruct (section_group_indices _ _ _ (Hg 1%nat s2 g2 eq_refl eq_refl))
      as (L2 & _ & S2 & I2).
    assert (Hcount : same_file_count s2 (take 1 [s1; s2]) = 1%nat).
    { unfold same_file_count. cbn [take]. rewrite filter_cons, decide_True by done.
      by rewrite filter_nil. }
    rewrite Hcount in S2. cbn [take same_file_count] in S1.
    change (same_file_count s1 []) with 0%nat in S1.
    rewrite Hrun. cbn [concat]. rewrite app_nil_r, !map_app, S1, S2, I1, I2.
    split; [done|]. split; [done|].
    intros H1 H2.
    destruct g1 as [|c1 g1]; [cbn in L1; lia|].
    destruct g2 as [|c2 g2]; [cbn in L2; lia|].
    destruct (kept s1) as [|n1]; [lia|]. destruct (kept s2) as [|n2]; [lia|].
    injection S1 as S1 _. injection S2 as S2 _.
    injection I1 as I1 _. injection I2 as I2 _.
    exists c1, c2. split; [by left|].
    split; [apply elem_of_app; right; by left|].
    by rewrite S1, S2, I1, I2.
Qed.

(** The chunks of a section against the surviving pieces of the splitter,
    which are trimmed already. *)
Lemma section_group_survivors sec si g :
  section_group sec si g ->
  Forall2 (fun t c =>
    t = Str.trim t /\
    fileName c = Path.name (filePathOf sec) /\
    text c = Str.trim (fileName c +:+ "||" +:+ t))
    (filter (fun t => (0 < String.length t)%nat)
       (map Str.trim (sentenceSplit CHUNK_SIZE CHUNK_OVERLAP (node_text sec)))) g.
Proof.
  intros [_ Hall]. rewrite <- splitSection_texts.
  apply Forall2_fmap_l.
  apply Forall2_same_length_lookup.
  apply Forall2_same_length_lookup in Hall as [Hlen Hall]. split; [done|].
  intros i part c Hp Hc. destruct (Hall i part c Hp Hc) as (Ht & _ & Hf & _).
  assert (Hin : part ∈ splitSection sec) by (by eapply list_elem_of_lookup_2).
  destruct (splitSection_part sec part Hin) as (_ & Htrim & _).
  cbn beta. split; [done|]. split; [done|]. by rewrite Hf, Ht, Htrim.
Qed.

(** C9 (amended). The text of a chunk is the trimmed concatenation of the
    file's base name, ["||"] and the trimmed raw piece: the base name without
    its leading white space, then ["||"], then the piece.  When the base name
    does not start with white space this is the base name itself followed by
    ["||"] and the piece.  The payload of every point is its chunk. *)
Theorem chunk_text_is_trimmed_prefix docs :
  (exists groups,
     chunksOf docs = concat groups /\
     Forall2 (fun sec g =>
       Forall2 (fun t c =>
         fileName c = Path.name (filePathOf sec) /\
         text c = Str.trim (fileName c +:+ "||" +:+ t) /\
         text c = Str.trimStart (fileName c) +:+ "||" +:+ t /\
         ((forall ch, Str.first (fileName c) = Some ch -> Str.is_ws ch = false) ->
          text c = fileName c +:+ "||" +:+ t))
         (filter (fun t => (0 < String.length t)%nat)
            (map Str.trim (sentenceSplit CHUNK_SIZE CHUNK_OVERLAP (node_text sec)))) g)
       (markdownSections docs) groups) /\
  (forall (vector : Type) v5 (vectors : list vector),
      map payload (allPoints vector v5 (chunksOf docs) vectors) = chunksOf docs).
Proof.
  split.
  - destruct (chunksOf_spec docs) as (groups & Hrun & Hlen & Hg).
    exists groups. split; [done|].
    apply Forall2_same_length_lookup_2; [done|].
    intros k sec g Hsec Hgk. specialize (Hg k sec g Hsec Hgk).
    eapply Forall2_impl; [by eapply section_group_survivors|].
    intros t c (Htrim & Hf & Ht). rewrite Hf, <- Hf. split; [done|]. split; [done|].
    assert (Hshape : text c = Str.trimStart (fileName c) +:+ "||" +:+ t).
    { rewrite Ht, chunk_text_shape. do 2 f_equal.
      rewrite Htrim. unfold Str.trim. apply trimEnd_idem. }
    split; [done|]. intros Hws. by rewrite Hshape, trimStart_id.
  - intros vector v5 vectors. apply list_eq. intros i.
    unfold allPoints. rewrite list_lookup_fmap, list_lookup_imap.
    by destruct (chunksOf docs !! i).
Qed.

End Chunking.

(** ** Running the pipeline *)

Section Running.

Variable vector : Type.
Variable W : Type.
Variable embeddings_create :
  string -> list string -> W -> (Exn + EmbedResponse vector) * W.
Variable vectorDB_upsert :
  string -> list (Point vector) -> W -> (Exn + unit) * W.
Variable markdownSections : list Document -> list TextNode.
Variable sentenceSplit : Z -> Z -> string -> list string.
Variable v5 : string -> string -> string.
Variable headingMatch : string -> option string.
Variable toLowerCase : string -> string.
Variable removeNonWord : string -> string.

Local Abbreviation St := (St vector W).
Local Abbreviation M := (M vector W).
Local Abbreviation Event := (Event vector).
Local Abbreviation call_embed := (call_embed vector W embeddings_create).
Local Abbreviation call_upsert := (call_upsert vector W vectorDB_upsert).
Local Abbreviation embedLoop := (embedLoop vector W embeddings_create).
Local Abbreviation upsertLoop := (upsertLoop vector W vectorDB_upsert).
Local Abbreviation chunksOf :=
  (chunksOf markdownSections sentenceSplit headingMatch toLowerCase removeNonWord).
Local Abbreviation main :=
  (main vector W embeddings_create vectorDB_upsert markdownSections sentenceSplit
     v5 headingMatch toLowerCase removeNonWord).
Local Abbreviation run :=
  (run vector W embeddings_create vectorDB_upsert markdownSections sentenceSplit
     v5 headingMatch toLowerCase removeNonWord).
Local Abbreviation MainTrace :=
  (MainTrace vector markdownSections sentenceSplit v5 headingMatch toLowerCase
     removeNonWord).
Local Abbreviation CallSite := (CallSite vector).

Implicit Types (L Le Lu : list Event) (site : CallSite).

Lemma call_embed_performs model input :
  performs (call_embed model input) (EvEmbed input).
Proof.
  intros st. unfold call_embed.
  destruct (embeddings_create model input (world st)) as [[e|r] w];
    [by exists (inl e), w | by exists (inr r), w].
Qed.

Lemma call_upsert_performs collection points :
  performs (call_upsert collection points) (EvUpsert collection points).
Proof.
  intros st. unfold call_upsert.
  destruct (vectorDB_upsert collection points (world st)) as [[e|r] w];
    [by exists (inl e), w | by exists (inr r), w].
Qed.

Lemma last_cons_default (e d : Exn) errs : List.last (e :: errs) d = List.last errs e.
Proof.
  revert e d. induction errs as [|x errs IH]; intros e d; [done|].
  change (List.last (e :: x :: errs) d) with (List.last (x :: errs) d).
  by rewrite !IH.
Qed.

(** The retry loop: it stops at the first attempt that succeeds, or throws
    the last error once [tries] attempts have failed; every failed attempt
    is followed by a warning and a sleep of [backoff attempt]. *)
Lemma withRetry_loop_spec {A} (fn : M A) ev label tries :
  performs fn ev ->
  forall fuel attempt lastErr (st : St) r st',
    (Z.to_nat (tries - attempt) < fuel)%nat ->
    withRetry_loop vector W fuel fn label tries attempt lastErr st = (r, st') ->
    exists errs,
      (r = Throw (List.last errs lastErr) /\
       log st' = log st ++ attempts_log (fun e => ev (inl e)) label attempt errs /\
       Z.of_nat (length errs) = Z.max 0 (tries - attempt)) \/
      (exists a,
         r = Ok a /\
         log st' = log st ++ attempts_log (fun e => ev (inl e)) label attempt errs
                     ++ [ev (inr a)] /\
         attempt + Z.of_nat (length errs) < tries).
Proof.
  intros Hfn. induction fuel as [|fuel IH]; intros attempt lastErr st r st' Hfuel;
    [lia|].
  cbn [withRetry_loop]. destruct (Z.ltb_spec attempt tries) as [Hlt|Hge].
  - unfold try_catch. destruct (Hfn st) as ([e|a] & w & ->).
    + unfold bind at 1, emit at 1. cbn [log world].
      unfold bind at 1, emit at 1. cbn [log world].
      intros Hrun. apply IH in Hrun as (errs & Hcase); [|lia].
      exists (e :: errs). cbn [log] in Hcase.
      rewrite last_cons_default. cbn [attempts_log length].
      rewrite <- !app_assoc in Hcase. cbn [app] in *.
      destruct Hcase as [(-> & -> & Hn)|(a & -> & -> & Hn)].
      * left. split; [done|]. split; [done|lia].
      * right. exists a. split; [done|]. split; [|lia].
        cbn [app]. by rewrite <- ?app_assoc.
    + intros [= <- <-]. exists []. right. exists a. cbn.
      split; [done|]. split; [done|lia].
  - intros [= <- <-]. exists []. left. cbn. rewrite app_nil_r.
    split; [done|]. split; [done|lia].
Qed.

Lemma withRetry_spec {A} (fn : M A) ev label (st : St) r st' :
  performs fn ev ->
  withRetry vector W fn label st = (r, st') ->
  exists errs,
    (length errs = 4%nat /\
     r = Throw (List.last errs Undefined) /\
     log st' = log st ++ attempts_log (fun e => ev (inl e)) label 0 errs) \/
    ((length errs < 4)%nat /\
     exists a,
       r = Ok a /\
       log st' = log st ++ attempts_log (fun e => ev (inl e)) label 0 errs
                   ++ [ev (inr a)]).
Proof.
  intros Hfn Hrun. unfold withRetry, withRetry_tries in Hrun.
  eapply (withRetry_loop_spec fn ev label 4 Hfn) in Hrun as (errs & Hcase); [|lia].
  exists errs. destruct Hcase as [(-> & -> & Hn)|(a & -> & -> & Hn)].
  - left. split; [lia|]. by split.
  - right. split; [lia|]. by exists a.
Qed.

(** *** Reading a log *)

Lemma embed_successes_app L1 L2 :
  embed_successes (L1 ++ L2) = embed_successes L1 ++ embed_successes L2.
Proof. apply flat_map_app. Qed.

Lemma upsert_calls_app L1 L2 :
  upsert_calls (L1 ++ L2) = upsert_calls L1 ++ upsert_calls L2.
Proof. apply flat_map_app. Qed.

Lemma exhausted_app L1 L2 : exhausted (L1 ++ L2) <-> exhausted L1 \/ exhausted L2.
Proof. apply elem_of_app. Qed.

Lemma backoff_early k : 0 <= k < 3 -> backoff k <> backoff 3.
Proof.
  intros Hk. assert (k = 0 \/ k = 1 \/ k = 2) as [->|[->| ->]] by lia; done.
Qed.

Lemma attempts_log_embed_successes site label attempt errs :
  embed_successes (attempts_log (failure site) label attempt errs) = [].
Proof.
  revert attempt. induction errs as [|e errs IH]; intros attempt; [done|].
  cbn [attempts_log]. rewrite embed_successes_app, IH. by destruct site.
Qed.

Lemma attempts_log_upsert_calls site label attempt errs :
  Forall (fun pts => exists col, site = AtUpsert col pts)
    (upsert_calls (attempts_log (failure site) label attempt errs)).
Proof.
  revert attempt. induction errs as [|e errs IH]; intros attempt; [done|].
  cbn [attempts_log]. rewrite upsert_calls_app. apply Forall_app. split; [|done].
  destruct site; cbn; [done|]. constructor; [|done]. by eexists.
Qed.

Lemma attempts_log_early site label attempt errs :
  0 <= attempt -> attempt + Z.of_nat (length errs) <= 3 ->
  ~ exhausted (attempts_log (failure site) label attempt errs).
Proof.
  revert attempt. induction errs as [|e errs IH]; intros attempt H0 H3.
  - by intros ?%elem_of_nil.
  - cbn [attempts_log length] in *. intros [H|H]%exhausted_app.
    + apply elem_of_cons in H as [H|H]; [by destruct site|].
      apply elem_of_cons in H as [H|H]; [done|].
      apply elem_of_cons in H as [H|H]; [|by apply elem_of_nil in H].
      injection H as H. symmetry in H. revert H. apply backoff_early. lia.
    + revert H. apply IH; lia.
Qed.

(** Four failures in a row end with the sleep of attempt 3. *)
Lemma attempts_log_exhausted site label errs :
  length errs = 4%nat ->
  exhausted_by (List.last errs Undefined) (attempts_log (failure site) label 0 errs).
Proof.
  destruct errs as [|e0 [|e1 [|e2 [|e3 [|]]]]]; try done. intros _.
  exists (attempts_log (failure site) label 0 [e0; e1; e2]), site, label.
  split; [done|]. by apply attempts_log_early.
Qed.

(** *** The stages *)

Lemma withRetry_embed model input label (st : St) r st' :
  withRetry vector W (call_embed model input) label st = (r, st') ->
  exists L,
    log st' = log st ++ L /\ upsert_calls L = [] /\
    match r with
    | Ok res =>
        ~ exhausted L /\
        exists L0, L = L0 ++ [EvEmbed input (inr res)] /\ embed_successes L0 = []
    | Throw e => exhausted_by e L /\ embed_successes L = []
    | Spin => False
    end.
Proof.
  intros Hrun.
  apply (withRetry_spec _ _ _ _ _ _ (call_embed_performs model input)) in Hrun
    as (errs & [(Hn & -> & ->)|(Hn & res & -> & ->)]);
    change (fun e => EvEmbed input (inl e))
      with (failure (vector:=vector) (AtEmbed input)).
  - eexists. split; [done|]. split; [|split].
    + pose proof (attempts_log_upsert_calls (AtEmbed input) label 0 errs) as H.
      destruct (upsert_calls _) as [|pts ?]; [done|].
      apply Forall_cons in H as [[? [=]] _].
    + by apply attempts_log_exhausted.
    + apply attempts_log_embed_successes.
  - eexists. split; [done|]. split; [|split].
    + rewrite upsert_calls_app, app_nil_r.
      pose proof (attempts_log_upsert_calls (AtEmbed input) label 0 errs) as H.
      destruct (upsert_calls _) as [|pts ?]; [done|].
      apply Forall_cons in H as [[? [=]] _].
    + intros [H|H]%exhausted_app.
      * revert H. apply attempts_log_early; lia.
      * by apply list_elem_of_singleton in H.
    + eexists. split; [done|]. apply attempts_log_embed_successes.
Qed.

Lemma withRetry_upsert collection points label (st : St) r st' :
  withRetry vector W (call_upsert collection points) label st = (r, st') ->
  exists L,
    log st' = log st ++ L /\ embed_successes L = [] /\
    Forall (fun pts => pts = points) (upsert_calls L) /\
    match r with
    | Ok _ => ~ exhausted L
    | Throw e => exhausted_by e L
    | Spin => False
    end.
Proof.
  intros Hrun.
  assert (Hpts : forall errs,
    Forall (fun pts => pts = points)
      (upsert_calls (attempts_log (failure (AtUpsert collection points)) label 0 errs))).
  { intros errs. eapply Forall_impl; [apply attempts_log_upsert_calls|].
    by intros pts [col [= _ ->]]. }
  apply (withRetry_spec _ _ _ _ _ _ (call_upsert_performs collection points)) in Hrun
    as (errs & [(Hn & -> & ->)|(Hn & res & -> & ->)]);
    change (fun e => EvUpsert collection points (inl e))
      with (failure (vector:=vector) (AtUpsert collection points)).
  - eexists. split; [done|]. split; [apply attempts_log_embed_successes|].
    split; [apply Hpts|]. by apply attempts_log_exhausted.
  - eexists. split; [done|]. split; [|split].
    + by rewrite embed_successes_app, attempts_log_embed_successes.
    + rewrite upsert_calls_app. apply Forall_app. split; [apply Hpts|].
      by constructor.
    + intros [H|H]%exhausted_app.
      * revert H. apply attempts_log_early; lia.
      * by apply list_elem_of_singleton in H.
Qed.

Lemma exhausted_by_app e L1 L2 :
  ~ exhausted L1 -> exhausted_by e L2 -> exhausted_by e (L1 ++ L2).
Proof.
  intros H1 (L0 & c & label & -> & H0). exists (L1 ++ L0), c, label.
  split; [by rewrite app_assoc|].
  by intros [?|?]%exhausted_app.
Qed.

(** The embedding stage: it touches the vector store never; when it
    returns, every batch was answered once, in order, with as many vectors
    as it had texts, and the vectors are those answers concatenated; when it
    throws, either a call failed four times in a row, or the last event is a
    reply of the wrong size, which is thrown without another call. *)
Lemma embedLoop_spec batches b total vs (st : St) r st' :
  embedLoop batches b total vs st = (r, st') ->
  exists L,
    log st' = log st ++ L /\ upsert_calls L = [] /\
    match r with
    | Ok vectors =>
        ~ exhausted L /\
        map fst (embed_successes L) = batches /\
        Forall aligned (embed_successes L) /\
        vectors = vs ++ embedded L
    | Throw e =>
        (exhausted_by e L /\ Forall aligned (embed_successes L)) \/
        (~ exhausted L /\
         exists L0 slice res,
           L = L0 ++ [EvEmbed slice (inr res)] /\
           Forall aligned (embed_successes L0) /\
           ~ aligned (slice, res) /\
           e = Error (size_mismatch vector res slice))
    | Spin => False
    end.
Proof.
  revert b vs st. induction batches as [|slice rest IH]; intros b vs st.
  - intros [= <- <-]. exists []. rewrite !app_nil_r. repeat split; try done.
    by intros ?%elem_of_nil.
  - cbn [embedLoop]. unfold bind at 1.
    destruct (withRetry _ _ _ _ st) as [rr st1] eqn:Hretry.
    apply withRetry_embed in Hretry as (L1 & Hlog1 & Hup1 & Hrr).
    destruct rr as [res|e|]; [|intros [= <- <-]|done].
    + destruct Hrr as (Hex1 & L0 & -> & Hs0).
      assert (Hmis : ~ aligned (slice, res) ->
                     (Throw (Error (size_mismatch vector res slice)), st1) = (r, st') ->
                     exists L,
                       log st' = log st ++ L /\ upsert_calls L = [] /\
                       match r with
                       | Ok vectors =>
                           ~ exhausted L /\
                           map fst (embed_successes L) = slice :: rest /\
                           Forall aligned (embed_successes L) /\
                           vectors = vs ++ embedded L
                       | Throw e =>
                           (exhausted_by e L /\ Forall aligned (embed_successes L)) \/
                           (~ exhausted L /\
                            exists L0 slice res,
                              L = L0 ++ [EvEmbed slice (inr res)] /\
                              Forall aligned (embed_successes L0) /\
                              ~ aligned (slice, res) /\
                              e = Error (size_mismatch vector res slice))
                       | Spin => False
                       end).
      { intros Hbad [= <- <-]. eexists. split; [done|]. split; [done|].
        right. split; [done|]. exists L0, slice, res. rewrite Hs0. by repeat split. }
      destruct (data res) as [d|] eqn:Hd;
        [|apply Hmis; by intros (d & Hd' & _); cbn in Hd'; congruence].
      destruct (Nat.eqb_spec (length d) (length slice)) as [Hlen|Hlen]; cbn [negb];
        [|apply Hmis; intros (d' & Hd' & Hl); cbn in Hd', Hl; congruence].
      clear Hmis. intros Hrun. apply IH in Hrun as (L2 & Hlog2 & Hup2 & Hr).
      assert (Hal : aligned (slice, res)) by (by exists d).
      assert (Hs1 : embed_successes (L0 ++ [EvEmbed slice (inr res)] ++ L2) =
                    (slice, res) :: embed_successes L2).
      { by rewrite !embed_successes_app, Hs0. }
      exists ((L0 ++ [EvEmbed slice (inr res)]) ++ L2).
      split; [by rewrite Hlog2, Hlog1, <- !app_assoc|].
      split; [by rewrite upsert_calls_app, Hup1, Hup2|].
      rewrite <- app_assoc.
      destruct r as [vectors|e|]; [| |done].
      * destruct Hr as (Hex2 & Hfst & Hall & ->).
        split; [rewrite app_assoc; by intros [?|?]%exhausted_app|].
        unfold embedded. rewrite Hs1. cbn [map fst flat_map snd]. rewrite Hd.
        split; [by rewrite Hfst|]. split; [by constructor|].
        by rewrite <- app_assoc.
      * destruct Hr as [(Hex2 & Hall)|(Hex2 & L3 & slice' & res' & -> & Hall & Hbad & ->)].
        -- left. rewrite Hs1. split; [|by constructor].
           rewrite app_assoc. by apply exhausted_by_app.
        -- right. split; [rewrite app_assoc; by intros [?|?]%exhausted_app|].
           exists (L0 ++ [EvEmbed slice (inr res)] ++ L3), slice', res'.
           split; [by rewrite <- !app_assoc|].
           split; [|done].
           rewrite !embed_successes_app, Hs0. by constructor.
    + destruct Hrr as [Hex Hs]. exists L1. split; [done|]. split; [done|].
      left. split; [done|]. by rewrite Hs.
Qed.

(** The upsert stage: it calls the embedding provider never, hands the
    vector store batches of the list it was given only, and throws only
    after a call has failed four times in a row. *)
Lemma upsertLoop_spec batches i total n (st : St) r st' :
  upsertLoop batches i total n st = (r, st') ->
  exists L,
    log st' = log st ++ L /\ embed_successes L = [] /\
    Forall (fun pts => pts ∈ batches) (upsert_calls L) /\
    match r with
    | Ok upserted => ~ exhausted L /\ upserted = (n + length (concat batches))%nat
    | Throw e => exhausted_by e L
    | Spin => False
    end.
Proof.
  revert i n st. induction batches as [|points rest IH]; intros i n st.
  - intros [= <- <-]. exists []. rewrite !app_nil_r.
    repeat split; try done; by intros ?%elem_of_nil.
  - cbn [upsertLoop]. unfold bind at 1.
    destruct (withRetry _ _ _ _ st) as [rr st1] eqn:Hretry.
    apply withRetry_upsert in Hretry as (L1 & Hlog1 & Hs1 & Hup1 & Hrr).
    assert (Hup1' : Forall (fun pts => pts ∈ points :: rest) (upsert_calls L1)).
    { eapply Forall_impl; [exact Hup1|]. intros pts ->. by left. }
    destruct rr as [[]|e|]; [|intros [= <- <-]|done].
    + intros Hrun. apply IH in Hrun as (L2 & Hlog2 & Hs2 & Hup2 & Hr).
      exists (L1 ++ L2). split; [by rewrite Hlog2, Hlog1, <- !app_assoc|].
      split; [by rewrite embed_successes_app, Hs1, Hs2|].
      split.
      { rewrite upsert_calls_app. apply Forall_app. split; [done|].
        eapply Forall_impl; [exact Hup2|]. intros pts ?. by right. }
      destruct r as [?|e|]; [|by apply exhausted_by_app|done].
      destruct Hr as [Hex ->]. split; [by intros [?|?]%exhausted_app|].
      cbn [concat]. rewrite length_app. lia.
    + by exists L1.
Qed.

Lemma embed_successes_elem L input res :
  EvEmbed input (inr res) ∈ L -> (input, res) ∈ embed_successes L.
Proof.
  intros (L1 & L2 & ->)%list_elem_of_split.
  rewrite embed_successes_app. apply elem_of_app. right. by left.
Qed.

(** Aligned replies pair every text with one vector. *)
Lemma embedded_zip (S : list (list string * EmbedResponse vector)) :
  Forall aligned S ->
  length (flat_map (fun p => default [] (data p.2)) S) = length (concat (map fst S)) /\
  zip (concat (map fst S)) (flat_map (fun p => default [] (data p.2)) S) =
  flat_map (fun p => zip p.1 (default [] (data p.2))) S.
Proof.
  induction 1 as [|[input res] S (d & Hd & Hlen) _ [IHlen IHzip]]; [done|].
  cbn [fst snd] in Hd, Hlen.
  cbn [map fst snd concat flat_map]. rewrite Hd.
  change (default [] (Some d)) with d.
  split.
  - rewrite !length_app. by rewrite IHlen, Hlen.
  - rewrite zip_with_app by lia. by rewrite <- IHzip.
Qed.

(** *** The whole run *)

Lemma main_trace entries (st : St) r st' :
  main entries st = (r, st') ->
  exists L, log st' = log st ++ L /\ MainTrace entries r L.
Proof.
  unfold main.
  destruct (loadMarkdownDocs entries) as [|d ds] eqn:Hdocs.
  { intros [= <- <-]. eexists. split; [done|]. by constructor. }
  change (length (d :: ds) =? 0)%nat with false. cbv iota.
  destruct (chunksOf (d :: ds)) as [|c cs] eqn:Hchunks.
  { intros [= <- <-]. eexists. split; [done|].
    apply Run_no_chunks; by rewrite Hdocs. }
  change (length (c :: cs) =? 0)%nat with false. cbv iota.
  assert (Hne : chunksOf (loadMarkdownDocs entries) <> []) by (by rewrite Hdocs, Hchunks).
  destruct (chunkArray_partition (map text (c :: cs)) EMBED_BATCH)
    as (tb & Htb & Hcat & _); [done|].
  rewrite Htb. unfold bind at 1.
  destruct (embedLoop tb 0 (length tb) [] st) as [re ste] eqn:He.
  apply embedLoop_spec in He as (Le & Hlog & Hup & Hre).
  destruct re as [vectors|e|]; [| |done].
  - destruct Hre as (Hex & Hfst & Hal & Hv). cbn [app] in Hv.
    assert (Hlen : length vectors = length (c :: cs)).
    { rewrite Hv. unfold embedded. destruct (embedded_zip _ Hal) as [-> _].
      by rewrite Hfst, Hcat, length_map. }
    rewrite Hlen, Nat.eqb_refl. cbn [negb]. cbv iota.
    destruct (chunkArray_partition (allPoints vector v5 (c :: cs) vectors) UPSERT_BATCH)
      as (pb & Hpb & Hpcat & _); [done|].
    rewrite Hpb. unfold bind at 1.
    destruct (upsertLoop pb 0 (length pb) 0 ste) as [ru stu] eqn:Hu.
    apply upsertLoop_spec in Hu as (Lu & Hlogu & Hsu & Hupu & Hru).
    destruct ru as [n|e|]; [| |done].
    + destruct Hru as [Hexu ->]. intros [= <- <-].
      eexists (Le ++ Lu ++ [_]). cbn [log].
      split; [by rewrite Hlogu, Hlog, <- !app_assoc|].
      change (0 + length (concat pb))%nat with (length (concat pb)).
      eapply Run_done; rewrite ?Hdocs, ?Hchunks, <- ?Hv; try done.
    + intros [= <- <-]. exists (Le ++ Lu).
      split; [by rewrite Hlogu, Hlog, <- !app_assoc|].
      eapply Run_upsert_exhausted; rewrite ?Hdocs, ?Hchunks, <- ?Hv; try done.
  - intros [= <- <-]. exists Le. split; [done|].
    destruct Hre as [(Hex & Hal)|(Hex & L0 & slice & res & -> & Hal & Hbad & ->)].
    + by apply Run_embed_exhausted.
    + rewrite upsert_calls_app in Hup. apply app_eq_nil in Hup as [Hup _].
      by apply Run_mismatch.
Qed.

(** What a trace says about retries that ran out. *)
Lemma MainTrace_exhausted entries r L :
  MainTrace entries r L ->
  match r with
  | Ok _ => ~ exhausted L
  | Throw e => ~ exhausted L \/ exhausted_by e L
  | Spin => False
  end.
Proof.
  assert (Hone : forall ev : Event, ev <> EvSleep (backoff 3) -> ~ exhausted [ev]).
  { intros ev Hev H%list_elem_of_singleton. by apply Hev. }
  destruct 1.
  - by apply Hone.
  - by apply Hone.
  - by right.
  - by left.
  - right. by apply exhausted_by_app.
  - intros [?|[?|Hlast]%exhausted_app]%exhausted_app; [done..|].
    revert Hlast. by apply Hone.
Qed.

(** A run never hangs. *)
Lemma main_returns entries (st : St) : (main entries st).1 <> Spin.
Proof.
  destruct (main entries st) as [r st'] eqn:Hrun.
  apply main_trace in Hrun as (L & _ & Htrace).
  apply MainTrace_exhausted in Htrace. by destruct r.
Qed.

Lemma upsert_calls_elem L collection points reply :
  EvUpsert collection points reply ∈ L -> points ∈ upsert_calls L.
Proof.
  intros (L1 & L2 & ->)%list_elem_of_split.
  rewrite upsert_calls_app. apply elem_of_app. right. by left.
Qed.

Lemma allPoints_payload chunks (vectors : list vector) :
  map payload (allPoints vector v5 chunks vectors) = chunks.
Proof.
  apply list_eq. intros i. unfold allPoints.
  rewrite list_lookup_fmap, list_lookup_imap. by destruct (chunks !! i).
Qed.

Lemma run_of_main entries (st : St) :
  run entries st =
  match main entries st with
  | (Ok _, st') => (ExitCode 0, st')
  | (Throw e, st') => (ExitCode 1, {| world := world st'; log := log st' ++ [EvError e] |})
  | (Spin, st') => (NoExit, st')
  end.
Proof. unfold run. by destruct (main entries st) as [[?|?|] ?]. Qed.

(** The successful embedding calls of a trace all came back with the right
    number of vectors, unless the trace ends with the one that did not. *)
Lemma MainTrace_successes entries r L :
  MainTrace entries r L ->
  Forall aligned (embed_successes L) \/
  exists L0 slice res,
    L = L0 ++ [EvEmbed slice (inr res)] /\
    Forall aligned (embed_successes L0) /\
    upsert_calls L = [] /\
    r = Throw (Error (size_mismatch vector res slice)).
Proof.
  destruct 1 as [| | | L0 slice res ? Hup
                  | e Le Lu tb pb chunks ? ? ? ? ? Hal ? Hsu
                  | Le Lu tb pb chunks ? ? ? ? ? Hal ? Hsu].
  - by left.
  - by left.
  - by left.
  - right. exists L0, slice, res. repeat split; try done.
    by rewrite upsert_calls_app, Hup.
  - left. by rewrite embed_successes_app, Hsu, app_nil_r.
  - left. rewrite !embed_successes_app, Hsu. by rewrite app_nil_r.
Qed.

(** The points of an upsert call of a run are points of [allPoints], built
    from the chunks of the run and the vectors its embedding calls
    returned, which answered the batches of the chunk texts. *)
Lemma MainTrace_upsert entries r L points :
  MainTrace entries r L ->
  points ∈ upsert_calls L ->
  concat (map fst (embed_successes L)) =
    map text (chunksOf (loadMarkdownDocs entries)) /\
  Forall aligned (embed_successes L) /\
  forall pt,
    pt ∈ points ->
    pt ∈ allPoints vector v5 (chunksOf (loadMarkdownDocs entries)) (embedded L).
Proof.
  intros Htrace Hev.
  assert (Hstage : forall Le Lu Lend tb pb,
    L = Le ++ Lu ++ Lend ->
    upsert_calls Le = [] -> upsert_calls Lend = [] ->
    embed_successes Lu = [] -> embed_successes Lend = [] ->
    chunkArray (map text (chunksOf (loadMarkdownDocs entries))) EMBED_BATCH = Some tb ->
    map fst (embed_successes Le) = tb ->
    Forall aligned (embed_successes Le) ->
    Forall (fun pts => pts ∈ pb) (upsert_calls Lu) ->
    chunkArray (allPoints vector v5 (chunksOf (loadMarkdownDocs entries)) (embedded Le))
      UPSERT_BATCH = Some pb ->
    concat (map fst (embed_successes L)) =
      map text (chunksOf (loadMarkdownDocs entries)) /\
    Forall aligned (embed_successes L) /\
    forall pt,
      pt ∈ points ->
      pt ∈ allPoints vector v5 (chunksOf (loadMarkdownDocs entries)) (embedded L)).
  { intros Le Lu Lend tb pb -> HLe HLend HsLu HsLend Htb Hfst Hal Hall Hpb.
    rewrite !upsert_calls_app, HLe, HLend, app_nil_r in Hev. cbn [app] in Hev.
    unfold embedded. rewrite !embed_successes_app, HsLu, HsLend, !app_nil_r.
    destruct (chunkArray_partition
                (map text (chunksOf (loadMarkdownDocs entries))) EMBED_BATCH)
      as (out & Hout & Hcat & _); [done|].
    assert (out = tb) as -> by congruence.
    split; [by rewrite Hfst|]. split; [done|].
    intros pt Hpt.
    eapply (proj1 (Forall_forall _ _)) in Hall; [|exact Hev].
    destruct (chunkArray_partition
                (allPoints vector v5 (chunksOf (loadMarkdownDocs entries)) (embedded Le))
                UPSERT_BATCH) as (out & Hout' & Hcat' & _); [done|].
    assert (out = pb) as -> by congruence.
    unfold embedded in Hcat'. rewrite <- Hcat'.
    apply list_elem_of_In, in_concat. exists points.
    split; by apply list_elem_of_In. }
  destruct Htrace as [| | ? ? ? Hup | L0 ? ? ? Hup
                      | ? Le Lu tb pb chunks ? Htb Hup ? Hfst Hal Hpb Hsu Hall
                      | Le Lu tb pb chunks ? Htb Hup ? Hfst Hal Hpb Hsu Hall].
  - by apply elem_of_nil in Hev.
  - by apply elem_of_nil in Hev.
  - rewrite Hup in Hev. by apply elem_of_nil in Hev.
  - rewrite upsert_calls_app, Hup in Hev. by apply elem_of_nil in Hev.
  - apply (Hstage Le Lu [] tb pb); try done. by rewrite app_nil_r.
  - by eapply (Hstage Le Lu [_] tb pb).
Qed.

(** C2. Whenever an embedding call of a run returns a reply whose vector
    count is not the batch's text count (or no vectors at all), that reply is
    the last thing the run does: [main] throws the size-mismatch error at
    once, without calling the provider again, the vector store is not called
    in that run, and the process exits with status 1. *)
Theorem size_mismatch_is_fatal entries (st : St) r st' L slice res :
  main entries st = (r, st') ->
  log st' = log st ++ L ->
  EvEmbed slice (inr res) ∈ L ->
  (forall d, data res = Some d -> length d <> length slice) ->
  r = Throw (Error (size_mismatch vector res slice)) /\
  (exists L0, L = L0 ++ [EvEmbed slice (inr res)]) /\
  upsert_calls L = [] /\
  run entries st =
    (ExitCode 1,
     {| world := world st';
        log := log st' ++ [EvError (Error (size_mismatch vector res slice))] |}).
Proof.
  intros Hmain Hlog Hin Hbad.
  assert (Hna : ~ aligned (slice, res)).
  { intros (d & Hd & Hlen). by apply (Hbad d). }
  destruct (main_trace _ _ _ _ Hmain) as (L' & Hlog' & Htrace).
  assert (L' = L) as -> by (apply (app_inv_head (log st)); congruence).
  assert (Hsucc : (slice, res) ∈ embed_successes L) by (by apply embed_successes_elem).
  destruct (MainTrace_successes _ _ _ Htrace)
    as [Hal|(L0 & slice' & res' & -> & Hal & Hup & ->)].
  { exfalso. apply Hna. by eapply (proj1 (Forall_forall _ _)) in Hal. }
  rewrite embed_successes_app in Hsucc. apply elem_of_app in Hsucc as [Hsucc|Hsucc].
  { exfalso. apply Hna. by eapply (proj1 (Forall_forall _ _)) in Hal. }
  apply list_elem_of_singleton in Hsucc as [= -> ->].
  split; [done|]. split; [by exists L0|]. split; [done|].
  by rewrite run_of_main, Hmain.
Qed.

(** C6. With no eligible document, or with no chunk after splitting and
    filtering, the run logs one warning and nothing else, leaves the outside
    world as it was (no call to the embedding provider or to the vector
    store), and exits with status 0. *)
Theorem empty_input_exits_cleanly entries (st : St) :
  (loadMarkdownDocs entries = [] ->
   run entries st =
     (ExitCode 0,
      {| world := world st; log := log st ++ [EvWarn "No .md files in ./assets"] |})) /\
  (loadMarkdownDocs entries <> [] ->
   chunksOf (loadMarkdownDocs entries) = [] ->
   run entries st =
     (ExitCode 0,
      {| world := world st;
         log := log st ++
           [EvWarn "No non-empty chunks produced. Check your Markdown and splitter settings."] |})).
Proof.
  split.
  - intros Hdocs. unfold run, main. by rewrite Hdocs.
  - intros Hdocs Hchunks. unfold run, main. rewrite Hchunks.
    by destruct (loadMarkdownDocs entries).
Qed.

(** C7. Every point handed to the vector store, in any run and whatever the
    store replies, carries the text of a chunk of the run, and every chunk
    that reaches point construction has a text that is not empty, is not
    white space only, and neither starts nor ends with white space. *)
Theorem no_blank_text_reaches_upsert entries (st : St) r st' L :
  main entries st = (r, st') ->
  log st' = log st ++ L ->
  (forall c,
      c ∈ chunksOf (loadMarkdownDocs entries) ->
      text c <> "" /\ Str.all_ws (text c) = false /\ Str.stripped (text c)) /\
  (forall collection points reply pt,
      EvUpsert collection points reply ∈ L -> pt ∈ points ->
      payload pt ∈ chunksOf (loadMarkdownDocs entries) /\
      text (payload pt) <> "" /\
      Str.all_ws (text (payload pt)) = false /\
      Str.stripped (text (payload pt))).
Proof.
  intros Hmain Hlog. split; [intros c Hc; by eapply chunksOf_text_stripped|].
  intros collection points reply pt Hev Hpt.
  assert (Hchunk : payload pt ∈ chunksOf (loadMarkdownDocs entries));
    [|split; [done|by eapply chunksOf_text_stripped]].
  destruct (main_trace _ _ _ _ Hmain) as (L' & Hlog' & Htrace).
  assert (L' = L) as -> by (apply (app_inv_head (log st)); congruence).
  apply upsert_calls_elem in Hev.
  destruct (MainTrace_upsert _ _ _ _ Htrace Hev) as (_ & _ & Hpoints).
  rewrite <- (allPoints_payload (chunksOf (loadMarkdownDocs entries)) (embedded L)).
  apply list_elem_of_fmap_2. by apply Hpoints.
Qed.

(** C4. [chunkArray] cuts a list into consecutive batches of at most [B]
    items whose concatenation is the list.  When the embedding loop returns
    for the batches of the chunk texts, every batch was answered once, in
    batch order, by a reply of its own size; the vectors are those replies
    concatenated, there are as many as chunks, text [i] is paired with the
    vector the provider returned for it, and point [i] carries chunk [i]
    with vector [i].  In a run of [main], every point of every upsert call
    pairs a chunk with the vector at the same index, whatever attempts
    failed on the way. *)
Theorem batching_keeps_vectors_aligned :
  (forall (T : Type) (arr : list T) (B : Z),
      1 <= B ->
      exists out,
        chunkArray arr B = Some out /\
        concat out = arr /\
        Forall (fun b => Z.of_nat (length b) <= B) out) /\
  (forall chunks textBatches (st : St) vectors st',
      chunkArray (map text chunks) EMBED_BATCH = Some textBatches ->
      embedLoop textBatches 0 (length textBatches) [] st = (Ok vectors, st') ->
      exists L,
        log st' = log st ++ L /\
        map fst (embed_successes L) = textBatches /\
        Forall aligned (embed_successes L) /\
        vectors = embedded L /\
        length vectors = length chunks /\
        zip (map text chunks) vectors =
          flat_map (fun p => zip p.1 (default [] (data p.2))) (embed_successes L) /\
        forall i c,
          chunks !! i = Some c ->
          exists v pt,
            vectors !! i = Some v /\
            allPoints vector v5 chunks vectors !! i = Some pt /\
            payload pt = c /\ point_vector pt = Some v) /\
  (forall entries (st : St) r st' L collection points reply,
      main entries st = (r, st') ->
      log st' = log st ++ L ->
      EvUpsert collection points reply ∈ L ->
      length (embedded L) = length (chunksOf (loadMarkdownDocs entries)) /\
      zip (map text (chunksOf (loadMarkdownDocs entries))) (embedded L) =
        flat_map (fun p => zip p.1 (default [] (data p.2))) (embed_successes L) /\
      forall pt,
        pt ∈ points ->
        exists i c v,
          chunksOf (loadMarkdownDocs entries) !! i = Some c /\
          embedded L !! i = Some v /\
          payload pt = c /\ point_vector pt = Some v).
Proof.
  split; [|split]; cycle 2.
  { intros entries st r st' L collection points reply Hmain Hlog Hev.
    destruct (main_trace _ _ _ _ Hmain) as (L' & Hlog' & Htrace).
    assert (L' = L) as -> by (apply (app_inv_head (log st)); congruence).
    apply upsert_calls_elem in Hev.
    destruct (MainTrace_upsert _ _ _ _ Htrace Hev) as (Hcat & Hal & Hpoints).
    destruct (embedded_zip _ Hal) as [Hlen Hzip].
    rewrite Hcat in Hlen, Hzip. fold (embedded L) in Hlen, Hzip.
    rewrite length_map in Hlen.
    split; [done|]. split; [done|].
    intros pt [i Hi]%Hpoints%list_elem_of_lookup.
    unfold allPoints in Hi. rewrite list_lookup_imap in Hi.
    destruct (chunksOf (loadMarkdownDocs entries) !! i) as [c|] eqn:Hc; [|done].
    destruct (lookup_lt_is_Some_2 (embedded L) i) as [v Hv].
    { rewrite Hlen. by eapply lookup_lt_Some. }
    injection Hi as <-. exists i, c, v. by repeat split. }
  - intros T arr B HB.
    destruct (chunkArray_partition arr B HB) as (out & Hrun & Hcat & Hall).
    exists out. split; [done|]. split; [done|].
    eapply Forall_impl; [exact Hall|]. by intros b [_ ?].
  - intros chunks tb st vectors st' Htb Hrun.
    destruct (chunkArray_partition (map text chunks) EMBED_BATCH)
      as (out & Hout & Hcat & _); [done|].
    assert (out = tb) as -> by congruence.
    apply embedLoop_spec in Hrun as (L & Hlog & _ & _ & Hfst & Hal & Hv).
    cbn [app] in Hv. destruct (embedded_zip _ Hal) as [Hlen Hzip].
    rewrite Hfst, Hcat in Hlen, Hzip. fold (embedded L) in Hlen, Hzip.
    rewrite <- Hv in Hlen, Hzip. rewrite length_map in Hlen.
    exists L. repeat split; try done.
    intros i c Hc.
    destruct (lookup_lt_is_Some_2 vectors i) as [v Hvi].
    { rewrite Hlen. by eapply lookup_lt_Some. }
    eexists v, _. split; [done|]. split.
    { unfold allPoints. rewrite list_lookup_imap, Hc. reflexivity. }
    by split.
Qed.

(** *** The calls of a run, one by one *)

Lemma Retried_app calls1 L1 calls2 L2 :
  Retried calls1 L1 -> Retried calls2 L2 -> Retried (calls1 ++ calls2) (L1 ++ L2).
Proof.
  induction 1 as [|site label errs ok calls L Hn Hok _ IH]; [done|].
  intros H2. rewrite <- app_assoc, <- !app_comm_cons. constructor; auto.
Qed.

Lemma Retried_one site label errs ok :
  (length errs < 4)%nat -> answers site ok ->
  Retried [(site, label)] (attempts_log (failure site) label 0 errs ++ [ok]).
Proof. intros Hn Hok. constructor; [done..|constructor]. Qed.

Lemma four_errors (errs : list Exn) :
  length errs = 4%nat ->
  exists e0 e1 e2 e3, errs = [e0; e1; e2; e3] /\ List.last errs Undefined = e3.
Proof.
  destruct errs as [|e0 [|e1 [|e2 [|e3 [|]]]]]; try done.
  intros _. by exists e0, e1, e2, e3.
Qed.

(** The embedding stage makes the scheduled calls in order, each under the
    retry loop; it stops at the first call that fails four times, or at
    the first answer of the wrong size. *)
Lemma embedLoop_retried batches b total vs (st : St) r st' :
  embedLoop batches b total vs st = (r, st') ->
  exists done Lc,
    Retried done Lc /\
    match r with
    | Ok _ => done = embed_schedule b total batches /\ log st' = log st ++ Lc
    | Throw e =>
        (exists site label e0 e1 e2,
            (done ++ [(site, label)]) `prefix_of` embed_schedule b total batches /\
            log st' = log st ++ Lc
                        ++ attempts_log (failure site) label 0 [e0; e1; e2; e]) \/
        (done `prefix_of` embed_schedule b total batches /\
         log st' = log st ++ Lc /\
         exists L0 slice res,
           Lc = L0 ++ [EvEmbed slice (inr res)] /\
           ~ aligned (slice, res) /\
           e = Error (size_mismatch vector res slice))
    | Spin => False
    end.
Proof.
  revert b vs st. induction batches as [|slice rest IH]; intros b vs st.
  - intros [= <- <-]. exists [], []. split; [constructor|]. by rewrite app_nil_r.
  - cbn [embedLoop embed_schedule]. unfold bind at 1.
    set (label := "embed-batch-" +:+ Str.of_nat (b + 1) +:+ "/" +:+ Str.of_nat total).
    destruct (withRetry _ _ _ _ st) as [rr st1] eqn:Hretry.
    apply (withRetry_spec _ _ _ _ _ _ (call_embed_performs _ slice)) in Hretry
      as (errs & [(Hn & -> & Hlog)|(Hn & res & -> & Hlog)]);
      change (fun e => EvEmbed slice (inl e))
        with (failure (vector:=vector) (AtEmbed slice)) in Hlog.
    + intros [= <- <-].
      destruct (four_errors errs Hn) as (e0 & e1 & e2 & e3 & -> & ->).
      exists [], []. split; [constructor|]. left.
      exists (AtEmbed slice), label, e0, e1, e2.
      split; [apply prefix_cons, prefix_nil|done].
    + set (B := attempts_log (failure (AtEmbed slice)) label 0 errs
                  ++ [EvEmbed slice (inr res)]) in Hlog.
      assert (Hone : Retried [(AtEmbed slice, label)] B).
      { apply Retried_one; [done|]. by exists res. }
      assert (Hmis : ~ aligned (slice, res) ->
                (Throw (Error (size_mismatch vector res slice)), st1) = (r, st') ->
                exists done Lc,
                  Retried done Lc /\
                  match r with
                  | Ok _ =>
                      done = (AtEmbed slice, label) :: embed_schedule (b + 1) total rest /\
                      log st' = log st ++ Lc
                  | Throw e =>
                      (exists site label0 e0 e1 e2,
                          (done ++ [(site, label0)]) `prefix_of`
                            (AtEmbed slice, label) :: embed_schedule (b + 1) total rest /\
                          log st' = log st ++ Lc
                                      ++ attempts_log (failure site) label0 0 [e0; e1; e2; e]) \/
                      (done `prefix_of`
                         (AtEmbed slice, label) :: embed_schedule (b + 1) total rest /\
                       log st' = log st ++ Lc /\
                       exists L0 slice0 res0,
                         Lc = L0 ++ [EvEmbed slice0 (inr res0)] /\
                         ~ aligned (slice0, res0) /\
                         e = Error (size_mismatch vector res0 slice0))
                  | Spin => False
                  end).
      { intros Hbad [= <- <-]. exists [(AtEmbed slice, label)], B.
        split; [exact Hone|]. right.
        split; [apply prefix_cons, prefix_nil|]. split; [done|].
        by exists (attempts_log (failure (AtEmbed slice)) label 0 errs), slice, res. }
      destruct (data res) as [d|] eqn:Hd;
        [|apply Hmis; by intros (d & Hd' & _); cbn in Hd'; congruence].
      destruct (Nat.eqb_spec (length d) (length slice)) as [Hlen|Hlen]; cbn [negb];
        [|apply Hmis; intros (d' & Hd' & Hl); cbn in Hd', Hl; congruence].
      clear Hmis. intros Hrun. apply IH in Hrun as (done & Lc & HR & Hr).
      exists ((AtEmbed slice, label) :: done), (B ++ Lc).
      split; [exact (Retried_app _ _ _ _ Hone HR)|].
      destruct r as [vectors|e|]; [| |done].
      * destruct Hr as [-> ->]. split; [done|]. by rewrite Hlog, <- !app_assoc.
      * destruct Hr as [(site & label0 & e0 & e1 & e2 & Hpre & ->)
                       |(Hpre & -> & L0 & slice0 & res0 & -> & Hbad & ->)].
        -- left. exists site, label0, e0, e1, e2.
           split; [by apply prefix_cons|]. by rewrite Hlog, <- !app_assoc.
        -- right. split; [by apply prefix_cons|].
           split; [by rewrite Hlog, <- !app_assoc|].
           exists (B ++ L0), slice0, res0. by rewrite <- !app_assoc.
Qed.

(** The upsert stage makes the scheduled calls in order, each under the
    retry loop; it stops at the first call that fails four times. *)
Lemma upsertLoop_retried batches i total n (st : St) r st' :
  upsertLoop batches i total n st = (r, st') ->
  exists done Lc,
    Retried done Lc /\
    match r with
    | Ok _ => done = upsert_schedule i total batches /\ log st' = log st ++ Lc
    | Throw e =>
        exists site label e0 e1 e2,
          (done ++ [(site, label)]) `prefix_of` upsert_schedule i total batches /\
          log st' = log st ++ Lc
                      ++ attempts_log (failure site) label 0 [e0; e1; e2; e]
    | Spin => False
    end.
Proof.
  revert i n st. induction batches as [|points rest IH]; intros i n st.
  - intros [= <- <-]. exists [], []. split; [constructor|]. by rewrite app_nil_r.
  - cbn [upsertLoop upsert_schedule]. unfold bind at 1.
    set (label := "upsert-" +:+ Str.of_nat (i + 1) +:+ "/" +:+ Str.of_nat total).
    destruct (withRetry _ _ _ _ st) as [rr st1] eqn:Hretry.
    apply (withRetry_spec _ _ _ _ _ _ (call_upsert_performs COLLECTION points)) in Hretry
      as (errs & [(Hn & -> & Hlog)|(Hn & [] & -> & Hlog)]);
      change (fun e => EvUpsert COLLECTION points (inl e))
        with (failure (vector:=vector) (AtUpsert COLLECTION points)) in Hlog.
    + intros [= <- <-].
      destruct (four_errors errs Hn) as (e0 & e1 & e2 & e3 & -> & ->).
      exists [], []. split; [constructor|].
      exists (AtUpsert COLLECTION points), label, e0, e1, e2.
      split; [apply prefix_cons, prefix_nil|done].
    + set (B := attempts_log (failure (AtUpsert COLLECTION points)) label 0 errs
                  ++ [EvUpsert COLLECTION points (inr tt)]) in Hlog.
      assert (Hone : Retried [(AtUpsert COLLECTION points, label)] B).
      { by apply Retried_one. }
      intros Hrun. apply IH in Hrun as (done & Lc & HR & Hr).
      exists ((AtUpsert COLLECTION points, label) :: done), (B ++ Lc).
      split; [exact (Retried_app _ _ _ _ Hone HR)|].
      destruct r as [m|e|]; [| |done].
      * destruct Hr as [-> ->]. split; [done|]. by rewrite Hlog, <- !app_assoc.
      * destruct Hr as (site & label0 & e0 & e1 & e2 & Hpre & ->).
        exists site, label0, e0, e1, e2.
        split; [by apply prefix_cons|]. by rewrite Hlog, <- !app_assoc.
Qed.

Lemma embed_schedule_sites b total batches :
  map fst (embed_schedule (vector:=vector) b total batches) = map AtEmbed batches.
Proof.
  revert b. induction batches as [|slice rest IH]; intros b; [done|].
  cbn. by rewrite IH.
Qed.

Lemma upsert_schedule_sites i total batches :
  map fst (upsert_schedule (vector:=vector) i total batches)
    = map (AtUpsert COLLECTION) batches.
Proof.
  revert i. induction batches as [|points rest IH]; intros i; [done|].
  cbn. by rewrite IH.
Qed.

(** One call per batch: the embedding calls in batch order, then the
    upsert calls in batch order, all to the same collection. *)
Lemma scheduled_sites tb (pb : list (list (Point vector))) :
  map fst (scheduled tb pb) = map AtEmbed tb ++ map (AtUpsert COLLECTION) pb.
Proof.
  unfold scheduled. by rewrite map_app, embed_schedule_sites, upsert_schedule_sites.
Qed.

(** A run with chunks makes the scheduled calls in order, each under the
    retry loop, until one fails four times or an answer has the wrong
    size; when it returns, all of them were made and answered. *)
Lemma main_retried entries (st : St) r st' L :
  main entries st = (r, st') ->
  log st' = log st ++ L ->
  loadMarkdownDocs entries <> [] ->
  chunksOf (loadMarkdownDocs entries) <> [] ->
  exists tb pb done Lc,
    chunkArray (map text (chunksOf (loadMarkdownDocs entries))) EMBED_BATCH = Some tb /\
    chunkArray (allPoints vector v5 (chunksOf (loadMarkdownDocs entries)) (embedded L))
      UPSERT_BATCH = Some pb /\
    Retried done Lc /\
    match r with
    | Ok _ =>
        done = scheduled tb pb /\
        L = Lc ++
          [EvLog ("✅ Upserted "
                    +:+ Str.of_nat (length (chunksOf (loadMarkdownDocs entries)))
                    +:+ " chunks into " +:+ COLLECTION
                    +:+ " (flat payloads, deterministic ids).")]
    | Throw e =>
        (exists site label e0 e1 e2,
            (done ++ [(site, label)]) `prefix_of` scheduled tb pb /\
            L = Lc ++ attempts_log (failure site) label 0 [e0; e1; e2; e]) \/
        (done `prefix_of` scheduled tb pb /\
         L = Lc /\
         exists L0 slice res,
           L = L0 ++ [EvEmbed slice (inr res)] /\
           ~ aligned (slice, res) /\
           e = Error (size_mismatch vector res slice))
    | Spin => False
    end.
Proof.
  unfold main. intros Hmain Hlog Hdocs Hchunks.
  destruct (loadMarkdownDocs entries) as [|d ds]; [done|].
  change (length (d :: ds) =? 0)%nat with false in Hmain. cbv iota in Hmain.
  destruct (chunksOf (d :: ds)) as [|c cs]; [done|].
  change (length (c :: cs) =? 0)%nat with false in Hmain. cbv iota in Hmain.
  destruct (chunkArray_partition (map text (c :: cs)) EMBED_BATCH)
    as (tb & Htb & Hcat & _); [done|].
  rewrite Htb in Hmain. unfold bind at 1 in Hmain.
  destruct (embedLoop tb 0 (length tb) [] st) as [re ste] eqn:He.
  destruct (embedLoop_spec _ _ _ _ _ _ _ He) as (Le & Hloge & Hupe & Hre).
  destruct (embedLoop_retried _ _ _ _ _ _ _ He) as (done_e & Lce & HRe & Hre').
  destruct re as [vectors|e|]; [| |done].
  - destruct Hre as (Hex & Hfst & Hal & Hv). cbn [app] in Hv.
    destruct Hre' as [-> Hloge'].
    assert (Lce = Le) as -> by (apply (app_inv_head (log st)); congruence).
    assert (Hlen : length vectors = length (c :: cs)).
    { rewrite Hv. unfold embedded. destruct (embedded_zip _ Hal) as [-> _].
      by rewrite Hfst, Hcat, length_map. }
    rewrite Hlen, Nat.eqb_refl in Hmain. cbn [negb] in Hmain. cbv iota in Hmain.
    destruct (chunkArray_partition (allPoints vector v5 (c :: cs) vectors) UPSERT_BATCH)
      as (pb & Hpb & Hpcat & _); [done|].
    rewrite Hpb in Hmain. unfold bind at 1 in Hmain.
    destruct (upsertLoop pb 0 (length pb) 0 ste) as [ru stu] eqn:Hu.
    destruct (upsertLoop_spec _ _ _ _ _ _ _ Hu) as (Lu & Hlogu & Hsu & Hupu & Hru).
    destruct (upsertLoop_retried _ _ _ _ _ _ _ Hu) as (done_u & Lcu & HRu & Hru').
    assert (Hemb : forall Lend, embed_successes Lend = [] ->
                                embedded (Le ++ Lu ++ Lend) = vectors).
    { intros Lend Hend. unfold embedded.
      rewrite !embed_successes_app, Hsu, Hend, !app_nil_r. by rewrite Hv. }
    destruct ru as [n|e|]; [| |done].
    + destruct Hru as [Hexu ->]. destruct Hru' as [-> Hlogu'].
      assert (Lcu = Lu) as -> by (apply (app_inv_head (log ste)); congruence).
      injection Hmain as <- <-. cbn [log] in Hlog.
      rewrite Hlogu, Hloge, <- !app_assoc in Hlog.
      apply app_inv_head in Hlog as <-.
      exists tb, pb, (embed_schedule 0 (length tb) tb ++ upsert_schedule 0 (length pb) pb),
        (Le ++ Lu).
      split; [done|]. split; [by rewrite Hemb|].
      split; [by apply Retried_app|]. split; [done|].
      rewrite <- app_assoc. do 5 f_equal.
      change (0 + length (concat pb))%nat with (length (concat pb)).
      rewrite Hpcat. unfold allPoints. by rewrite length_imap.
    + destruct Hru' as (site & label & e0 & e1 & e2 & Hpre & Hlogu').
      injection Hmain as <- <-.
      rewrite Hlogu', Hloge, <- !app_assoc in Hlog.
      apply app_inv_head in Hlog as <-.
      assert (Lu = Lcu ++ attempts_log (failure site) label 0 [e0; e1; e2; e]) as HLu
        by (apply (app_inv_head (log ste)); congruence).
      exists tb, pb, (embed_schedule 0 (length tb) tb ++ done_u), (Le ++ Lcu).
      split; [done|].
      split.
      { rewrite <- HLu. rewrite <- (app_nil_r Lu). by rewrite Hemb. }
      split; [by apply Retried_app|]. left.
      exists site, label, e0, e1, e2. split; [|by rewrite <- app_assoc].
      rewrite <- app_assoc. by apply prefix_app.
  - injection Hmain as <- <-.
    assert (Le = L) as -> by (apply (app_inv_head (log st)); congruence).
    destruct (chunkArray_partition (allPoints vector v5 (c :: cs) (embedded L)) UPSERT_BATCH)
      as (pb & Hpb & _); [done|].
    exists tb, pb, done_e, Lce. split; [done|]. split; [done|]. split; [done|].
    destruct Hre' as [(site & label & e0 & e1 & e2 & Hpre & Hlog')
                     |(Hpre & Hlog' & L0 & slice & res & HLc & Hbad & ->)].
    + left. exists site, label, e0, e1, e2. split; [by apply prefix_app_r|].
      apply (app_inv_head (log st)). congruence.
    + right. split; [by apply prefix_app_r|].
      assert (L = Lce) as -> by (apply (app_inv_head (log st)); congruence).
      split; [done|]. by exists L0, slice, res.
Qed.

Lemma attempts_log_four site label e0 e1 e2 e3 :
  attempts_log (failure site) label 0 [e0; e1; e2; e3] =
  attempts_log (failure site) label 0 [e0; e1; e2]
    ++ [failure site e3; EvWarn (warn_msg label 3 (backoff 3)); EvSleep (backoff 3)].
Proof. reflexivity. Qed.

Lemma failure_inj site site' e e' : failure site e = failure site' e' -> e = e'.
Proof. destruct site, site'; cbn; congruence. Qed.

(** C5. A call wrapped in [withRetry] is attempted at most four times:
    every failed attempt [k] (from 0) is followed by a warning and a sleep
    of [min (2000 * 2^k) 15000] ms, that is 2000, 4000, 8000 and 15000; the
    loop returns the first reply that is not an error, and after four
    errors it throws the last one.  Both network calls of the pipeline go
    through it: a run with chunks makes its calls in program order, one
    embedding call per batch of texts and then one upsert call per batch
    of points, and every call is attempted again after each failure, with
    these warnings and sleeps, until it is answered or has failed four
    times.  When [main] returns, every scheduled call was made and
    answered after fewer than four failures.  When [main] throws, either
    the log ends with the four failed attempts of the next scheduled call
    and the error thrown is the fourth, or it ends with an embedding answer
    of the wrong size.  In a run that shows four failed attempts of a call
    in a row, [main] throws the fourth error, nothing follows, and the
    process exits with status 1. *)
Theorem retry_is_bounded_with_backoff :
  (forall A (fn : M A) ev label (st : St) r st',
      performs fn ev ->
      withRetry vector W fn label st = (r, st') ->
      exists errs,
        (length errs = 4%nat /\
         r = Throw (List.last errs Undefined) /\
         log st' = log st ++ attempts_log (fun e => ev (inl e)) label 0 errs) \/
        ((length errs < 4)%nat /\
         exists a,
           r = Ok a /\
           log st' = log st ++ attempts_log (fun e => ev (inl e)) label 0 errs
                       ++ [ev (inr a)])) /\
  (forall model input, performs (call_embed model input) (EvEmbed input)) /\
  (forall collection points,
      performs (call_upsert collection points) (EvUpsert collection points)) /\
  (forall k, backoff k = Z.min (2000 * 2 ^ k) 15000) /\
  map backoff [0; 1; 2; 3] = [2000; 4000; 8000; 15000] /\
  (forall tb (pb : list (list (Point vector))),
      map fst (scheduled tb pb) = map AtEmbed tb ++ map (AtUpsert COLLECTION) pb) /\
  (forall entries (st : St) r st' L,
      main entries st = (r, st') ->
      log st' = log st ++ L ->
      loadMarkdownDocs entries <> [] ->
      chunksOf (loadMarkdownDocs entries) <> [] ->
      exists tb pb done Lc,
        chunkArray (map text (chunksOf (loadMarkdownDocs entries))) EMBED_BATCH
          = Some tb /\
        chunkArray (allPoints vector v5 (chunksOf (loadMarkdownDocs entries)) (embedded L))
          UPSERT_BATCH = Some pb /\
        Retried done Lc /\
        match r with
        | Ok _ =>
            done = scheduled tb pb /\
            L = Lc ++
              [EvLog ("✅ Upserted "
                        +:+ Str.of_nat (length (chunksOf (loadMarkdownDocs entries)))
                        +:+ " chunks into " +:+ COLLECTION
                        +:+ " (flat payloads, deterministic ids).")]
        | Throw e =>
            ((exists site label e0 e1 e2,
                 (done ++ [(site, label)]) `prefix_of` scheduled tb pb /\
                 L = Lc ++ attempts_log (failure site) label 0 [e0; e1; e2; e]) \/
             (done `prefix_of` scheduled tb pb /\
              L = Lc /\
              exists L0 slice res,
                L = L0 ++ [EvEmbed slice (inr res)] /\
                ~ aligned (slice, res) /\
                e = Error (size_mismatch vector res slice))) /\
            run entries st =
              (ExitCode 1, {| world := world st'; log := log st' ++ [EvError e] |})
        | Spin => False
        end) /\
  (forall entries (st : St) r st' pre c label e0 e1 e2 e3 post,
      main entries st = (r, st') ->
      log st' = log st ++ pre ++ attempts_log (failure c) label 0 [e0; e1; e2; e3] ++ post ->
      r = Throw e3 /\ post = [] /\
      run entries st =
        (ExitCode 1, {| world := world st'; log := log st' ++ [EvError e3] |})).
Proof.
  split; [intros A fn ev label st r st'; apply withRetry_spec|].
  split; [apply call_embed_performs|].
  split; [apply call_upsert_performs|].
  split; [done|]. split; [done|].
  split; [intros tb pb; apply scheduled_sites|].
  split.
  { intros entries st r st' L Hmain Hlog Hdocs Hchunks.
    destruct (main_retried _ _ _ _ _ Hmain Hlog Hdocs Hchunks)
      as (tb & pb & done & Lc & Htb & Hpb & HR & Hr).
    exists tb, pb, done, Lc. split; [done|]. split; [done|]. split; [done|].
    destruct r as [?|e|]; [done| |done].
    split; [done|]. by rewrite run_of_main, Hmain. }
  intros entries st r st' pre c label e0 e1 e2 e3 post Hmain Hlog.
  destruct (main_trace _ _ _ _ Hmain) as (L & Hlog' & Htrace).
  assert (L = pre ++ attempts_log (failure c) label 0 [e0; e1; e2; e3] ++ post) as HL
    by (apply (app_inv_head (log st)); congruence).
  rewrite attempts_log_four in HL.
  apply MainTrace_exhausted in Htrace.
  assert (Hex : exhausted L).
  { rewrite HL. apply exhausted_app. right. apply exhausted_app. left.
    apply exhausted_app. right. do 2 right. left. }
  assert (exists e, r = Throw e /\ exhausted_by e L) as (e & -> & L0 & c' & label' & HL' & Hquiet).
  { destruct r as [?|e|]; [done| |done]. destruct Htrace; [done|]. by exists e. }
  assert (post = []) as ->.
  { destruct post as [|x post _] using rev_ind; [done|]. exfalso.
    rewrite HL' in HL.
    change (L0 ++ [failure c' e; EvWarn (warn_msg label' 3 (backoff 3)); EvSleep (backoff 3)])
      with (L0 ++ [failure c' e; EvWarn (warn_msg label' 3 (backoff 3))] ++ [EvSleep (backoff 3)])
      in HL.
    rewrite !app_assoc in HL. apply app_inj_tail in HL as [HL _].
    rewrite <- !app_assoc in HL. cbn [app] in HL.
    assert (Hin : exhausted (L0 ++ [failure c' e; EvWarn (warn_msg label' 3 (backoff 3))])).
    { rewrite HL. apply exhausted_app. right. apply exhausted_app. right.
      unfold exhausted. do 2 right. left. }
    apply exhausted_app in Hin as [?|Hin]; [done|].
    apply elem_of_cons in Hin as [Hin|Hin]; [by destruct c'|].
    by apply list_elem_of_singleton in Hin. }
  rewrite app_nil_r, HL', app_assoc in HL.
  apply app_inj_2 in HL as [_ [= Hf _]]; [|done].
  apply failure_inj in Hf as ->.
  split; [done|]. split; [done|]. by rewrite run_of_main, Hmain.
Qed.

End Running.

(** ** The properties on concrete runs *)

(** C2 on a run whose provider fails once, then returns three vectors for
    four texts. *)
Lemma size_mismatch_is_fatal_witness :
  (Demo.main Demo.entries (Demo.start [Demo.Fail "e1"; Demo.Short])).1 =
    Throw (Error "Embedding size mismatch: got 3, expected 4") /\
  upsert_calls
    (log (Demo.main Demo.entries (Demo.start [Demo.Fail "e1"; Demo.Short])).2) = [] /\
  (Demo.run Demo.entries (Demo.start [Demo.Fail "e1"; Demo.Short])).1 = ExitCode 1.
Proof.
  set (out := Demo.main Demo.entries (Demo.start [Demo.Fail "e1"; Demo.Short])).
  destruct (size_mismatch_is_fatal Demo.vector Demo.W Demo.embeddings_create
              Demo.vectorDB_upsert Demo.markdownSections Demo.sentenceSplit Demo.v5
              Demo.headingMatch Demo.toLowerCase Demo.removeNonWord
              Demo.entries (Demo.start [Demo.Fail "e1"; Demo.Short])
              out.1 out.2 (log out.2) Demo.texts
              {| data := Some [6; 8; 4]%nat |}) as (Hr & _ & Hup & Hrun).
  - apply surjective_pairing.
  - reflexivity.
  - vm_compute. do 3 right. left.
  - intros d [= <-]. vm_compute. lia.
  - split; [exact Hr|]. split; [exact Hup|].
    unfold Demo.run. by rewrite Hrun.
Defined.

(** C4 on batches of two, and on a run whose provider fails on the first
    attempt and answers on the second. *)
Lemma batching_keeps_vectors_aligned_witness :
  chunkArray [1; 2; 3; 4; 5]%nat 2 = Some [[1; 2]; [3; 4]; [5]]%nat /\
  exists vectors st',
    embedLoop Demo.vector Demo.W Demo.embeddings_create [Demo.texts] 0 1 []
      (Demo.start [Demo.Fail "e1"]) = (Ok vectors, st') /\
    length vectors = 4%nat /\
    zip Demo.texts vectors =
      [("a||One", 6%nat); ("a||two", 6%nat); ("a||Three", 8%nat); ("b||x", 4%nat)].
Proof.
  destruct (batching_keeps_vectors_aligned Demo.vector Demo.W Demo.embeddings_create
              Demo.vectorDB_upsert Demo.markdownSections Demo.sentenceSplit Demo.v5
              Demo.headingMatch Demo.toLowerCase Demo.removeNonWord)
    as (Hcut & Hembed & _).
  split.
  - destruct (Hcut nat [1; 2; 3; 4; 5]%nat 2 ltac:(lia)) as (out & Hout & _).
    rewrite Hout. symmetry. rewrite <- Hout. reflexivity.
  - eexists _, _. split; [vm_compute; reflexivity|].
    edestruct (Hembed (Demo.chunksOf (loadMarkdownDocs Demo.entries)) [Demo.texts]
                 (Demo.start [Demo.Fail "e1"]))
      as (L & HL & _ & _ & _ & Hlen & Hzip & _).
    + vm_compute. reflexivity.
    + vm_compute. reflexivity.
    + split; [exact Hlen | reflexivity].
Defined.

(** C5 on a run whose provider fails four times in a row, and on a run
    where the provider and the store each fail once and are asked again. *)
Lemma retry_is_bounded_with_backoff_witness :
  (Demo.main Demo.entries (Demo.start Demo.four_failures)).1 = Throw (Fault "e4") /\
  (Demo.run Demo.entries (Demo.start Demo.four_failures)).1 = ExitCode 1 /\
  exists done Lc,
    Retried done Lc /\
    map snd done = ["embed-batch-1/1"; "upsert-1/1"] /\
    log (Demo.main Demo.entries (Demo.start Demo.flaky)).2 =
      Lc ++ [EvLog "✅ Upserted 4 chunks into kb_docs_v1 (flat payloads, deterministic ids)."].
Proof.
  set (st := Demo.start Demo.four_failures).
  destruct (retry_is_bounded_with_backoff Demo.vector Demo.W Demo.embeddings_create
              Demo.vectorDB_upsert Demo.markdownSections Demo.sentenceSplit Demo.v5
              Demo.headingMatch Demo.toLowerCase Demo.removeNonWord)
    as (_ & _ & _ & _ & _ & _ & Hcalls & Hrun).
  destruct (Hrun Demo.entries st (Demo.main Demo.entries st).1
              (Demo.main Demo.entries st).2 [] (AtEmbed Demo.texts)
              "embed-batch-1/1" (Fault "e1") (Fault "e2") (Fault "e3") (Fault "e4") [])
    as (Hr & _ & Hexit).
  - apply surjective_pairing.
  - vm_compute. reflexivity.
  - split; [exact Hr|]. split; [unfold Demo.run; by rewrite Hexit|].
    destruct (Hcalls Demo.entries (Demo.start Demo.flaky) (Ok tt)
                (Demo.main Demo.entries (Demo.start Demo.flaky)).2
                (log (Demo.main Demo.entries (Demo.start Demo.flaky)).2))
      as (tb & pb & done & Lc & Htb & Hpb & HR & -> & HL).
    + vm_compute. reflexivity.
    + reflexivity.
    + vm_compute. discriminate.
    + vm_compute. discriminate.
    + exists (scheduled tb pb), Lc. split; [exact HR|]. split; [|exact HL].
      vm_compute in Htb. injection Htb as <-.
      vm_compute in Hpb. injection Hpb as <-.
      vm_compute. reflexivity.
Defined.

(** C6 on an empty directory and on a file without a heading. *)
Lemma empty_input_exits_cleanly_witness :
  Demo.run [] (Demo.start [Demo.Fail "never asked"]) =
    (ExitCode 0,
     {| world := [Demo.Fail "never asked"];
        log := [EvWarn "No .md files in ./assets"] |}) /\
  Demo.run [Demo.file "a.md" "no heading"] (Demo.start [Demo.Fail "never asked"]) =
    (ExitCode 0,
     {| world := [Demo.Fail "never asked"];
        log := [EvWarn "No non-empty chunks produced. Check your Markdown and splitter settings."] |}).
Proof.
  split.
  - apply (empty_input_exits_cleanly Demo.vector Demo.W Demo.embeddings_create
             Demo.vectorDB_upsert Demo.markdownSections Demo.sentenceSplit Demo.v5
             Demo.headingMatch Demo.toLowerCase Demo.removeNonWord
             [] (Demo.start [Demo.Fail "never asked"])).
    reflexivity.
  - apply (empty_input_exits_cleanly Demo.vector Demo.W Demo.embeddings_create
             Demo.vectorDB_upsert Demo.markdownSections Demo.sentenceSplit Demo.v5
             Demo.headingMatch Demo.toLowerCase Demo.removeNonWord
             [Demo.file "a.md" "no heading"] (Demo.start [Demo.Fail "never asked"])).
    + vm_compute. discriminate.
    + vm_compute. reflexivity.
Defined.

(** C7 on a run without failures: the points of its upsert call. *)
Lemma no_blank_text_reaches_upsert_witness :
  Forall (fun pt =>
    payload pt ∈ Demo.chunksOf (loadMarkdownDocs Demo.entries) /\
    text (payload pt) <> "" /\
    Str.all_ws (text (payload pt)) = false /\ Str.stripped (text (payload pt)))
    (allPoints Demo.vector Demo.v5 (Demo.chunksOf (loadMarkdownDocs Demo.entries))
       [6; 6; 8; 4]%nat).
Proof.
  set (chunks := Demo.chunksOf (loadMarkdownDocs Demo.entries)).
  apply Forall_forall. intros pt Hpt.
  set (out := Demo.main Demo.entries (Demo.start [])).
  destruct (no_blank_text_reaches_upsert Demo.vector Demo.W Demo.embeddings_create
              Demo.vectorDB_upsert Demo.markdownSections Demo.sentenceSplit Demo.v5
              Demo.headingMatch Demo.toLowerCase Demo.removeNonWord
              Demo.entries (Demo.start []) out.1 out.2 (log out.2)) as [_ Hpoints].
  - apply surjective_pairing.
  - reflexivity.
  - apply (Hpoints COLLECTION
             (allPoints Demo.vector Demo.v5 chunks [6; 6; 8; 4]%nat) (inr tt) pt);
      [|exact Hpt].
    vm_compute. right. left.
Defined.

(** C8 on a file with two headings: two chunks under the first, one under
    the second. *)
Lemma sectionIndex_restarts_per_file_witness :
  map sectionIndex
    (Demo.chunksOf (loadMarkdownDocs [Demo.file "a.md" "intro #One. two.  #Three"]))
    = [1; 1; 2]%nat /\
  map chunkIndex
    (Demo.chunksOf (loadMarkdownDocs [Demo.file "a.md" "intro #One. two.  #Three"]))
    = [1; 2; 1]%nat.
Proof.
  destruct (sectionIndex_restarts_per_file Demo.markdownSections Demo.sentenceSplit
              Demo.headingMatch Demo.toLowerCase Demo.removeNonWord
              (loadMarkdownDocs [Demo.file "a.md" "intro #One. two.  #Three"]))
    as (groups & _ & _ & _ & Htwo).
  destruct (Htwo {| node_text := "One. two.  "; node_path := Some "a.md";
                    node_ext := Some ".md" |}
                 {| node_text := "Three"; node_path := Some "a.md";
                    node_ext := Some ".md" |})
    as (Hsec & Hidx & _).
  - vm_compute. reflexivity.
  - reflexivity.
  - unfold Demo.chunksOf. rewrite Hsec, Hidx. split; vm_compute; reflexivity.
Defined.

(** C9 (amended) on a file whose name does not start with white space. *)
Lemma chunk_text_is_trimmed_prefix_witness :
  Forall (fun c => exists t, text c = fileName c +:+ "||" +:+ t)
    (Demo.chunksOf (loadMarkdownDocs [Demo.file "a.md" "intro #One. two.  #Three"])).
Proof.
  apply Forall_forall.
  destruct (chunk_text_is_trimmed_prefix Demo.markdownSections Demo.sentenceSplit
              Demo.headingMatch Demo.toLowerCase Demo.removeNonWord
              (loadMarkdownDocs [Demo.file "a.md" "intro #One. two.  #Three"]))
    as [(groups & Hrun & Hall) _].
  intros c Hc. unfold Demo.chunksOf in Hc. rewrite Hrun in Hc.
  apply list_elem_of_In, in_concat in Hc as (g & Hg & Hc).
  apply list_elem_of_In, list_elem_of_lookup in Hg as [k Hk].
  apply list_elem_of_In, list_elem_of_lookup in Hc as [j Hj].
  destruct (Forall2_lookup_r _ _ _ _ _ Hall Hk) as (sec & Hsec & Hin).
  destruct (Forall2_lookup_r _ _ _ _ _ Hin Hj) as (t & _ & Hf & _ & _ & Himp).
  exists t. apply Himp. rewrite Hf.
  apply list_elem_of_lookup_2, list_elem_of_In in Hsec.
  vm_compute in Hsec. destruct Hsec as [<-|[<-|[]]]; vm_compute; by intros ch [= <-].
Defined.

(** C9 as stated fails for a file whose name starts with a space: the base
    name of [" b.md"] is [" b"], and the trimmed text of its chunk is
    ["b||x"], which does not begin with [" b||"]. *)
Lemma chunk_text_prefix_counterexample :
  Path.name " b.md" = " b" /\
  map text (partsLoop [{| node_text := "x"; node_path := Some " b.md";
                          node_ext := Some ".md" |}]
              " b.md" (Path.name " b.md") "b" "b" 1 0 []) = ["b||x"] /\
  ~ (forall c,
       c ∈ Demo.chunksOf (loadMarkdownDocs [Demo.file " b.md" "#x"]) ->
       exists raw, text c = fileName c +:+ "||" +:+ raw).
Proof.
  split; [reflexivity|]. split; [reflexivity|].
  intros H.
  destruct (H {| text := "b||x"; path := " b.md"; fileName := " b";
                 sectionTitle := "b"; sectionAnchor := "b";
                 sectionIndex := 1; chunkIndex := 1; source := "kb";
                 ext := Some ".md" |}) as [raw Hraw].
  - vm_compute. left.
  - vm_compute in Hraw. discriminate Hraw.
Qed.

(** * Further properties *)

(** ** The shape of the batches *)

Section BatchShape.

Context {T : Type}.
Implicit Types (arr : list T) (out : list (list T)) (size i : Z).

(** The batch pushed at step [k] after index [i] starts [k] steps further
    and is cut from what is left of the array; the loop stops as soon as the
    index has passed the end. *)
Lemma chunkArray_loop_shape fuel arr size i out :
  0 <= i -> 1 <= size ->
  (Z.to_nat (Z.of_nat (length arr) - i) < fuel)%nat ->
  exists bs,
    chunkArray_loop fuel arr size i out = Some (out ++ bs) /\
    (forall k b,
        bs !! k = Some b ->
        b = take (Z.to_nat size) (drop (Z.to_nat (i + Z.of_nat k * size)) arr) /\
        i + Z.of_nat k * size < Z.of_nat (length arr)) /\
    Z.of_nat (length arr) <= i + Z.of_nat (length bs) * size.
Proof.
  revert i out. induction fuel as [|fuel IH]; intros i out Hi Hs Hf; [lia|].
  cbn [chunkArray_loop].
  destruct (Z.ltb_spec i (Z.of_nat (length arr))) as [Hlt|Hge].
  - destruct (IH (i + size) (out ++ [slice arr i (i + size)]))
      as (bs & Hrun & Hat & Hend); [lia..|].
    exists (slice arr i (i + size) :: bs). split; [|split].
    + by rewrite Hrun, <- app_assoc.
    + intros [|k] b Hb; cbn in Hb.
      * injection Hb as <-. rewrite slice_step by lia.
        replace (i + Z.of_nat 0 * size) with i by lia. split; [done|lia].
      * destruct (Hat k b Hb) as [-> Hk].
        replace (i + Z.of_nat (S k) * size) with (i + size + Z.of_nat k * size)
          by lia.
        split; [done|lia].
    + cbn [length]. lia.
  - exists []. rewrite app_nil_r. split; [done|]. split; [|cbn; lia].
    by intros k b ?.
Qed.

(** The number of batches is the length over the size, rounded up. *)
Lemma chunkArray_count arr size out :
  1 <= size ->
  chunkArray arr size = Some out ->
  Z.of_nat (length arr) <= Z.of_nat (length out) * size
    < Z.of_nat (length arr) + size.
Proof.
  intros Hs Hrun.
  destruct (chunkArray_loop_shape (S (length arr)) arr size 0 [])
    as (bs & Hrun' & Hat & Hend); [lia..|].
  change ([] ++ bs) with bs in Hrun'.
  assert (bs = out) as -> by (unfold chunkArray, chunkArray_fuel in Hrun; congruence).
  split; [lia|]. clear Hrun Hrun' Hend.
  destruct out as [|b out' _] using rev_ind; [cbn; lia|].
  destruct (Hat (length out') b) as [_ Hk].
  { by rewrite lookup_app_r, Nat.sub_diag by lia. }
  rewrite length_app. cbn [length]. lia.
Qed.

End BatchShape.

(** X1. For a batch size of at least 1, batch [k] of [chunkArray] is the
    [size] items from index [k * size] on (fewer at the end of the array),
    every batch but the last holds exactly [size] items, and the number of
    batches is the length divided by [size], rounded up: none for an empty
    array. *)
Theorem chunkArray_batches_are_full (T : Type) (arr : list T) (size : Z) :
  1 <= size ->
  exists out,
    chunkArray arr size = Some out /\
    (forall k b,
        out !! k = Some b ->
        b = take (Z.to_nat size) (drop (k * Z.to_nat size) arr) /\
        ((S k < length out)%nat -> Z.of_nat (length b) = size)) /\
    Z.of_nat (length arr) <= Z.of_nat (length out) * size
      < Z.of_nat (length arr) + size /\
    (arr = [] -> out = []).
Proof.
  intros Hs.
  destruct (chunkArray_loop_shape (S (length arr)) arr size 0 [])
    as (out & Hrun & Hat & Hend); [lia..|].
  exists out. split; [exact Hrun|].
  assert (Hlast : Z.of_nat (length out) * size < Z.of_nat (length arr) + size).
  { clear Hrun Hend. destruct out as [|b out' _] using rev_ind; [cbn; lia|].
    destruct (Hat (length out') b) as [_ Hk].
    { by rewrite lookup_app_r, Nat.sub_diag by lia. }
    rewrite length_app. cbn [length]. lia. }
  split; [|split; [lia|]].
  - intros k b Hb. destruct (Hat k b Hb) as [-> Hk].
    replace (Z.to_nat (0 + Z.of_nat k * size)) with (k * Z.to_nat size)%nat by lia.
    split; [done|]. intros Hnext.
    destruct (lookup_lt_is_Some_2 out (S k) Hnext) as [b' Hb'].
    destruct (Hat (S k) b' Hb') as [_ Hk'].
    rewrite length_take, length_drop. lia.
  - intros ->. destruct out; [done|]. cbn [length] in *. lia.
Qed.

(** X1 on seven items in batches of three. *)
Lemma chunkArray_batches_are_full_witness :
  chunkArray [1; 2; 3; 4; 5; 6; 7]%nat 3 = Some [[1; 2; 3]; [4; 5; 6]; [7]]%nat.
Proof.
  destruct (chunkArray_batches_are_full nat [1; 2; 3; 4; 5; 6; 7]%nat 3 ltac:(lia))
    as (out & Hrun & _).
  rewrite Hrun. symmetry. rewrite <- Hrun. reflexivity.
Defined.

(** ** Slugs *)

Section Slugs.

Variable toLowerCase : string -> string.
Variable removeNonWord : string -> string.

Lemma replace_runs_empty p s : replace_runs p s = "" -> s = "".
Proof.
  induction s as [|c r IH]; [done|]. cbn [replace_runs].
  destruct (p c); [|done]. destruct r as [|d r']; [done|].
  destruct (p d); [|done]. by intros H%IH.
Qed.

Lemma replace_runs_no_ws s : has_ws (replace_runs Str.is_ws s) = false.
Proof.
  induction s as [|c r IH]; [done|].
  cbn [replace_runs]. destruct (Str.is_ws c) eqn:Hc.
  - destruct r as [|d r']; [done|].
    destruct (Str.is_ws d); [exact IH|]. cbn [has_ws]. by rewrite IH.
  - cbn [has_ws]. by rewrite Hc, IH.
Qed.

Lemma replace_hyphens_keeps_no_ws s :
  has_ws s = false -> has_ws (replace_runs is_hyphen s) = false.
Proof.
  induction s as [|c r IH]; [done|].
  cbn [has_ws]. intros [Hc Hr]%orb_false_elim.
  cbn [replace_runs]. destruct (is_hyphen c) eqn:Hh.
  - destruct r as [|d r']; [done|].
    destruct (is_hyphen d); [by apply IH|]. cbn [has_ws]. by rewrite IH.
  - cbn [has_ws]. by rewrite Hc, IH.
Qed.

Lemma replace_hyphens_no_double s : double_hyphen (replace_runs is_hyphen s) = false.
Proof.
  induction s as [|c r IH]; [done|].
  cbn [replace_runs]. destruct (is_hyphen c) eqn:Hc.
  - destruct r as [|d r']; [done|].
    destruct (is_hyphen d) eqn:Hd; [exact IH|].
    cbn [replace_runs] in IH |- *. rewrite Hd in IH |- *.
    cbn [double_hyphen] in IH |- *. rewrite Hd in IH |- *.
    by rewrite andb_false_r, orb_false_l in *.
  - cbn [double_hyphen]. by rewrite Hc, IH.
Qed.

Lemma slugify_clean s :
  has_ws (slugify toLowerCase removeNonWord s) = false /\
  double_hyphen (slugify toLowerCase removeNonWord s) = false.
Proof.
  unfold slugify. split.
  - apply replace_hyphens_keeps_no_ws, replace_runs_no_ws.
  - apply replace_hyphens_no_double.
Qed.

(** X2. Whatever the title and whatever characters the first replacement
    removes, the anchor [slugify] builds holds no white space and no two
    hyphens in a row, and an empty anchor comes from nothing but an empty
    remainder of the title. *)
Theorem slugify_has_no_space_nor_double_hyphen s :
  has_ws (slugify toLowerCase removeNonWord s) = false /\
  double_hyphen (slugify toLowerCase removeNonWord s) = false /\
  (slugify toLowerCase removeNonWord s = "" <->
   removeNonWord (Str.trim (toLowerCase s)) = "").
Proof.
  destruct (slugify_clean s) as [Hws Hdh]. split; [done|]. split; [done|].
  unfold slugify. split.
  - intros H%replace_runs_empty. by apply replace_runs_empty in H.
  - by intros ->.
Qed.

End Slugs.

(** ** The loader *)

Section Loader.

Implicit Types (s a b : string) (c : ascii).

Lemma split_ext_join b n e : Path.split_ext b = Some (n, e) -> n +:+ e = b.
Proof.
  revert n e. induction b as [|c r IH]; intros n e; [done|].
  cbn [Path.split_ext]. destruct (Path.split_ext r) as [[n' e']|].
  - intros [= <- <-]. by rewrite app_cons, (IH n' e').
  - destruct (decide (c = "."%char)); [|done]. by intros [= <- <-].
Qed.

Lemma split_ext_no_dot e : Str.occurs "." e = false -> Path.split_ext e = None.
Proof.
  induction e as [|c r IH]; [done|].
  cbn [Str.occurs Path.split_ext]. destruct (decide (c = "."%char)); [done|].
  intros H. by rewrite IH.
Qed.

Lemma split_ext_last_dot a e :
  Str.occurs "." e = false ->
  Path.split_ext (a +:+ String "." e) = Some (a, String "." e).
Proof.
  intros He. induction a as [|c a IH].
  - rewrite app_empty_l. cbn [Path.split_ext]. rewrite split_ext_no_dot by done.
    by rewrite decide_True.
  - rewrite app_cons. cbn [Path.split_ext]. by rewrite IH.
Qed.

Lemma basename_no_slash s : Str.occurs "/" s = false -> Path.basename s = s.
Proof.
  destruct s as [|c r]; [done|].
  cbn [Str.occurs Path.basename]. destruct (decide (c = "/"%char)); [done|].
  by intros ->.
Qed.

(** A name with extension [".md"] is a non-empty stem followed by it. *)
Lemma extname_md n :
  Path.extname n = ".md" ->
  Path.basename n = Path.name n +:+ ".md" /\ Path.name n <> "".
Proof.
  unfold Path.extname, Path.name, Path.parse.
  destruct (Path.split_ext (Path.basename n)) as [[stem e]|] eqn:Hsplit; [|done].
  apply split_ext_join in Hsplit.
  destruct stem as [|c stem]; [done|].
  destruct (decide (Path.basename n = "..")); [done|].
  cbn [fst snd]. intros ->. by rewrite Hsplit.
Qed.

Lemma parse_md stem :
  stem <> "" -> Str.occurs "/" stem = false ->
  Path.parse (stem +:+ ".md") = (stem, ".md").
Proof.
  intros Hne Hslash. unfold Path.parse.
  rewrite basename_no_slash by (rewrite occurs_app, Hslash; done).
  change (stem +:+ ".md") with (stem +:+ String "." "md").
  rewrite split_ext_last_dot by done.
  destruct stem as [|c stem]; [done|].
  destruct (decide (String c stem +:+ String "." "md" = "..")) as [E|]; [|done].
  rewrite app_cons in E. injection E as _ E. by destruct stem as [|? [|]].
Qed.

(** X3. [loadMarkdownDocs] keeps, in directory order, exactly the entries
    that are regular files with extension [".md"]: every document comes from
    such an entry, whose name is a non-empty stem followed by [".md"], and
    every regular file named that way (the stem without a separator) is
    loaded, the stem being what [path.parse] calls its name. *)
Theorem loadMarkdownDocs_keeps_md_files entries :
  loadMarkdownDocs entries =
    map (fun e => {| doc_text := content e; doc_path := name e;
                     doc_fileName := name e; doc_ext := ".md" |})
      (filter (fun e => isFile e = true /\ Path.extname (name e) = ".md") entries) /\
  (forall d,
      d ∈ loadMarkdownDocs entries ->
      exists e,
        e ∈ entries /\ isFile e = true /\
        doc_path d = name e /\ doc_text d = content e /\
        Path.basename (name e) = Path.name (doc_path d) +:+ ".md" /\
        Path.name (doc_path d) <> "") /\
  (forall e stem,
      e ∈ entries -> isFile e = true ->
      name e = stem +:+ ".md" -> stem <> "" -> Str.occurs "/" stem = false ->
      Path.name (name e) = stem /\
      {| doc_text := content e; doc_path := name e;
         doc_fileName := name e; doc_ext := ".md" |} ∈ loadMarkdownDocs entries).
Proof.
  assert (Hform : loadMarkdownDocs entries =
    map (fun e => {| doc_text := content e; doc_path := name e;
                     doc_fileName := name e; doc_ext := ".md" |})
      (filter (fun e => isFile e = true /\ Path.extname (name e) = ".md") entries)).
  { induction entries as [|e rest IH]; [done|].
    cbn [loadMarkdownDocs]. rewrite filter_cons.
    destruct (isFile e) eqn:Hf; cbn [negb].
    - destruct (String.eqb_spec (Path.extname (name e)) ".md") as [Hext|Hext];
        cbn [negb].
      + rewrite decide_True by done. cbn [map]. by rewrite IH.
      + rewrite decide_False by (by intros [_ ?]). exact IH.
    - rewrite decide_False by (by intros [? _]). exact IH. }
  split; [exact Hform|]. split.
  - intros d Hd. rewrite Hform in Hd.
    apply list_elem_of_fmap in Hd as (e & -> & [[Hf Hext] He]%list_elem_of_filter).
    exists e. cbn [doc_path doc_text]. destruct (extname_md _ Hext) as [Hb Hn].
    by repeat split.
  - intros e stem He Hf Hname Hne Hslash.
    pose proof (parse_md stem Hne Hslash) as Hparse. rewrite <- Hname in Hparse.
    split; [unfold Path.name; by rewrite Hparse|].
    rewrite Hform. apply list_elem_of_fmap. exists e. split; [done|].
    apply list_elem_of_filter.
    split; [|done]. split; [done|]. unfold Path.extname. by rewrite Hparse.
Qed.

End Loader.

(** X3 on a directory with a sub-directory, a text file, a file named
    [".md"] and two Markdown files. *)
Lemma loadMarkdownDocs_keeps_md_files_witness :
  map doc_path
    (loadMarkdownDocs
       [{| isFile := false; name := "dir.md"; content := "" |};
        Demo.file "notes.txt" "t"; Demo.file ".md" "hidden";
        Demo.file "a.md" "A"; Demo.file "b.c.md" "B"]) = ["a.md"; "b.c.md"] /\
  Path.name "b.c.md" = "b.c" /\
  Demo.file "b.c.md" "B" ∈
    [{| isFile := false; name := "dir.md"; content := "" |};
     Demo.file "notes.txt" "t"; Demo.file ".md" "hidden";
     Demo.file "a.md" "A"; Demo.file "b.c.md" "B"].
Proof.
  destruct (loadMarkdownDocs_keeps_md_files
              [{| isFile := false; name := "dir.md"; content := "" |};
               Demo.file "notes.txt" "t"; Demo.file ".md" "hidden";
               Demo.file "a.md" "A"; Demo.file "b.c.md" "B"])
    as (Hform & _ & Hload).
  assert (Hin : Demo.file "b.c.md" "B" ∈
    [{| isFile := false; name := "dir.md"; content := "" |};
     Demo.file "notes.txt" "t"; Demo.file ".md" "hidden";
     Demo.file "a.md" "A"; Demo.file "b.c.md" "B"]) by (do 4 right; left).
  destruct (Hload (Demo.file "b.c.md" "B") "b.c" Hin) as [Hname _];
    [reflexivity | reflexivity | discriminate | reflexivity |].
  split; [|split; [exact Hname | exact Hin]].
  rewrite Hform. reflexivity.
Defined.

(** ** Invariants of the chunk list *)

Section ChunkInvariants.

Variable markdownSections : list Document -> list TextNode.
Variable sentenceSplit : Z -> Z -> string -> list string.
Variable headingMatch : string -> option string.
Variable toLowerCase : string -> string.
Variable removeNonWord : string -> string.

Local Abbreviation splitSection :=
  (splitSection sentenceSplit CHUNK_SIZE CHUNK_OVERLAP).
Local Abbreviation sectionsLoop :=
  (sectionsLoop sentenceSplit headingMatch toLowerCase removeNonWord).
Local Abbreviation chunksOf :=
  (chunksOf markdownSections sentenceSplit headingMatch toLowerCase removeNonWord).
Local Abbreviation filePathOf sec := (default "unknown.md" (node_path sec)).

(** The counter of a path in the [Map] bounds the section numbers handed out
    for it so far, so the chunks of a new section collide with none. *)
Lemma sectionsLoop_positions secs (m : gmap string nat) chunks :
  NoDup (map position chunks) ->
  Forall (fun c => (sectionIndex c <= default 0 (m !! path c))%nat) chunks ->
  NoDup (map position (sectionsLoop secs m chunks)).
Proof.
  revert m chunks. induction secs as [|sec rest IH]; intros m chunks Hnd Hbound;
    [done|].
  cbn [sectionsLoop].
  set (fp := filePathOf sec).
  set (si := (default 0 (m !! fp) + 1)%nat).
  destruct (partsLoop_spec (splitSection sec) fp (Path.name fp)
              (inferSectionTitle headingMatch (node_text sec) fp)
              (slugify toLowerCase removeNonWord
                 (inferSectionTitle headingMatch (node_text sec) fp))
              si 0 chunks) as (new & -> & Hidx & Hall).
  assert (Hnew : forall c, c ∈ new -> path c = fp /\ sectionIndex c = si).
  { intros c [j Hj]%list_elem_of_lookup.
    by destruct (Forall2_lookup_r _ _ _ _ _ Hall Hj)
      as (part & _ & _ & ? & _ & _ & _ & ? & _). }
  apply IH.
  - rewrite map_app. apply NoDup_app. split; [done|]. split.
    + intros x (c & -> & Hc)%list_elem_of_fmap (c' & E & Hc')%list_elem_of_fmap.
      destruct (Hnew c' Hc') as [Hp Hs]. injection E as E1 E2 _.
      eapply (proj1 (Forall_forall _ _)) in Hbound; [|exact Hc].
      cbn beta in Hbound.
      replace (path c) with fp in Hbound by congruence.
      unfold si in Hs. lia.
    + apply (NoDup_fmap_1 snd). rewrite <- list_fmap_compose.
      change (snd ∘ position) with chunkIndex.
      change (chunkIndex <$> new) with (map chunkIndex new).
      rewrite Hidx. apply NoDup_seq.
  - apply Forall_app. split.
    + eapply Forall_impl; [exact Hbound|]. intros c Hc. cbn beta in *.
      rewrite lookup_insert. destruct (decide (fp = path c)) as [E|]; [|done].
      rewrite <- E in Hc. change (default 0%nat (Some si)) with si.
      unfold si. lia.
    + apply Forall_forall. intros c [-> ->]%Hnew.
      by rewrite lookup_insert, decide_True.
Qed.

(** X4. No two chunks of a run share their position [(path, sectionIndex,
    chunkIndex)]; so, for a hash without collisions in the namespace, the
    ids of the points of a run are pairwise distinct and no point overwrites
    another point of the same run. *)
Theorem positions_are_unique docs :
  NoDup (map position (chunksOf docs)) /\
  (forall (vector : Type) (v5 : string -> string -> string) (vectors : list vector),
      (forall a b, v5 a BASE_NS = v5 b BASE_NS -> a = b) ->
      NoDup (map id (allPoints vector v5 (chunksOf docs) vectors))).
Proof.
  assert (Hpos : NoDup (map position (chunksOf docs))).
  { apply sectionsLoop_positions; [constructor|constructor]. }
  split; [exact Hpos|].
  intros vector v5 vectors Hv5.
  set (hash := fun t : string * nat * nat =>
    stableId v5 {| id_path := t.1.1; id_sectionIndex := t.1.2;
                   id_chunkIndex := t.2; id_text := "" |}).
  assert (Hids : map id (allPoints vector v5 (chunksOf docs) vectors) =
                 map hash (map position (chunksOf docs))).
  { apply list_eq. intros i. unfold allPoints.
    rewrite !list_lookup_fmap, list_lookup_imap.
    by destruct (chunksOf docs !! i). }
  rewrite Hids. apply NoDup_fmap_2_strong; [|exact Hpos].
  intros [[p1 s1] c1] [[p2 s2] c2] _ _ E. unfold hash, stableId in E. cbn in E.
  by apply Hv5, canonical_name_inj in E as (-> & -> & ->).
Qed.

(** The fields every chunk of the loop carries. *)
Lemma sectionsLoop_fields (all : list TextNode) secs (m : gmap string nat) chunks
    (Q := fun c : Chunk =>
       exists sec,
         sec ∈ all /\
         path c = filePathOf sec /\
         fileName c = Path.name (path c) /\
         sectionTitle c = inferSectionTitle headingMatch (node_text sec) (path c) /\
         sectionAnchor c = slugify toLowerCase removeNonWord (sectionTitle c) /\
         source c = "kb" /\
         ext c = node_ext sec) :
  (forall sec, sec ∈ secs -> sec ∈ all) ->
  Forall Q chunks ->
  Forall Q (sectionsLoop secs m chunks).
Proof.
  revert m chunks. induction secs as [|sec rest IH]; intros m chunks Hall HQ;
    [done|].
  cbn [sectionsLoop].
  set (fp := filePathOf sec).
  destruct (partsLoop_spec (splitSection sec) fp (Path.name fp)
              (inferSectionTitle headingMatch (node_text sec) fp)
              (slugify toLowerCase removeNonWord
                 (inferSectionTitle headingMatch (node_text sec) fp))
              (default 0 (m !! fp) + 1)%nat 0 chunks) as (new & -> & _ & Hnew).
  apply IH; [intros s Hs; apply Hall; by right|].
  apply Forall_app. split; [done|].
  apply Forall_forall. intros c [j Hj]%list_elem_of_lookup.
  destruct (Forall2_lookup_r _ _ _ _ _ Hnew Hj)
    as (part & Hpart & _ & Hp & Hf & Ht & Ha & _ & Hs & He).
  apply list_elem_of_lookup_2 in Hpart.
  destruct (splitSection_part sentenceSplit sec part Hpart) as (_ & _ & Hext).
  exists sec. split; [apply Hall; by left|].
  rewrite Hp, Hf, Ht, Ha, Hs, He, Hext. by repeat split.
Qed.

(** X5. Every chunk of a run belongs to a section of the parser's output
    and its payload fields agree with one another: its path is the
    section's, its file name is the base name of that path, its title is
    the title inferred from the section's text, its anchor is the slug of
    its title, its source is ["kb"] and its [ext] is the section's.  The
    title is stripped of white space at both ends and the anchor holds no
    white space and no two hyphens in a row. *)
Theorem chunk_fields_are_consistent docs c :
  c ∈ chunksOf docs ->
  (exists sec,
      sec ∈ markdownSections docs /\
      path c = filePathOf sec /\
      fileName c = Path.name (path c) /\
      sectionTitle c = inferSectionTitle headingMatch (node_text sec) (path c) /\
      sectionAnchor c = slugify toLowerCase removeNonWord (sectionTitle c) /\
      source c = "kb" /\
      ext c = node_ext sec) /\
  Str.stripped (sectionTitle c) /\
  has_ws (sectionAnchor c) = false /\
  double_hyphen (sectionAnchor c) = false.
Proof.
  intros Hc.
  pose proof (sectionsLoop_fields (markdownSections docs) (markdownSections docs) ∅ []
                (fun _ H => H) (Forall_nil_2 _)) as Hall.
  eapply (proj1 (Forall_forall _ _)) in Hall; [|exact Hc].
  destruct Hall as (sec & Hsec & Hp & Hf & Ht & Ha & Hs & He).
  split; [by exists sec|].
  split; [rewrite Ht; apply trim_stripped|].
  rewrite Ha. apply slugify_clean.
Qed.

End ChunkInvariants.

(** X4 on the two demo files. *)
Lemma positions_are_unique_witness :
  NoDup (map id (allPoints Demo.vector Demo.v5
                   (Demo.chunksOf (loadMarkdownDocs Demo.entries)) [6; 6; 8; 4]%nat)).
Proof.
  destruct (positions_are_unique Demo.markdownSections Demo.sentenceSplit
              Demo.headingMatch Demo.toLowerCase Demo.removeNonWord
              (loadMarkdownDocs Demo.entries)) as [_ Hids].
  apply (Hids Demo.vector Demo.v5).
  intros a b. apply (inj (String.app BASE_NS)).
Defined.

(** X5 on the two demo files. *)
Lemma chunk_fields_are_consistent_witness :
  Forall (fun c => fileName c = Path.name (path c) /\ source c = "kb" /\
                   has_ws (sectionAnchor c) = false)
    (Demo.chunksOf (loadMarkdownDocs Demo.entries)).
Proof.
  apply Forall_forall. intros c Hc.
  destruct (chunk_fields_are_consistent Demo.markdownSections Demo.sentenceSplit
              Demo.headingMatch Demo.toLowerCase Demo.removeNonWord
              (loadMarkdownDocs Demo.entries) c Hc)
    as ((sec & _ & _ & Hf & _ & _ & Hs & _) & _ & Hws & _).
  by repeat split.
Defined.

(** ** Invariants of a run *)

Section RunInvariants.

Variable vector : Type.
Variable W : Type.
Variable embeddings_create :
  string -> list string -> W -> (Exn + EmbedResponse vector) * W.
Variable vectorDB_upsert :
  string -> list (Point vector) -> W -> (Exn + unit) * W.
Variable markdownSections : list Document -> list TextNode.
Variable sentenceSplit : Z -> Z -> string -> list string.
Variable v5 : string -> string -> string.
Variable headingMatch : string -> option string.
Variable toLowerCase : string -> string.
Variable removeNonWord : string -> string.

Local Abbreviation St := (St vector W).
Local Abbreviation M := (M vector W).
Local Abbreviation Event := (Event vector).
Local Abbreviation call_embed := (call_embed vector W embeddings_create).
Local Abbreviation call_upsert := (call_upsert vector W vectorDB_upsert).
Local Abbreviation embedLoop := (embedLoop vector W embeddings_create).
Local Abbreviation upsertLoop := (upsertLoop vector W vectorDB_upsert).
Local Abbreviation chunksOf :=
  (chunksOf markdownSections sentenceSplit headingMatch toLowerCase removeNonWord).
Local Abbreviation main :=
  (main vector W embeddings_create vectorDB_upsert markdownSections sentenceSplit
     v5 headingMatch toLowerCase removeNonWord).
Local Abbreviation run :=
  (run vector W embeddings_create vectorDB_upsert markdownSections sentenceSplit
     v5 headingMatch toLowerCase removeNonWord).
Local Abbreviation CallSite := (CallSite vector).

Implicit Types (L Le Lu : list Event) (site : CallSite).

(** *** The retry loop for any ceiling *)

(** X6. With a ceiling [tries] given explicitly, [withRetry] attempts the
    call at most [tries] times and never hangs: it returns the first reply
    that is not an error after fewer than [tries] failures, or throws the
    last error after exactly [tries] failures.  With a ceiling of zero or
    less it does not make the call at all and throws [undefined], leaving
    the state as it was. *)
Theorem withRetry_tries_is_bounded {A} (fn : M A) ev label tries (st : St) r st' :
  performs fn ev ->
  withRetry_tries vector W fn label tries st = (r, st') ->
  (exists errs,
      (Z.of_nat (length errs) = Z.max 0 tries /\
       r = Throw (List.last errs Undefined) /\
       log st' = log st ++ attempts_log (fun e => ev (inl e)) label 0 errs) \/
      (Z.of_nat (length errs) < tries /\
       exists a,
         r = Ok a /\
         log st' = log st ++ attempts_log (fun e => ev (inl e)) label 0 errs
                     ++ [ev (inr a)])) /\
  r <> Spin /\
  (tries <= 0 -> r = Throw Undefined /\ st' = st).
Proof.
  intros Hfn Hrun.
  assert (Hspec := Hrun). unfold withRetry_tries in Hspec.
  eapply (withRetry_loop_spec _ _ fn ev label tries Hfn) in Hspec
    as (errs & Hcase); [|lia].
  split; [|split].
  - exists errs. destruct Hcase as [(-> & -> & Hn)|(a & -> & -> & Hn)].
    + left. split; [lia|]. by split.
    + right. split; [lia|]. by exists a.
  - by destruct Hcase as [(-> & _)|(a & -> & _)].
  - intros Hle. unfold withRetry_tries in Hrun. cbn [withRetry_loop] in Hrun.
    destruct (Z.ltb_spec 0 tries); [lia|]. by injection Hrun as <- <-.
Qed.

(** *** Reading more of a log *)

Lemma embed_calls_app L1 L2 : embed_calls (L1 ++ L2) = embed_calls L1 ++ embed_calls L2.
Proof. apply flat_map_app. Qed.

Lemma upsert_successes_app L1 L2 :
  upsert_successes (L1 ++ L2) = upsert_successes L1 ++ upsert_successes L2.
Proof. apply flat_map_app. Qed.

Lemma upsert_targets_app L1 L2 :
  upsert_targets (L1 ++ L2) = upsert_targets L1 ++ upsert_targets L2.
Proof. apply flat_map_app. Qed.

Lemma slept_app L1 L2 : slept (L1 ++ L2) = slept L1 + slept L2.
Proof.
  induction L1 as [|ev L1 IH]; [done|].
  cbn [app]. unfold slept in *. cbn [foldr]. destruct ev; lia.
Qed.

(** What a projection sees of the failed attempts of a retry: the failures
    alone. *)
Lemma attempts_log_flat_map {X} (proj : Event -> list X) fail label attempt errs :
  (forall msg, proj (EvWarn msg) = []) ->
  (forall ms, proj (EvSleep ms) = []) ->
  flat_map proj (attempts_log fail label attempt errs) =
  flat_map (fun e => proj (fail e)) errs.
Proof.
  intros Hwarn Hsleep. revert attempt.
  induction errs as [|e errs IH]; intros attempt; [done|].
  cbn [attempts_log flat_map app]. by rewrite Hwarn, Hsleep, IH.
Qed.

Lemma attempts_log_slept site label errs :
  (length errs <= 4)%nat ->
  0 <= slept (attempts_log (failure site) label 0 errs) <= 29000 /\
  ((length errs < 4)%nat ->
   slept (attempts_log (failure site) label 0 errs) <= 14000).
Proof.
  intros Hlen.
  destruct errs as [|e0 [|e1 [|e2 [|e3 [|]]]]]; cbn [length] in Hlen; try lia;
    destruct site; vm_compute; (split; [split|]); intros; try discriminate; lia.
Qed.

Lemma flat_map_const_nil {X} (errs : list Exn) :
  flat_map (fun _ => @nil X) errs = [].
Proof. by induction errs. Qed.

Lemma flat_map_const_one {X} (x : X) (errs : list Exn) :
  Forall (fun y => y = x) (flat_map (fun _ => [x]) errs) /\
  length (flat_map (fun _ => [x]) errs) = length errs.
Proof.
  induction errs as [|e errs [IH1 IH2]]; [by split|].
  cbn. split; [by constructor|by rewrite IH2].
Qed.

(** One retried embedding call: every attempt sends the same batch, there
    are at most four of them, and the sleeps add up to at most 29 s, 14 s
    when the call comes back. *)
Lemma withRetry_embed_calls model input label (st : St) r st' :
  withRetry vector W (call_embed model input) label st = (r, st') ->
  exists L,
    log st' = log st ++ L /\
    Forall (fun i => i = input) (embed_calls L) /\
    (length (embed_calls L) <= 4)%nat /\
    upsert_targets L = [] /\ upsert_successes L = [] /\
    0 <= slept L <= 29000 /\
    (forall a, r = Ok a -> slept L <= 14000).
Proof.
  intros Hrun.
  apply (withRetry_spec _ _ _ _ _ _ _ _ (call_embed_performs _ _ _ model input)) in Hrun
    as (errs & [(Hn & -> & ->)|(Hn & res & -> & ->)]);
    change (fun e => EvEmbed input (inl e))
      with (failure (vector:=vector) (AtEmbed input));
    eexists; (split; [done|]);
    destruct (attempts_log_slept (AtEmbed input) label errs ltac:(lia)) as [Hs Hs'];
    destruct (flat_map_const_one input errs) as [Hall Hlen];
    unfold embed_calls, upsert_targets, upsert_successes;
    rewrite ?flat_map_app, !attempts_log_flat_map by done;
    cbn [failure flat_map app]; rewrite ?flat_map_const_nil, ?app_nil_r.
  - rewrite Hlen. repeat split; try done; try lia.
  - rewrite length_app, Hlen. cbn [length].
    rewrite slept_app. change (slept [EvEmbed input (inr res)]) with 0.
    specialize (Hs' Hn).
    repeat split; try done; try lia;
      try (apply Forall_app; split; [done|by constructor]).
Qed.

Lemma withRetry_upsert_calls collection points label (st : St) r st' :
  withRetry vector W (call_upsert collection points) label st = (r, st') ->
  exists L,
    log st' = log st ++ L /\
    embed_calls L = [] /\
    Forall (fun col => col = collection) (upsert_targets L) /\
    Forall (fun pts => pts = points) (upsert_calls L) /\
    (length (upsert_calls L) <= 4)%nat /\
    upsert_successes L = match r with Ok _ => [points] | _ => [] end /\
    0 <= slept L <= 29000 /\
    (forall a, r = Ok a -> slept L <= 14000).
Proof.
  intros Hrun.
  apply (withRetry_spec _ _ _ _ _ _ _ _ (call_upsert_performs _ _ _ collection points))
    in Hrun as (errs & [(Hn & -> & ->)|(Hn & res & -> & ->)]);
    change (fun e => EvUpsert collection points (inl e))
      with (failure (vector:=vector) (AtUpsert collection points));
    eexists; (split; [done|]);
    destruct (attempts_log_slept (AtUpsert collection points) label errs ltac:(lia))
      as [Hs Hs'];
    destruct (flat_map_const_one collection errs) as [Hall Hlen];
    destruct (flat_map_const_one points errs) as [Hall' Hlen'];
    unfold embed_calls, upsert_targets, upsert_successes, upsert_calls;
    rewrite ?flat_map_app, !attempts_log_flat_map by done;
    cbn [failure flat_map app]; rewrite ?flat_map_const_nil, ?app_nil_r.
  - rewrite Hlen'. repeat split; try done; try lia.
  - rewrite length_app, Hlen'. cbn [length].
    rewrite slept_app. change (slept [EvUpsert collection points (inr res)]) with 0.
    specialize (Hs' Hn).
    repeat split; try done; try lia;
      try (apply Forall_app; split; [done|by constructor]).
Qed.

(** X7. The retries of one network call, embedding or upsert, put the run
    to sleep for at most 29000 ms in total, and for at most 14000 ms when
    the call ends up answered. *)
Theorem retry_sleep_is_bounded label (st : St) :
  (forall model input r st',
      withRetry vector W (call_embed model input) label st = (r, st') ->
      exists L,
        log st' = log st ++ L /\ 0 <= slept L <= 29000 /\
        (forall a, r = Ok a -> slept L <= 14000)) /\
  (forall collection points r st',
      withRetry vector W (call_upsert collection points) label st = (r, st') ->
      exists L,
        log st' = log st ++ L /\ 0 <= slept L <= 29000 /\
        (forall a, r = Ok a -> slept L <= 14000)).
Proof.
  split.
  - intros model input r st' Hrun.
    apply withRetry_embed_calls in Hrun as (L & HL & _ & _ & _ & _ & Hs & Hok).
    by exists L.
  - intros collection points r st' Hrun.
    apply withRetry_upsert_calls in Hrun as (L & HL & _ & _ & _ & _ & _ & Hs & Hok).
    by exists L.
Qed.

(** *** The calls of the two stages *)

(** The embedding stage asks the provider for the batches it was given and
    nothing else, at most four times each, and leaves the vector store
    alone. *)
Lemma embedLoop_calls batches b total vs (st : St) r st' :
  embedLoop batches b total vs st = (r, st') ->
  exists L,
    log st' = log st ++ L /\
    Forall (fun i => i ∈ batches) (embed_calls L) /\
    (length (embed_calls L) <= 4 * length batches)%nat /\
    upsert_targets L = [] /\ upsert_successes L = [].
Proof.
  revert b vs st. induction batches as [|slice rest IH]; intros b vs st.
  - intros [= <- <-]. exists []. rewrite app_nil_r. by repeat split.
  - cbn [embedLoop]. unfold bind at 1.
    destruct (withRetry _ _ _ _ st) as [rr st1] eqn:Hretry.
    apply withRetry_embed_calls in Hretry
      as (L1 & Hlog1 & Hin1 & Hlen1 & Ht1 & Hs1 & _).
    assert (Hin1' : Forall (fun i => i ∈ slice :: rest) (embed_calls L1)).
    { eapply Forall_impl; [exact Hin1|]. intros i ->. by left. }
    assert (Hstop : forall r0, (r0, st1) = (r, st') ->
      exists L,
        log st' = log st ++ L /\
        Forall (fun i => i ∈ slice :: rest) (embed_calls L) /\
        (length (embed_calls L) <= 4 * length (slice :: rest))%nat /\
        upsert_targets L = [] /\ upsert_successes L = []).
    { intros r0 [= <- <-]. exists L1. cbn [length]. repeat split; try done. lia. }
    destruct rr as [res|e|]; [|by apply Hstop..].
    destruct (data res) as [d|]; [|by apply Hstop].
    destruct (negb (length d =? length slice)%nat); [by apply Hstop|].
    intros Hrun. apply IH in Hrun as (L2 & Hlog2 & Hin2 & Hlen2 & Ht2 & Hs2).
    exists (L1 ++ L2). split; [by rewrite Hlog2, Hlog1, <- app_assoc|].
    rewrite embed_calls_app, upsert_targets_app, upsert_successes_app.
    rewrite Ht1, Ht2, Hs1, Hs2, length_app. cbn [length].
    repeat split; try done; [|lia].
    apply Forall_app. split; [done|].
    eapply Forall_impl; [exact Hin2|]. intros i ?. by right.
Qed.

(** The upsert stage never asks for embeddings, names one collection,
    hands over the batches it was given, at most four times each, and the
    batches the store accepted are the first ones, in order: all of them
    when the stage returns. *)
Lemma upsertLoop_calls batches i total n (st : St) r st' :
  upsertLoop batches i total n st = (r, st') ->
  exists L,
    log st' = log st ++ L /\
    embed_calls L = [] /\
    Forall (fun col => col = COLLECTION) (upsert_targets L) /\
    Forall (fun pts => pts ∈ batches) (upsert_calls L) /\
    (length (upsert_calls L) <= 4 * length batches)%nat /\
    upsert_successes L `prefix_of` batches /\
    (forall k, r = Ok k -> upsert_successes L = batches).
Proof.
  revert i n st. induction batches as [|points rest IH]; intros i n st.
  - intros [= <- <-]. exists []. rewrite app_nil_r. by repeat split.
  - cbn [upsertLoop]. unfold bind at 1.
    destruct (withRetry _ _ _ _ st) as [rr st1] eqn:Hretry.
    apply withRetry_upsert_calls in Hretry
      as (L1 & Hlog1 & He1 & Ht1 & Hc1 & Hlen1 & Hs1 & _).
    assert (Hc1' : Forall (fun pts => pts ∈ points :: rest) (upsert_calls L1)).
    { eapply Forall_impl; [exact Hc1|]. intros pts ->. by left. }
    assert (Hstop : forall r0 : res nat,
      (forall u, rr <> Ok u) -> (forall k, r0 <> Ok k) ->
      (r0, st1) = (r, st') ->
      exists L,
        log st' = log st ++ L /\
        embed_calls L = [] /\
        Forall (fun col => col = COLLECTION) (upsert_targets L) /\
        Forall (fun pts => pts ∈ points :: rest) (upsert_calls L) /\
        (length (upsert_calls L) <= 4 * length (points :: rest))%nat /\
        upsert_successes L `prefix_of` points :: rest /\
        (forall k, r = Ok k -> upsert_successes L = points :: rest)).
    { intros r0 Hno Hno' [= <- <-]. exists L1. cbn [length].
      assert (upsert_successes L1 = []) as ->.
      { rewrite Hs1. destruct rr as [u| |]; [by destruct (Hno u)|done..]. }
      repeat split; try done; [lia|apply prefix_nil|].
      intros k ->. by destruct (Hno' k). }
    destruct rr as [[]|e|]; [|by apply Hstop..].
    intros Hrun. apply IH in Hrun
      as (L2 & Hlog2 & He2 & Ht2 & Hc2 & Hlen2 & Hs2 & Hok2).
    exists (L1 ++ L2). split; [by rewrite Hlog2, Hlog1, <- app_assoc|].
    rewrite embed_calls_app, upsert_targets_app, upsert_calls_app,
      upsert_successes_app, He1, He2, Hs1, length_app.
    cbn [length app].
    split; [done|]. split; [by apply Forall_app|].
    split.
    { apply Forall_app. split; [done|].
      eapply Forall_impl; [exact Hc2|]. intros pts ?. by right. }
    split; [lia|]. split; [by apply prefix_cons|].
    intros k Hk. by rewrite (Hok2 k Hk).
Qed.

(** *** The two phases of a run *)

(** A run logs an embedding phase and then an upsert phase.  The first
    holds every call to the provider, each for one of the text batches; the
    second holds every call to the vector store, each for one of the point
    batches, and the accepted batches are the first ones, in order. *)
Lemma main_phases entries (st : St) r st' :
  main entries st = (r, st') ->
  exists Le Lu tb pb,
    log st' = log st ++ Le ++ Lu /\
    upsert_targets Le = [] /\ upsert_successes Le = [] /\
    Forall (fun i => i ∈ tb) (embed_calls Le) /\
    (length (embed_calls Le) <= 4 * length tb)%nat /\
    (tb = [] \/
     chunkArray (map text (chunksOf (loadMarkdownDocs entries))) EMBED_BATCH = Some tb) /\
    embed_calls Lu = [] /\
    Forall (fun col => col = COLLECTION) (upsert_targets Lu) /\
    Forall (fun pts => pts ∈ pb) (upsert_calls Lu) /\
    (length (upsert_calls Lu) <= 4 * length pb)%nat /\
    upsert_successes Lu `prefix_of` pb /\
    (pb = [] \/
     chunkArray (allPoints vector v5 (chunksOf (loadMarkdownDocs entries)) (embedded Le))
       UPSERT_BATCH = Some pb) /\
    (r = Ok tt ->
     loadMarkdownDocs entries <> [] ->
     chunksOf (loadMarkdownDocs entries) <> [] ->
     chunkArray (allPoints vector v5 (chunksOf (loadMarkdownDocs entries)) (embedded Le))
       UPSERT_BATCH = Some pb /\
     upsert_successes Lu = pb /\
     exists Lu0,
       Lu = Lu0 ++
         [EvLog ("✅ Upserted "
                   +:+ Str.of_nat (length (chunksOf (loadMarkdownDocs entries)))
                   +:+ " chunks into " +:+ COLLECTION
                   +:+ " (flat payloads, deterministic ids).")]).
Proof.
  unfold main.
  destruct (loadMarkdownDocs entries) as [|d ds] eqn:Hdocs.
  { intros [= <- <-]. eexists [_], [], [], []. cbn [log].
    rewrite app_nil_r. repeat split; try done; by left. }
  change (length (d :: ds) =? 0)%nat with false. cbv iota.
  destruct (chunksOf (d :: ds)) as [|c cs] eqn:Hchunks.
  { intros [= <- <-]. eexists [_], [], [], []. cbn [log].
    rewrite app_nil_r. repeat split; try done; by left. }
  change (length (c :: cs) =? 0)%nat with false. cbv iota.
  destruct (chunkArray_partition (map text (c :: cs)) EMBED_BATCH)
    as (tb & Htb & Hcat & _); [done|].
  rewrite Htb. unfold bind at 1.
  destruct (embedLoop tb 0 (length tb) [] st) as [re ste] eqn:He.
  destruct (embedLoop_spec _ _ _ _ _ _ _ _ _ _ He) as (Le & Hlog & _ & Hre).
  destruct (embedLoop_calls _ _ _ _ _ _ _ He) as (Le' & Hlog' & Hin & Hlen & Ht & Hs).
  assert (Le' = Le) as -> by (apply (app_inv_head (log st)); congruence).
  assert (Hstop : forall r0 : res unit,
    (forall u, r0 <> Ok u) -> (r0, ste) = (r, st') ->
    exists Le Lu tb0 pb,
      log st' = log st ++ Le ++ Lu /\
      upsert_targets Le = [] /\ upsert_successes Le = [] /\
      Forall (fun i => i ∈ tb0) (embed_calls Le) /\
      (length (embed_calls Le) <= 4 * length tb0)%nat /\
      (tb0 = [] \/ Some tb = Some tb0) /\
      embed_calls Lu = [] /\
      Forall (fun col => col = COLLECTION) (upsert_targets Lu) /\
      Forall (fun pts => pts ∈ pb) (upsert_calls Lu) /\
      (length (upsert_calls Lu) <= 4 * length pb)%nat /\
      upsert_successes Lu `prefix_of` pb /\
      (pb = [] \/
       chunkArray (allPoints vector v5 (c :: cs) (embedded Le)) UPSERT_BATCH = Some pb) /\
      (r = Ok tt -> d :: ds <> [] -> c :: cs <> [] ->
       chunkArray (allPoints vector v5 (c :: cs) (embedded Le)) UPSERT_BATCH = Some pb /\
       upsert_successes Lu = pb /\
       exists Lu0,
         Lu = Lu0 ++
           [EvLog ("✅ Upserted " +:+ Str.of_nat (length (c :: cs))
                     +:+ " chunks into " +:+ COLLECTION
                     +:+ " (flat payloads, deterministic ids).")])).
  { intros r0 Hno [= <- <-]. exists Le, [], tb, []. rewrite app_nil_r.
    repeat split; try done; try (by right); try (by left).
    all: by exfalso; eapply Hno. }
  destruct re as [vectors|e|].
  2: { intros Hr. by apply (Hstop (Throw e)). }
  2: { intros Hr. by apply (Hstop Spin). }
  destruct Hre as (_ & Hfst & Hal & Hv). cbn [app] in Hv.
  assert (Hvlen : length vectors = length (c :: cs)).
  { rewrite Hv. unfold embedded. destruct (embedded_zip _ _ Hal) as [-> _].
    by rewrite Hfst, Hcat, length_map. }
  rewrite Hvlen, Nat.eqb_refl. cbn [negb]. cbv iota.
  destruct (chunkArray_partition (allPoints vector v5 (c :: cs) vectors) UPSERT_BATCH)
    as (pb & Hpb & Hpcat & _); [done|].
  rewrite Hpb. unfold bind at 1.
  destruct (upsertLoop pb 0 (length pb) 0 ste) as [ru stu] eqn:Hu.
  destruct (upsertLoop_spec _ _ _ _ _ _ _ _ _ _ Hu) as (Lx & _ & _ & _ & Hcount).
  destruct (upsertLoop_calls _ _ _ _ _ _ _ Hu)
    as (Lu & Hlogu & Heu & Htu & Hcu & Hlenu & Hpre & Hok).
  rewrite Hv in Hpb.
  destruct ru as [upserted|e|].
  - destruct Hcount as [_ ->]. intros [= <- <-].
    exists Le, (Lu ++ [EvLog ("✅ Upserted " +:+ Str.of_nat (length (c :: cs))
                                +:+ " chunks into " +:+ COLLECTION
                                +:+ " (flat payloads, deterministic ids).")]), tb, pb.
    rewrite embed_calls_app, upsert_targets_app, upsert_calls_app,
      upsert_successes_app, !app_nil_r.
    split.
    { cbn [log]. rewrite Hlogu, Hlog, <- !app_assoc. do 4 f_equal.
      change (0 + length (concat pb))%nat with (length (concat pb)).
      rewrite Hpcat. unfold allPoints. by rewrite length_imap. }
    repeat split; try done; try (by right).
    + by apply Hok with (k := (0 + length (concat pb))%nat).
    + by eexists.
  - intros [= <- <-]. exists Le, Lu, tb, pb.
    split; [by rewrite Hlogu, Hlog, <- !app_assoc|].
    repeat split; try done; by right.
  - intros [= <- <-]. exists Le, Lu, tb, pb.
    split; [by rewrite Hlogu, Hlog, <- !app_assoc|].
    repeat split; try done; by right.
Qed.

Lemma embed_calls_nil_successes L : embed_calls L = [] -> embed_successes L = [].
Proof.
  induction L as [|ev L IH]; [done|].
  destruct ev as [| |input [e|res]| | |]; cbn; try done; exact IH.
Qed.

Lemma upsert_targets_nil_calls L : upsert_targets L = [] -> upsert_calls L = [].
Proof.
  induction L as [|ev L IH]; [done|].
  destruct ev; cbn; try done; exact IH.
Qed.

Lemma embed_calls_elem L input reply : EvEmbed input reply ∈ L -> input ∈ embed_calls L.
Proof.
  intros (L1 & L2 & ->)%list_elem_of_split.
  rewrite embed_calls_app. apply elem_of_app. right. by left.
Qed.

Lemma upsert_targets_elem L collection points reply :
  EvUpsert collection points reply ∈ L -> collection ∈ upsert_targets L.
Proof.
  intros (L1 & L2 & ->)%list_elem_of_split.
  rewrite upsert_targets_app. apply elem_of_app. right. by left.
Qed.

Lemma concat_prefix {X} (l k : list (list X)) :
  l `prefix_of` k -> concat l `prefix_of` concat k.
Proof. intros [k' ->]. rewrite concat_app. by eexists. Qed.

(** X8. A run embeds first and upserts afterwards: once the vector store
    has been called, the embedding provider is not called again, and by
    then every chunk text has been embedded, by calls that came back with
    one vector per text. *)
Theorem embedding_precedes_upserts entries (st : St) r st' L
    L1 collection points reply L2 :
  main entries st = (r, st') ->
  log st' = log st ++ L ->
  L = L1 ++ EvUpsert collection points reply :: L2 ->
  embed_calls L2 = [] /\
  concat (map fst (embed_successes L1)) =
    map text (chunksOf (loadMarkdownDocs entries)) /\
  Forall aligned (embed_successes L1).
Proof.
  intros Hmain Hlog HL.
  destruct (main_trace _ _ _ _ _ _ _ _ _ _ _ _ _ _ Hmain) as (L' & Hlog' & Htrace).
  assert (L' = L) as -> by (apply (app_inv_head (log st)); congruence).
  destruct (main_phases _ _ _ _ Hmain)
    as (Le & Lu & tb & pb & Hsplit & Ht & _ & _ & _ & _ & He & _).
  assert (L = Le ++ Lu) as HL' by (apply (app_inv_head (log st)); congruence).
  assert (exists l, L1 = Le ++ l /\ Lu = l ++ EvUpsert collection points reply :: L2)
    as (l & -> & ->).
  { rewrite HL in HL'. symmetry in HL'.
    apply app_eq_inv in HL' as [(l & -> & Hl)|(l & -> & ->)]; [|by exists l].
    destruct l as [|ev l].
    - cbn [app] in Hl. exists []. by rewrite !app_nil_r, Hl.
    - injection Hl as <- _. rewrite upsert_targets_app in Ht.
      by apply app_eq_nil in Ht as [_ ?]. }
  rewrite !embed_calls_app in He. apply app_eq_nil in He as [Hl He].
  cbn [embed_calls flat_map app] in He.
  split; [exact He|].
  assert (Hev : points ∈ upsert_calls L).
  { rewrite HL, upsert_calls_app. apply elem_of_app. right. by left. }
  destruct (MainTrace_upsert _ _ _ _ _ _ _ _ _ _ _ Htrace Hev) as (Hcat & Hal & _).
  assert (embed_successes L = embed_successes (Le ++ l)) as Heq.
  { rewrite HL, embed_successes_app. cbn [embed_successes flat_map app].
    fold (embed_successes L2). by rewrite (embed_calls_nil_successes L2 He), app_nil_r. }
  by rewrite <- Heq.
Qed.

(** X9. In any run, every request to the embedding provider is one of the
    consecutive batches of the chunk texts and holds between 1 and 128
    texts; every request to the vector store names the collection
    [kb_docs_v1] and holds between 1 and 2000 points; and with retries
    counted, the provider and the store are each called at most four times
    per batch. *)
Theorem calls_respect_batch_limits entries (st : St) r st' L :
  main entries st = (r, st') ->
  log st' = log st ++ L ->
  (forall input reply,
      EvEmbed input reply ∈ L ->
      (1 <= length input <= 128)%nat /\
      exists tb,
        chunkArray (map text (chunksOf (loadMarkdownDocs entries))) EMBED_BATCH = Some tb /\
        input ∈ tb) /\
  (forall collection points reply,
      EvUpsert collection points reply ∈ L ->
      collection = COLLECTION /\ (1 <= length points <= 2000)%nat) /\
  Z.of_nat (length (embed_calls L)) * 128
    < 4 * (Z.of_nat (length (chunksOf (loadMarkdownDocs entries))) + 128) /\
  Z.of_nat (length (upsert_calls L)) * 2000
    < 4 * (Z.of_nat (length (chunksOf (loadMarkdownDocs entries))) + 2000).
Proof.
  intros Hmain Hlog.
  destruct (main_phases _ _ _ _ Hmain)
    as (Le & Lu & tb & pb & Hsplit & Ht & _ & Hin & Hlen & Htb & He & Htu & Hcu
        & Hlenu & _ & Hpb & _).
  assert (L = Le ++ Lu) as -> by (apply (app_inv_head (log st)); congruence).
  pose proof (upsert_targets_nil_calls _ Ht) as Hc.
  rewrite embed_calls_app, upsert_calls_app, He, Hc, app_nil_r. cbn [app].
  split; [|split; [|split]].
  - intros input reply Hev%embed_calls_elem.
    rewrite embed_calls_app, He, app_nil_r in Hev.
    eapply (proj1 (Forall_forall _ _)) in Hin; [|exact Hev].
    destruct Htb as [->|Htb]; [by apply elem_of_nil in Hin|].
    destruct (chunkArray_partition
                (map text (chunksOf (loadMarkdownDocs entries))) EMBED_BATCH)
      as (out & Hout & _ & Hsizes); [done|].
    assert (out = tb) as -> by congruence.
    eapply (proj1 (Forall_forall _ _)) in Hsizes; [|exact Hin].
    split; [unfold EMBED_BATCH in Hsizes; lia|]. by exists tb.
  - intros collection points reply Hev.
    pose proof (upsert_targets_elem _ _ _ _ Hev) as Hcol.
    pose proof (upsert_calls_elem _ _ _ _ _ Hev) as Hpts.
    rewrite upsert_targets_app, Ht in Hcol. cbn [app] in Hcol.
    rewrite upsert_calls_app, Hc in Hpts. cbn [app] in Hpts.
    eapply (proj1 (Forall_forall _ _)) in Htu; [|exact Hcol].
    eapply (proj1 (Forall_forall _ _)) in Hcu; [|exact Hpts].
    split; [done|].
    destruct Hpb as [->|Hpb]; [by apply elem_of_nil in Hcu|].
    destruct (chunkArray_partition
                (allPoints vector v5 (chunksOf (loadMarkdownDocs entries)) (embedded Le))
                UPSERT_BATCH) as (out & Hout & _ & Hsizes); [done|].
    assert (out = pb) as -> by congruence.
    eapply (proj1 (Forall_forall _ _)) in Hsizes; [|exact Hcu].
    unfold UPSERT_BATCH in Hsizes. lia.
  - destruct Htb as [->|Htb]; [cbn [length] in Hlen; lia|].
    apply chunkArray_count in Htb; [|done].
    rewrite length_map in Htb. unfold EMBED_BATCH in Htb. lia.
  - destruct Hpb as [->|Hpb]; [cbn [length] in Hlenu; lia|].
    apply chunkArray_count in Hpb; [|done].
    unfold allPoints in Hpb. rewrite length_imap in Hpb.
    unfold UPSERT_BATCH in Hpb. lia.
Qed.

(** X10. The point batches the vector store has accepted in a run are
    always the first points of [allPoints], in chunk order and each once.
    When [main] returns for a corpus with chunks, they are all of them: every
    chunk has been upserted exactly once, with its vector, and the last
    thing logged is the report of as many chunks as the corpus has. *)
Theorem accepted_points_are_a_prefix entries (st : St) r st' L :
  main entries st = (r, st') ->
  log st' = log st ++ L ->
  concat (upsert_successes L) `prefix_of`
    allPoints vector v5 (chunksOf (loadMarkdownDocs entries)) (embedded L) /\
  (r = Ok tt ->
   loadMarkdownDocs entries <> [] ->
   chunksOf (loadMarkdownDocs entries) <> [] ->
   concat (upsert_successes L) =
     allPoints vector v5 (chunksOf (loadMarkdownDocs entries)) (embedded L) /\
   map payload (concat (upsert_successes L)) = chunksOf (loadMarkdownDocs entries) /\
   exists L0,
     L = L0 ++
       [EvLog ("✅ Upserted "
                 +:+ Str.of_nat (length (chunksOf (loadMarkdownDocs entries)))
                 +:+ " chunks into " +:+ COLLECTION
                 +:+ " (flat payloads, deterministic ids).")]).
Proof.
  intros Hmain Hlog.
  destruct (main_phases _ _ _ _ Hmain)
    as (Le & Lu & tb & pb & Hsplit & _ & Hs & _ & _ & _ & He & _ & _ & _
        & Hpre & Hpb & Hok).
  assert (L = Le ++ Lu) as -> by (apply (app_inv_head (log st)); congruence).
  assert (Hemb : embedded (Le ++ Lu) = embedded Le).
  { unfold embedded.
    by rewrite embed_successes_app, (embed_calls_nil_successes Lu He), app_nil_r. }
  rewrite upsert_successes_app, Hs, Hemb. cbn [app].
  split.
  - destruct Hpb as [->|Hpb].
    + apply prefix_nil_inv in Hpre as ->. apply prefix_nil.
    + destruct (chunkArray_partition
                  (allPoints vector v5 (chunksOf (loadMarkdownDocs entries)) (embedded Le))
                  UPSERT_BATCH) as (out & Hout & Hcat & _); [done|].
      assert (out = pb) as -> by congruence.
      rewrite <- Hcat. by apply concat_prefix.
  - intros Hr Hdocs Hchunks. destruct (Hok Hr Hdocs Hchunks) as (Hpb' & -> & Lu0 & ->).
    destruct (chunkArray_partition
                (allPoints vector v5 (chunksOf (loadMarkdownDocs entries)) (embedded Le))
                UPSERT_BATCH) as (out & Hout & Hcat & _); [done|].
    assert (out = pb) as -> by congruence.
    rewrite Hcat. split; [done|]. split; [apply allPoints_payload|].
    exists (Le ++ Lu0). by rewrite app_assoc.
Qed.

(** X11. Every run ends: the process exits with status 0 or 1, never
    hangs, and exits with status 1 exactly when [main] rejects; the
    rejection is then the last thing logged, and nothing else is added to
    what [main] logged. *)
Theorem run_exits_with_zero_or_one entries (st : St) :
  exists code st',
    run entries st = (ExitCode code, st') /\
    (code = 0 \/ code = 1) /\
    world st' = world (main entries st).2 /\
    ((main entries st).1 = Ok tt -> code = 0 /\ log st' = log (main entries st).2) /\
    (forall e,
        (main entries st).1 = Throw e ->
        code = 1 /\ log st' = log (main entries st).2 ++ [EvError e]).
Proof.
  pose proof (main_returns _ _ embeddings_create vectorDB_upsert markdownSections
                sentenceSplit v5 headingMatch toLowerCase removeNonWord entries st)
    as Hret.
  rewrite run_of_main. destruct (main entries st) as [[[]|e|] st1]; [| |done].
  - exists 0, st1. cbn [fst snd]. split; [done|]. split; [by left|]. by repeat split.
  - exists 1, {| world := world st1; log := log st1 ++ [EvError e] |}.
    cbn [fst snd world log]. split; [done|]. split; [by right|].
    split; [done|]. split; [done|]. by intros e' [= <-].
Qed.

End RunInvariants.

(** ** Further properties on concrete runs *)

(** X6 on a provider that keeps failing, with a ceiling of two and of zero. *)
Lemma withRetry_tries_is_bounded_witness :
  (withRetry_tries Demo.vector Demo.W
     (call_embed Demo.vector Demo.W Demo.embeddings_create
        "text-embedding-3-small" ["a"])
     "embed" 2 (Demo.start Demo.four_failures)).1 <> Spin /\
  withRetry_tries Demo.vector Demo.W
    (call_embed Demo.vector Demo.W Demo.embeddings_create
       "text-embedding-3-small" ["a"])
    "embed" 0 (Demo.start Demo.four_failures) =
    (Throw Undefined, Demo.start Demo.four_failures).
Proof.
  set (fn := call_embed Demo.vector Demo.W Demo.embeddings_create
               "text-embedding-3-small" ["a"]).
  set (st := Demo.start Demo.four_failures).
  split.
  - destruct (withRetry_tries_is_bounded Demo.vector Demo.W fn (EvEmbed ["a"])
                "embed" 2 st
                (withRetry_tries Demo.vector Demo.W fn "embed" 2 st).1
                (withRetry_tries Demo.vector Demo.W fn "embed" 2 st).2)
      as (_ & Hr & _).
    + apply call_embed_performs.
    + apply surjective_pairing.
    + exact Hr.
  - destruct (withRetry_tries_is_bounded Demo.vector Demo.W fn (EvEmbed ["a"])
                "embed" 0 st
                (withRetry_tries Demo.vector Demo.W fn "embed" 0 st).1
                (withRetry_tries Demo.vector Demo.W fn "embed" 0 st).2)
      as (_ & _ & Hzero).
    + apply call_embed_performs.
    + apply surjective_pairing.
    + destruct (Hzero ltac:(lia)) as [Hr Hst].
      rewrite (surjective_pairing (withRetry_tries _ _ fn "embed" 0 st)).
      by rewrite Hr, Hst.
Defined.

(** X7 on a provider that fails four times in a row. *)
Lemma retry_sleep_is_bounded_witness :
  0 <= slept (log (withRetry Demo.vector Demo.W
                     (call_embed Demo.vector Demo.W Demo.embeddings_create
                        "text-embedding-3-small" ["a"])
                     "embed" (Demo.start Demo.four_failures)).2) <= 29000.
Proof.
  set (fn := call_embed Demo.vector Demo.W Demo.embeddings_create
               "text-embedding-3-small" ["a"]).
  set (st := Demo.start Demo.four_failures).
  destruct (retry_sleep_is_bounded Demo.vector Demo.W Demo.embeddings_create
              Demo.vectorDB_upsert "embed" st) as [Hembed _].
  destruct (Hembed "text-embedding-3-small" ["a"]
              (withRetry Demo.vector Demo.W fn "embed" st).1
              (withRetry Demo.vector Demo.W fn "embed" st).2)
    as (L & HL & Hs & _).
  - apply surjective_pairing.
  - change (log st ++ L) with L in HL. fold fn st. by rewrite HL.
Defined.

(** X8 on a run where the provider and the store each fail once: the fifth
    event of the log is the first upsert. *)
Lemma embedding_precedes_upserts_witness :
  embed_calls (drop 5 (log (Demo.main Demo.entries (Demo.start Demo.flaky)).2)) = [] /\
  concat (map fst (embed_successes
                     (take 4 (log (Demo.main Demo.entries (Demo.start Demo.flaky)).2))))
    = Demo.texts.
Proof.
  set (st := Demo.start Demo.flaky).
  set (Lg := log (Demo.main Demo.entries st).2).
  destruct (embedding_precedes_upserts Demo.vector Demo.W Demo.embeddings_create
              Demo.vectorDB_upsert Demo.markdownSections Demo.sentenceSplit Demo.v5
              Demo.headingMatch Demo.toLowerCase Demo.removeNonWord
              Demo.entries st (Demo.main Demo.entries st).1 (Demo.main Demo.entries st).2
              Lg (take 4 Lg) COLLECTION (default [] (upsert_calls Lg !! 0%nat))
              (inl (Fault "u1")) (drop 5 Lg))
    as (Hafter & Hbefore & _).
  - apply surjective_pairing.
  - reflexivity.
  - vm_compute. reflexivity.
  - split; [exact Hafter|]. rewrite Hbefore. vm_compute. reflexivity.
Defined.

(** X9 on the same run: six events, two requests to the provider and two
    to the store. *)
Lemma calls_respect_batch_limits_witness :
  Forall (fun ev : Event Demo.vector =>
            match ev with
            | EvEmbed input _ => (1 <= length input <= 128)%nat
            | EvUpsert collection points _ =>
                collection = COLLECTION /\ (1 <= length points <= 2000)%nat
            | _ => True
            end)
    (log (Demo.main Demo.entries (Demo.start Demo.flaky)).2) /\
  Z.of_nat (length (embed_calls
                      (log (Demo.main Demo.entries (Demo.start Demo.flaky)).2))) * 128
    < 4 * (4 + 128).
Proof.
  set (st := Demo.start Demo.flaky).
  destruct (calls_respect_batch_limits Demo.vector Demo.W Demo.embeddings_create
              Demo.vectorDB_upsert Demo.markdownSections Demo.sentenceSplit Demo.v5
              Demo.headingMatch Demo.toLowerCase Demo.removeNonWord
              Demo.entries st (Demo.main Demo.entries st).1 (Demo.main Demo.entries st).2
              (log (Demo.main Demo.entries st).2))
    as (Hembed & Hupsert & Hcount & _).
  - apply surjective_pairing.
  - reflexivity.
  - split; [|exact Hcount].
    apply Forall_forall. intros [| |input reply|collection points reply| |] Hev; try exact I.
    + exact (proj1 (Hembed input reply Hev)).
    + exact (Hupsert collection points reply Hev).
Defined.

(** X10 on the same run: the four chunks are upserted once each although
    the first upsert failed. *)
Lemma accepted_points_are_a_prefix_witness :
  map payload (concat (upsert_successes
                         (log (Demo.main Demo.entries (Demo.start Demo.flaky)).2)))
    = Demo.chunksOf (loadMarkdownDocs Demo.entries) /\
  map text (Demo.chunksOf (loadMarkdownDocs Demo.entries)) = Demo.texts.
Proof.
  set (st := Demo.start Demo.flaky).
  destruct (accepted_points_are_a_prefix Demo.vector Demo.W Demo.embeddings_create
              Demo.vectorDB_upsert Demo.markdownSections Demo.sentenceSplit Demo.v5
              Demo.headingMatch Demo.toLowerCase Demo.removeNonWord
              Demo.entries st (Demo.main Demo.entries st).1 (Demo.main Demo.entries st).2
              (log (Demo.main Demo.entries st).2))
    as (_ & Hdone).
  - apply surjective_pairing.
  - reflexivity.
  - destruct Hdone as (_ & Hpayload & _).
    + vm_compute. reflexivity.
    + vm_compute. discriminate.
    + vm_compute. discriminate.
    + split; [exact Hpayload|]. vm_compute. reflexivity.
Defined.
